(** * The lockfile parser of dll-link-webpack-plugin (src/utils/yarnParser.ts)

    A shallow embedding of the scanner (the generator [tokenise]) and of the
    tree builder (class [Parser]) with the top-level [parse], followed by the
    properties of the specification.

    Data model.
    - A JavaScript string is a list of UTF-16 code units ([N]); [input[i]] is
      the list lookup [input !! i], which is [None] where JavaScript gives
      [undefined].
    - Numbers are naturals.  The source's numbers are IEEE doubles, which
      are the naturals up to 2^53; from there on [+val] rounds and a number
      in a template literal is printed rounded or with an exponent, so
      [to_number] and [number_to_string] are the code's up to 2^53 only.
      Line and column counters stay below that; where the value of a scanned
      number or of a version matters, the properties are stated below 2^53
      or leave the printed number open.  The only comparison the parser
      makes on a scanned number ([version > LOCKFILE_VERSION]) has the same
      outcome on both, rounding being monotone.
    - Objects live in a heap and are passed by reference ([VRef]), so that
      two keys bound to one object are seen as such.
    - A generator is the state it resumes from; loops that the source bounds
      by nothing ([while (true)], [for (;;)]) take fuel, and [OutOfFuel] is
      the outcome of a run that was cut short.
    - The two scanning loops that can run past the end of the text (a
      comment or a quoted literal that the text does not end) are ended by
      the engine with [RangeError: Invalid string length], as Node does.
    - The call stack has no greatest depth: [next] calls itself at every
      comment and [parse] at every nested block, and an engine gives up on
      some thousands of them in a row. *)

From Stdlib Require Import NArith Ascii String DecimalString DecimalN
  DecimalPos.
From stdpp Require Import gmap list strings numbers.

Local Open Scope N_scope.

(** ** Strings *)

Abbreviation char := N (only parsing).
Abbreviation jsstring := (list N) (only parsing).

(** A string literal of the source, as code units. *)
Definition js (s : string) : jsstring := map N_of_ascii (list_ascii_of_string s).

Definition LF : char := 10.
Definition SPACE : char := 32.
Definition DQUOTE : char := 34.
Definition HASH : char := 35.
Definition COMMA_CHAR : char := 44.
Definition COLON_CHAR : char := 58.
Definition BACKSLASH : char := 92.
Definition BOM : char := 65279.

(** [x === "c"] where [x] is [input[i]]: [undefined] equals no character. *)
Definition is_char (x : option char) (c : char) : bool :=
  match x with Some d => d =? c | None => false end.

(** String concatenation [val += x] with [x = input[i]]: past the end of the
    input [x] is [undefined], which is appended as the text "undefined". *)
Definition append_char (val : jsstring) (x : option char) : jsstring :=
  match x with Some c => val ++ [c] | None => val ++ js "undefined" end.

(** [/[0-9]/] *)
Definition is_digit (c : char) : bool := (48 <=? c) && (c <=? 57).

(** [/[a-zA-Z\/-]/] *)
Definition is_name_start (c : char) : bool :=
  ((97 <=? c) && (c <=? 122)) || ((65 <=? c) && (c <=? 90))
  || (c =? 47) || (c =? 45).

(** [/^true/.test(input)] and the like: the input starts with the word. *)
Fixpoint starts_with (w input : jsstring) : bool :=
  match w, input with
  | [], _ => true
  | c :: w', d :: input' => (c =? d) && starts_with w' input'
  | _ :: _, [] => false
  end.

(** White space and line terminators, as [String.prototype.trim] strips them. *)
Definition is_js_space (c : char) : bool :=
  ((9 <=? c) && (c <=? 13)) || (c =? 32) || (c =? 160) || (c =? 5760)
  || ((8192 <=? c) && (c <=? 8202)) || (c =? 8232) || (c =? 8233)
  || (c =? 8239) || (c =? 8287) || (c =? 12288) || (c =? 65279).

Fixpoint trim_start (s : jsstring) : jsstring :=
  match s with
  | c :: s' => if is_js_space c then trim_start s' else s
  | [] => []
  end.

Definition trim (s : jsstring) : jsstring :=
  reverse (trim_start (reverse (trim_start s))).

(** [+val] on a run of decimal digits. *)
Definition digit_value (c : char) : N := c - 48.

Definition to_number (val : jsstring) : N :=
  fold_left (fun n c => 10 * n + digit_value c) val 0.

(** A number in a template literal: its decimal digits. *)
Definition number_to_string (n : N) : jsstring :=
  js (NilZero.string_of_uint (N.to_uint n)).

(** ** [JSON.parse] on a text that starts with a double quote

    The scanner hands [JSON.parse] only texts whose first character is a
    double quote, so what is needed of JSON is the string literal: unescaped
    characters are all code units from U+0020 on except the quote and the
    backslash; the escapes are the eight single letters and [\uXXXX]; after
    the closing quote only JSON white space may follow.  [None] is a
    [SyntaxError]. *)

Definition hex_value (c : char) : option N :=
  if (48 <=? c) && (c <=? 57) then Some (c - 48)
  else if (65 <=? c) && (c <=? 70) then Some (c - 55)
  else if (97 <=? c) && (c <=? 102) then Some (c - 87)
  else None.

Definition json_escape (c : char) : option char :=
  if c =? 34 then Some 34          (* quote *)
  else if c =? 92 then Some 92     (* backslash *)
  else if c =? 47 then Some 47     (* slash *)
  else if c =? 98 then Some 8      (* b: backspace *)
  else if c =? 102 then Some 12    (* f: form feed *)
  else if c =? 110 then Some 10    (* n: line feed *)
  else if c =? 114 then Some 13    (* r: carriage return *)
  else if c =? 116 then Some 9     (* t: tab *)
  else None.

Definition is_json_space (c : char) : bool :=
  (c =? 32) || (c =? 9) || (c =? 10) || (c =? 13).

(** The characters after the opening quote; [acc] is the decoded text so far. *)
Fixpoint json_string_body (s : jsstring) (acc : jsstring) : option jsstring :=
  match s with
  | [] => None
  | c :: s' =>
      if c =? DQUOTE then
        if forallb is_json_space s' then Some acc else None
      else if c =? BACKSLASH then
        match s' with
        | [] => None
        | e :: s'' =>
            if e =? 117 then
              match s'' with
              | h1 :: h2 :: h3 :: h4 :: s4 =>
                  match hex_value h1, hex_value h2, hex_value h3, hex_value h4 with
                  | Some a, Some b, Some c', Some d =>
                      json_string_body s4 (acc ++ [((a * 16 + b) * 16 + c') * 16 + d])
                  | _, _, _, _ => None
                  end
              | _ => None
              end
            else
              match json_escape e with
              | Some d => json_string_body s'' (acc ++ [d])
              | None => None
              end
        end
      else if c <? 32 then None
      else json_string_body s' (acc ++ [c])
  end.

Definition JSON_parse (val : jsstring) : option jsstring :=
  match val with
  | c :: s => if c =? DQUOTE then json_string_body s [] else None
  | [] => None
  end.

(** ** Values, tokens, exceptions *)

(** The values the parser handles: token values ([boolean | number | string |
    void]) and property values, which may also be a reference to an object. *)
Inductive jsval :=
  | VUndefined
  | VBool (b : bool)
  | VNum (n : N)
  | VStr (s : jsstring)
  | VRef (l : nat).

(** [TOKEN_TYPES] *)
Inductive token_type :=
  | BOOLEAN | STRING | IDENTIFIER | EOF | COLON | NEWLINE
  | COMMENT | INDENT | INVALID | NUMBER | COMMA.

#[global] Instance jsval_eq_dec : EqDecision jsval.
Proof. solve_decision. Defined.

#[global] Instance token_type_eq_dec : EqDecision token_type.
Proof. solve_decision. Defined.

Module Token.
Record t := mk { line : N; col : N; type : token_type; value : jsval }.
End Token.

(** What the code throws: [new TypeError(m)], [new SyntaxError(m)],
    [new Error(m)], a bare string ([throw `...`]) and a failed
    [invariant(cond, m)]; and the [RangeError] that the engine throws. *)
Inductive exn :=
  | TypeError (message : jsstring)
  | SyntaxError (message : jsstring)
  | PlainError (message : jsstring)
  | ThrownString (s : jsstring)
  | InvariantViolation (message : jsstring)
  | RangeError (message : jsstring).

(** The outcome of a computation on a state of type [S]: a value and the new
    state, an exception and the state it was thrown in, or no more fuel. *)
Inductive outcome (S A : Type) :=
  | Ret (a : A) (s : S)
  | Throw (e : exn) (s : S)
  | OutOfFuel.
Arguments Ret {S A} a s.
Arguments Throw {S A} e s.
Arguments OutOfFuel {S A}.

(** ** The scanner: [function* tokenise(input)] *)

(** The variables the generator closes over. *)
Record Scanner := mkScanner {
  input : jsstring;
  lastNewline : bool;
  line : N;
  col : N
}.

Definition buildToken (s : Scanner) (type : token_type) (value : jsval) : Token.t :=
  Token.mk (line s) (col s) type value.

(** The loops of the comment and of the quoted literal have no bound of
    their own.  Once the index is past the end of the text, [input[i]] is
    [undefined] at every turn: it is no newline and no double quote, so the
    loop cannot end any more, and every turn appends the text "undefined" to
    [val].  The engine ends such a loop with [RangeError: Invalid string
    length] when [val] outgrows the strings it allows.  The turns up to
    there do nothing that can be observed, so the loops below raise the error
    at the first turn that reads [undefined]. *)
Definition is_undefined (x : option char) : bool :=
  match x with Some _ => false | None => true end.

Definition string_too_long : exn := RangeError (js "Invalid string length").

(** [while (input[chop] !== "\n") { val += input[chop]; chop++; }] *)
Fixpoint comment_loop (fuel : nat) (input : jsstring) (chop : nat) (val : jsstring)
  : outcome () (nat * jsstring) :=
  match fuel with
  | O => OutOfFuel
  | S fuel' =>
      if is_char (input !! chop) LF then Ret (chop, val) ()
      else if is_undefined (input !! chop) then Throw string_too_long ()
      else comment_loop fuel' input (S chop) (append_char val (input !! chop))
  end.

(** [for (let i = 0; input[i] === " "; i++) indent += input[i];] *)
Fixpoint indent_loop (input : jsstring) : jsstring :=
  match input with
  | c :: rest => if c =? SPACE then c :: indent_loop rest else []
  | [] => []
  end.

(** [input[i - k]], which is [undefined] at a negative index. *)
Definition char_before (input : jsstring) (i k : nat) : option char :=
  if (k <=? i)%nat then input !! (i - k)%nat else None.

(** The loop of the quoted string, from index [i] with [val] captured so far:
    [for (let i = 0; ; i++) { const currentChar = input[i];
    val += currentChar; if (i > 0 && currentChar === quote) { const isEscaped =
    input[i - 1] === backslash && input[i - 2] !== backslash;
    if (!isEscaped) break; } }] *)
Fixpoint quoted_loop (fuel : nat) (input : jsstring) (i : nat) (val : jsstring)
  : outcome () jsstring :=
  match fuel with
  | O => OutOfFuel
  | S fuel' =>
      let currentChar := input !! i in
      if is_undefined currentChar then Throw string_too_long () else
      let val := append_char val currentChar in
      if (0 <? i)%nat && is_char currentChar DQUOTE then
        let isEscaped :=
          is_char (char_before input i 1) BACKSLASH
          && negb (is_char (char_before input i 2) BACKSLASH) in
        if negb isEscaped then Ret val ()
        else quoted_loop fuel' input (S i) val
      else quoted_loop fuel' input (S i) val
  end.

(** [for (let i = 0; /^[0-9]$/.test(input[i]); i++) val += input[i];] *)
Fixpoint digits_loop (input : jsstring) : jsstring :=
  match input with
  | c :: rest => if is_digit c then c :: digits_loop rest else []
  | [] => []
  end.

(** The loop of the bare word: up to the first colon, space, newline or
    comma, or to the end of the input. *)
Fixpoint name_loop (input : jsstring) : jsstring :=
  match input with
  | c :: rest =>
      if (c =? COLON_CHAR) || (c =? SPACE) || (c =? LF) || (c =? COMMA_CHAR)
      then []
      else c :: name_loop rest
  | [] => []
  end.

(** The branches of one turn of [while (input.length)]: the characters to
    chop, the scanner with [line] and [col] as the branch leaves them, and the
    tokens the branch yields. *)
Definition classify (fuel : nat) (s : Scanner)
  : outcome Scanner (nat * list Token.t) :=
  let inp := input s in
  if is_char (inp !! 0%nat) LF then
    let s1 := mkScanner inp (lastNewline s) (line s + 1) 0 in
    Ret (1%nat, [buildToken s1 NEWLINE VUndefined]) s1
  else if is_char (inp !! 0%nat) HASH then
    match comment_loop fuel inp 1 [] with
    | Ret (chop, val) _ => Ret (chop, [buildToken s COMMENT (VStr val)]) s
    | Throw e _ => Throw e s
    | OutOfFuel => OutOfFuel
    end
  else if is_char (inp !! 0%nat) SPACE then
    if lastNewline s then
      let indent := indent_loop inp in
      if (length indent mod 2 =? 0)%nat then
        Ret (length indent,
             [buildToken s INDENT (VNum (N.of_nat (length indent / 2)))]) s
      else Throw (TypeError (js "Invalid number of spaces")) s
    else Ret (1%nat, []) s
  else if is_char (inp !! 0%nat) DQUOTE then
    match quoted_loop fuel inp 0 [] with
    | Ret val _ =>
        match JSON_parse val with
        | Some str => Ret (length val, [buildToken s STRING (VStr str)]) s
        | None => Ret (length val, [buildToken s INVALID VUndefined]) s
        end
    | Throw e _ => Throw e s
    | OutOfFuel => OutOfFuel
    end
  else if match inp !! 0%nat with Some c => is_digit c | None => false end then
    let val := digits_loop inp in
    Ret (length val, [buildToken s NUMBER (VNum (to_number val))]) s
  else if starts_with (js "true") inp then
    Ret (4%nat, [buildToken s BOOLEAN (VBool true)]) s
  else if starts_with (js "false") inp then
    Ret (5%nat, [buildToken s BOOLEAN (VBool false)]) s
  else if is_char (inp !! 0%nat) COLON_CHAR then
    Ret (1%nat, [buildToken s COLON VUndefined]) s
  else if is_char (inp !! 0%nat) COMMA_CHAR then
    Ret (1%nat, [buildToken s COMMA VUndefined]) s
  else if match inp !! 0%nat with Some c => is_name_start c | None => false end then
    let name := name_loop inp in
    Ret (length name, [buildToken s STRING (VStr name)]) s
  else
    Ret (0%nat, [buildToken s INVALID VUndefined]) s.

(** One turn of the loop: the branch, then [if (!chop) yield invalid],
    [col += chop], [lastNewline = input[0] === "\n"] and
    [input = input.slice(chop)]. *)
Definition tokenise_step (fuel : nat) (s : Scanner)
  : outcome Scanner (list Token.t) :=
  match classify fuel s with
  | Ret (chop, toks) s1 =>
      let guard :=
        if (chop =? 0)%nat then [buildToken s1 INVALID VUndefined] else [] in
      Ret (toks ++ guard)
          (mkScanner (drop chop (input s))
                     (is_char (input s !! 0%nat) LF)
                     (line s1)
                     (col s1 + N.of_nat chop))
  | Throw e s1 => Throw e s1
  | OutOfFuel => OutOfFuel
  end.

(** The generator object: the tokens of the current turn that are not pulled
    yet, the scanner, and whether the end-of-file token has been yielded. *)
Record Generator := mkGenerator {
  pending : list Token.t;
  scanner : Scanner;
  finished : bool
}.

Definition tokenise (input : jsstring) : Generator :=
  mkGenerator [] (mkScanner input false 1 0) false.

(** [tokens.next()]: [Some value] is [{value, done: false}], [None] is
    [{done: true}]. *)
Fixpoint Generator_next (fuel : nat) (g : Generator)
  : outcome Generator (option Token.t) :=
  match pending g with
  | t :: rest => Ret (Some t) (mkGenerator rest (scanner g) (finished g))
  | [] =>
      if finished g then Ret None g
      else
        match fuel with
        | O => OutOfFuel
        | S fuel' =>
            match input (scanner g) with
            | [] =>
                Ret (Some (buildToken (scanner g) EOF VUndefined))
                    (mkGenerator [] (scanner g) true)
            | _ :: _ =>
                match tokenise_step fuel' (scanner g) with
                | Ret toks s' => Generator_next fuel' (mkGenerator toks s' false)
                | Throw e s' => Throw e (mkGenerator [] s' true)
                | OutOfFuel => OutOfFuel
                end
            end
        end
  end.

(** ** The tree builder: [class Parser] *)

Definition LOCKFILE_VERSION : N := 1.

(** [comment.match(VERSION_REGEX)] with [/^yarn lockfile v(\d+)$/]: the
    digits of the first group when the whole comment matches. *)
Definition version_match (comment : jsstring) : option jsstring :=
  let prefix := js "yarn lockfile v" in
  let digits := drop (length prefix) comment in
  if starts_with prefix comment
     && negb (bool_decide (digits = []))
     && forallb is_digit digits
  then Some digits
  else None.

Definition unsupported_version_message (version : N) : jsstring :=
  js "Can't install from a lockfile of version " ++ number_to_string version
  ++ js " as you're on an old yarn version that only supports "
  ++ js "versions up to " ++ number_to_string LOCKFILE_VERSION
  ++ js ". Run `$ yarn self-update` to upgrade to the latest version.".

(** The own properties of an object created by [{}]. *)
Abbreviation Obj := (gmap (list N) jsval).

(** [obj[key] = val] on an object created by [{}].  The key [__proto__] is
    the accessor inherited from [Object.prototype]: assigning to it creates
    no own property (it sets the prototype when the value is an object, and
    prototypes are not part of this model). *)
Definition obj_set (key : jsstring) (val : jsval) (o : Obj) : Obj :=
  if bool_decide (key = js "__proto__") then o else <[key := val]> o.

Record Parser := mkParser {
  fileLoc : jsstring;
  token : option Token.t;
  tokens : Generator;
  comments : list jsstring
}.

(** The parser object and the heap of the objects under construction; an
    object is named by its index in the heap. *)
Record State := mkState {
  this : Parser;
  heap : list Obj
}.

Definition M (A : Type) : Type := State → outcome State A.

Definition ret {A} (a : A) : M A := fun st => Ret a st.

Definition bind {A B} (m : M A) (k : A → M B) : M B := fun st =>
  match m st with
  | Ret a st' => k a st'
  | Throw e st' => Throw e st'
  | OutOfFuel => OutOfFuel
  end.

Definition throw {A} (e : exn) : M A := fun st => Throw e st.

Notation "'let*' x ':=' m 'in' k" := (bind m (fun x => k))
  (at level 10, x name, m at level 100, k at level 200).
Notation "m ;;; k" := (bind m (fun _ => k))
  (at level 100, k at level 200, right associativity).

Definition get_token : M (option Token.t) := fun st => Ret (token (this st)) st.

Definition set_token (t : Token.t) : M unit := fun st =>
  let p := this st in
  Ret () (mkState (mkParser (fileLoc p) (Some t) (tokens p) (comments p)) (heap st)).

Definition set_tokens (g : Generator) (st : State) : State :=
  let p := this st in
  mkState (mkParser (fileLoc p) (token p) g (comments p)) (heap st).

Definition push_comment (c : jsstring) : M unit := fun st =>
  let p := this st in
  Ret () (mkState (mkParser (fileLoc p) (token p) (tokens p) (comments p ++ [c]))
                  (heap st)).

(** [const obj = {}] *)
Definition new_object : M nat := fun st =>
  Ret (length (heap st)) (mkState (this st) (heap st ++ [∅])).

(** [for (const key of keys) { obj[key] = val; }] *)
Definition assign_keys (keys : list jsstring) (val : jsval) (o : Obj) : Obj :=
  foldl (fun o key => obj_set key val o) o keys.

Definition set_keys (obj : nat) (keys : list jsstring) (val : jsval) : M unit :=
  fun st =>
    Ret () (mkState (this st) (alter (assign_keys keys val) obj (heap st))).

(** [invariant(cond, message)] *)
Definition invariant (cond : bool) (message : jsstring) : M unit :=
  if cond then ret () else throw (InvariantViolation message).

(** [Parser.onComment] *)
Definition onComment (tok : Token.t) : M unit :=
  match Token.value tok with
  | VStr value =>
      let comment := trim value in
      match version_match comment with
      | Some digits =>
          let version := to_number digits in
          if LOCKFILE_VERSION <? version
          then throw (ThrownString (unsupported_version_message version))
          else push_comment comment
      | None => push_comment comment
      end
  | _ => throw (InvariantViolation (js "expected token value to be a string"))
  end.

(** [Parser.next] *)
Fixpoint next (fuel : nat) : M Token.t := fun st =>
  match fuel with
  | O => OutOfFuel
  | S fuel' =>
      match Generator_next fuel' (tokens (this st)) with
      | Ret item g =>
          let st := set_tokens g st in
          match item with
          | None => Throw (PlainError (js "No more tokens")) st
          | Some value =>
              if bool_decide (Token.type value = COMMENT)
              then (onComment value ;;; next fuel') st
              else (set_token value ;;; ret value) st
          end
      | Throw e g => Throw e (set_tokens g st)
      | OutOfFuel => OutOfFuel
      end
  end.

(** [Parser.unexpected]; [this.token] is set by the time it is called. *)
Definition unexpected {A} (msg : jsstring) : M A := fun st =>
  match token (this st) with
  | Some t =>
      Throw (SyntaxError
               (msg ++ js " " ++ number_to_string (Token.line t) ++ js ":"
                ++ number_to_string (Token.col t) ++ js " in "
                ++ fileLoc (this st))) st
  | None => Throw (TypeError (js "Cannot read property 'line' of undefined")) st
  end.

(** [this.token], which every caller reads after a first [next()]. *)
Definition current : M Token.t :=
  let* t := get_token in
  match t with
  | Some t => ret t
  | None => throw (TypeError (js "Cannot read property 'type' of undefined"))
  end.

(** [isValidPropValueToken] *)
Definition isValidPropValueToken (t : Token.t) : bool :=
  bool_decide (Token.type t ∈ [BOOLEAN; STRING; NUMBER]).

(** A token value used as a key: [propToken.value as string]. *)
Definition as_string (v : jsval) : jsstring :=
  match v with VStr s => s | _ => [] end.

(** A string of the source is truthy when it is not empty. *)
Definition truthy (s : jsstring) : bool := negb (bool_decide (s = [])).

(** The loop over further keys:
    [while (this.token.type === TOKEN_TYPES.comma) { ... }] *)
Fixpoint more_keys (fuel : nat) (keys : list jsstring) : M (list jsstring) :=
  match fuel with
  | O => fun _ => OutOfFuel
  | S fuel' =>
      let* t := current in
      if bool_decide (Token.type t = COMMA) then
        next fuel' ;;;
        let* keyToken := current in
        (if bool_decide (Token.type keyToken = STRING) then ret ()
         else unexpected (js "Expected string")) ;;;
        let key := as_string (Token.value keyToken) in
        invariant (truthy key) (js "Expected a key") ;;;
        next fuel' ;;;
        more_keys fuel' (keys ++ [key])
      else ret keys
  end.

(** The [while (true)] loop of [Parser.parse] on the object [obj]; it
    returns at a [break].  The recursive call [this.parse(indent + 1)] is
    [new_object] followed by the loop on the new object. *)
Fixpoint parse_loop (fuel : nat) (indent : N) (obj : nat) : M unit :=
  match fuel with
  | O => fun _ => OutOfFuel
  | S fuel' =>
      let* propToken := current in
      match Token.type propToken with
      | NEWLINE =>
          let* nextToken := next fuel' in
          if indent =? 0 then parse_loop fuel' indent obj
          else if negb (bool_decide (Token.type nextToken = INDENT)) then ret ()
          else if bool_decide (Token.value nextToken = VNum indent) then
            next fuel' ;;; parse_loop fuel' indent obj
          else ret ()
      | INDENT =>
          if bool_decide (Token.value propToken = VNum indent) then
            next fuel' ;;; parse_loop fuel' indent obj
          else ret ()
      | EOF => ret ()
      | STRING =>
          let key := as_string (Token.value propToken) in
          invariant (truthy key) (js "Expected a key") ;;;
          next fuel' ;;;
          let* keys := more_keys fuel' [key] in
          let* valToken := current in
          if bool_decide (Token.type valToken = COLON) then
            next fuel' ;;;
            let* val := new_object in
            parse_loop fuel' (indent + 1) val ;;;
            set_keys obj keys (VRef val) ;;;
            let* t := current in
            if negb (indent =? 0) && negb (bool_decide (Token.type t = INDENT))
            then ret ()
            else parse_loop fuel' indent obj
          else if isValidPropValueToken valToken then
            set_keys obj keys (Token.value valToken) ;;;
            next fuel' ;;;
            parse_loop fuel' indent obj
          else unexpected (js "Invalid value type")
      | _ => unexpected (js "Unknown token")
      end
  end.

(** [Parser.parse(indent)] *)
Definition Parser_parse (fuel : nat) (indent : N) : M nat :=
  let* obj := new_object in
  parse_loop fuel indent obj ;;;
  ret obj.

(** Modelled from the spec: [stripBOM] is the package strip-bom, which is not
    part of the sources; the specification has it strip a leading byte-order
    mark from the input text if present. *)
Definition stripBOM (str : jsstring) : jsstring :=
  match str with
  | c :: rest => if c =? BOM then rest else str
  | [] => []
  end.

(** [new Parser(input, fileLoc)] on an empty heap. *)
Definition new_Parser (input fileLoc : jsstring) : State :=
  mkState (mkParser fileLoc None (tokenise input) []) [].

(** The exported [parse(str, fileLoc = "lockfile")]; [None] is an omitted
    second argument. *)
Definition parse (fuel : nat) (str : jsstring) (fileLoc : option jsstring)
  : outcome State nat :=
  let fileLoc := default (js "lockfile") fileLoc in
  let str := stripBOM str in
  (next fuel ;;; Parser_parse fuel 0) (new_Parser str fileLoc).

(** ** Reading a result back, and writing inputs *)

(** The nested mapping a value stands for: scalars, and objects with the
    values of their properties read back from the heap. *)
#[warnings="-register-all"]
Inductive json :=
  | JUndefined
  | JBool (b : bool)
  | JNum (n : N)
  | JStr (s : jsstring)
  | JObj (m : gmap (list N) json).

(** [None] when a reference dangles or the depth exceeds [depth]. *)
Fixpoint reify (depth : nat) (h : list Obj) (v : jsval) : option json :=
  match v with
  | VUndefined => Some JUndefined
  | VBool b => Some (JBool b)
  | VNum n => Some (JNum n)
  | VStr s => Some (JStr s)
  | VRef l =>
      match depth, h !! l with
      | S depth', Some o =>
          let m := omap (reify depth' h) o in
          if bool_decide (dom m = dom o) then Some (JObj m) else None
      | _, _ => None
      end
  end.

(** The mapping a successful [parse] returned. *)
Definition mapping (r : outcome State nat) : option json :=
  match r with
  | Ret root st => reify (length (heap st)) (heap st) (VRef root)
  | _ => None
  end.

(** The property names of the object a successful [parse] returned. *)
Definition top_level_keys (r : outcome State nat) : option (gset (list N)) :=
  match r with
  | Ret root st => dom <$> (heap st !! root)
  | _ => None
  end.

(** The exception of a failed [parse]. *)
Definition failure (r : outcome State nat) : option exn :=
  match r with
  | Throw e _ => Some e
  | _ => None
  end.

(** A text from its lines, each newline-terminated. *)
Definition lines (ls : list jsstring) : jsstring :=
  concat (map (fun l => l ++ [LF]) ls).

(** A text between double quotes. *)
Definition quoted (s : jsstring) : jsstring := [DQUOTE] ++ s ++ [DQUOTE].

(** A run of [n] spaces. *)
Definition spaces (n : nat) : jsstring := replicate n SPACE.

(** The input and the expected output of the end-to-end example. *)
Definition example_input : jsstring :=
  lines [ js "# yarn lockfile v1";
          js "";
          js "foo@^1.0.0:";
          js "  version " ++ quoted (js "1.0.0");
          js "  resolved "
             ++ quoted (js "https://registry.example/foo-1.0.0.tgz#abcdef");
          js "  dependencies:";
          js "    bar " ++ quoted (js "^2.0.0") ].

Definition example_output : json :=
  JObj {[ js "foo@^1.0.0" :=
    JObj {[ js "version" := JStr (js "1.0.0");
            js "resolved" :=
              JStr (js "https://registry.example/foo-1.0.0.tgz#abcdef");
            js "dependencies" := JObj {[ js "bar" := JStr (js "^2.0.0") ]} ]} ]}.

(** The input of the alias example. *)
Definition alias_input : jsstring :=
  lines [ js "foo@^1.0.0, foo@^1.1.0:";
          js "  version " ++ quoted (js "1.1.0") ].

(** ** Fuel *)

(** [r1] is [r2] or a run that was cut short. *)
Definition approx {S A} (r1 r2 : outcome S A) : Prop :=
  r1 = OutOfFuel ∨ r1 = r2.

Definition approxM {A} (m1 m2 : M A) : Prop := ∀ st, approx (m1 st) (m2 st).

(** [f] gives [r] on [s] with every large enough amount of fuel. *)
Definition converges {S A} (f : nat → S → outcome S A) (s : S) (r : outcome S A)
  : Prop :=
  ∃ n0, ∀ n, (n0 ≤ n)%nat → f n s = r.

(** [parse] returns [r] with every large enough amount of fuel. *)
Definition parses (str : jsstring) (fileLoc : option jsstring)
  (r : outcome State nat) : Prop :=
  ∃ n0, ∀ n, (n0 ≤ n)%nat → parse n str fileLoc = r.

(** ** What holds of the parser between two steps *)

(** A generator that has yielded its end-of-file token holds no token back. *)
Definition gen_ok (g : Generator) : Prop :=
  finished g = true → pending g = [].

(** Once the generator has yielded its end-of-file token, that token is the
    current one. *)
Definition state_ok (st : State) : Prop :=
  gen_ok (tokens (this st))
  ∧ (finished (tokens (this st)) = true →
     ∃ tk, token (this st) = Some tk ∧ Token.type tk = EOF).

(** The messages the tree builder passes to [unexpected]. *)
Definition grammar_messages : list jsstring :=
  [js "Expected string"; js "Invalid value type"; js "Unknown token"].

(** An outcome of a parser with the source label [label]: a result leaves a
    state as above; an exception is not the one of an exhausted token stream,
    and a [SyntaxError] has one of the grammar messages followed by the
    position of the current token and the label. *)
Definition outcome_ok {A} (label : jsstring) (r : outcome State A) : Prop :=
  match r with
  | Ret _ st => state_ok st ∧ fileLoc (this st) = label
  | Throw e st =>
      fileLoc (this st) = label
      ∧ e ≠ PlainError (js "No more tokens")
      ∧ ∀ m, e = SyntaxError m →
          ∃ msg tk, msg ∈ grammar_messages ∧ token (this st) = Some tk
            ∧ m = msg ++ js " " ++ number_to_string (Token.line tk) ++ js ":"
                  ++ number_to_string (Token.col tk) ++ js " in " ++ label
  | OutOfFuel => True
  end.

(** ** Well-formed texts

    A text that consists only of well-formed blocks is the rendering of a
    list of entries.  An entry is a line with one key or several keys joined
    by a comma and a space, followed either by a space and a scalar value, or
    by a colon and, on the lines below, the entries of the nested block, two
    spaces deeper.  Every line ends in a newline. *)

(** A word is written bare or between double quotes. *)
Inductive Word :=
  | Bare (w : jsstring)
  | Quoted (s : jsstring).

Inductive Scalar :=
  | SWord (w : Word)
  | SNumber (digits : jsstring)
  | SBoolean (b : bool).

#[warnings="-register-all"]
Inductive Entry :=
  | Leaf (key : Word) (aliases : list Word) (value : Scalar)
  | Block (key : Word) (aliases : list Word) (children : list Entry).

Definition is_delimiter (c : char) : bool :=
  (c =? COLON_CHAR) || (c =? SPACE) || (c =? LF) || (c =? COMMA_CHAR).

(** A bare word starts with a letter, a slash or a hyphen, holds no colon,
    space, newline or comma, and does not start with [true] or [false]
    (which the scanner reads as a boolean). *)
Definition wf_bare (w : jsstring) : bool :=
  match w with c :: _ => is_name_start c | [] => false end
  && forallb (fun c => negb (is_delimiter c)) w
  && negb (starts_with (js "true") w)
  && negb (starts_with (js "false") w).

(** A character that stands for itself between double quotes. *)
Definition plain_char (c : char) : bool :=
  (32 <=? c) && negb (c =? DQUOTE) && negb (c =? BACKSLASH).

(** The text holds a double quote right after two backslashes. *)
Fixpoint quote_after_two_backslashes (s : jsstring) : bool :=
  match s with
  | a :: s' =>
      match s' with
      | b :: c :: _ =>
          ((a =? BACKSLASH) && (b =? BACKSLASH) && (c =? DQUOTE))
          || quote_after_two_backslashes s'
      | _ => false
      end
  | [] => false
  end.

(** What is written between the double quotes of a quoted word: with the
    quotes it is a string literal that [JSON.parse] decodes (plain
    characters and escapes), and it holds no double quote right after two
    backslashes, that is, no escaped quote right after an escaped
    backslash. *)
Definition wf_quoted (s : jsstring) : bool :=
  match JSON_parse (quoted s) with
  | Some _ => negb (quote_after_two_backslashes s)
  | None => false
  end.

Definition wf_word (w : Word) : bool :=
  match w with
  | Bare w => wf_bare w
  | Quoted s => wf_quoted s
  end.

(** The text that a word stands for: a bare word stands for itself, a
    quoted word for the text that its literal decodes to. *)
Definition word_value (w : Word) : jsstring :=
  match w with
  | Bare w => w
  | Quoted s => default [] (JSON_parse (quoted s))
  end.

(** A key is a word that is not empty and is not [__proto__], which names no
    property of its own on a JavaScript object. *)
Definition wf_key (w : Word) : bool :=
  wf_word w
  && negb (bool_decide (word_value w = []))
  && negb (bool_decide (word_value w = js "__proto__")).

Definition wf_scalar (v : Scalar) : bool :=
  match v with
  | SWord w => wf_word w
  | SNumber digits => negb (bool_decide (digits = [])) && forallb is_digit digits
  | SBoolean _ => true
  end.

Fixpoint wf_entry (e : Entry) : bool :=
  match e with
  | Leaf key aliases value =>
      wf_key key && forallb wf_key aliases && wf_scalar value
  | Block key aliases children =>
      wf_key key && forallb wf_key aliases && forallb wf_entry children
  end.

Definition render_word (w : Word) : jsstring :=
  match w with Bare w => w | Quoted s => quoted s end.

Definition render_scalar (v : Scalar) : jsstring :=
  match v with
  | SWord w => render_word w
  | SNumber digits => digits
  | SBoolean true => js "true"
  | SBoolean false => js "false"
  end.

Definition render_keys (key : Word) (aliases : list Word) : jsstring :=
  render_word key
  ++ concat (map (fun a => [COMMA_CHAR; SPACE] ++ render_word a) aliases).

(** An entry at depth [d], with exactly two spaces per level. *)
Fixpoint render_entry (d : nat) (e : Entry) : jsstring :=
  match e with
  | Leaf key aliases value =>
      spaces (2 * d) ++ render_keys key aliases ++ [SPACE]
      ++ render_scalar value ++ [LF]
  | Block key aliases children =>
      spaces (2 * d) ++ render_keys key aliases ++ [COLON_CHAR; LF]
      ++ concat (map (render_entry (S d)) children)
  end.

Definition render_entries (d : nat) (es : list Entry) : jsstring :=
  concat (map (render_entry d) es).

Definition render (doc : list Entry) : jsstring := render_entries 0 doc.

(** The keys of an entry, and the top-level specifier strings of a text. *)
Definition entry_keys (e : Entry) : list jsstring :=
  match e with
  | Leaf key aliases _ | Block key aliases _ =>
      word_value key :: map word_value aliases
  end.

Definition specifiers (doc : list Entry) : list jsstring :=
  concat (map entry_keys doc).

Definition scalar_value (v : Scalar) : jsval :=
  match v with
  | SWord w => VStr (word_value w)
  | SNumber digits => VNum (to_number digits)
  | SBoolean b => VBool b
  end.

(** The heap that the entries of a block stand for, built on the object
    [obj] of the heap [h]: a nested block is a new object at the end of the
    heap, filled with its entries and then bound to every key of its line. *)
Fixpoint build_entry (obj : nat) (e : Entry) (h : list Obj) : list Obj :=
  match e with
  | Leaf _ _ value =>
      alter (assign_keys (entry_keys e) (scalar_value value)) obj h
  | Block _ _ children =>
      let val := length h in
      alter (assign_keys (entry_keys e) (VRef val)) obj
            (foldl (fun h c => build_entry val c h) (h ++ [∅]) children)
  end.

Definition build (obj : nat) (es : list Entry) (h : list Obj) : list Obj :=
  foldl (fun h e => build_entry obj e h) h es.

(** The numbers among the values are below 2^53, where the doubles of the
    source are the naturals. *)
Definition exact_scalar (v : Scalar) : bool :=
  match v with
  | SNumber digits => to_number digits <? 2 ^ 53
  | _ => true
  end.


(** ** The token stream as the tree builder sees it *)

(** What a call of [next] brings: a token that is not a comment, by its type
    and value, or an exception. *)
Inductive event :=
  | Tok (type : token_type) (value : jsval)
  | Raise (e : exn).

(** A call of [next] on a parser whose generator is [g] brings [ev] and
    leaves the generator [g']; it changes nothing else but the current token
    and the comments. *)
Definition next_brings (g : Generator) (ev : event) (g' : Generator) : Prop :=
  ∀ st, tokens (this st) = g →
    match ev with
    | Tok type value =>
        ∃ tk st',
          converges next st (Ret tk st')
          ∧ Token.type tk = type ∧ Token.value tk = value
          ∧ token (this st') = Some tk ∧ tokens (this st') = g'
          ∧ heap st' = heap st ∧ fileLoc (this st') = fileLoc (this st)
    | Raise e => ∃ st', converges next st (Throw e st')
    end.

(** The calls of [next] from the generator [g] on bring the events [evs],
    up to the first exception. *)
Inductive Feeds : Generator → list event → Prop :=
  | Feeds_nil g : Feeds g []
  | Feeds_tok g type value g' evs :
      next_brings g (Tok type value) g' →
      Feeds g' evs →
      Feeds g (Tok type value :: evs)
  | Feeds_raise g e evs :
      next_brings g (Raise e) g →
      Feeds g (Raise e :: evs).

(** The current token is the first of [evs], and the generator feeds the
    rest. *)
Definition At (st : State) (evs : list event) : Prop :=
  match evs with
  | Tok type value :: evs' =>
      (∃ tk, token (this st) = Some tk
             ∧ Token.type tk = type ∧ Token.value tk = value)
      ∧ Feeds (tokens (this st)) evs'
  | _ => False
  end.

Definition alias_events (aliases : list Word) : list event :=
  concat (map (fun a => [Tok COMMA VUndefined;
                         Tok STRING (VStr (word_value a))]) aliases).

Definition key_events (key : Word) (aliases : list Word) : list event :=
  Tok STRING (VStr (word_value key)) :: alias_events aliases.

Definition scalar_event (v : Scalar) : event :=
  match v with
  | SWord w => Tok STRING (VStr (word_value w))
  | SNumber digits => Tok NUMBER (VNum (to_number digits))
  | SBoolean b => Tok BOOLEAN (VBool b)
  end.

Definition indent_events (d : nat) : list event :=
  match d with
  | O => []
  | S _ => [Tok INDENT (VNum (N.of_nat d))]
  end.

(** The tokens of an entry at depth [d]. *)
Fixpoint entry_events (d : nat) (e : Entry) : list event :=
  match e with
  | Leaf key aliases value =>
      indent_events d ++ key_events key aliases
      ++ [scalar_event value; Tok NEWLINE VUndefined]
  | Block key aliases children =>
      indent_events d ++ key_events key aliases
      ++ [Tok COLON VUndefined; Tok NEWLINE VUndefined]
      ++ concat (map (entry_events (S d)) children)
  end.

Definition entries_events (d : nat) (es : list Entry) : list event :=
  concat (map (entry_events d) es).

(** The block at depth [d] ends before [K]: at an exception, at the end of
    the file, at an indent of a lesser depth or, inside a nested block, at
    any other token. *)
Definition closes (d : nat) (K : list event) : Prop :=
  match K with
  | Raise _ :: _ => True
  | Tok EOF _ :: _ => True
  | Tok INDENT (VNum i) :: _ => (i < N.of_nat d)%N
  | Tok INDENT _ :: _ => False
  | Tok _ _ :: _ => d ≠ 0%nat
  | [] => False
  end.

(** The loop of [parse] stops at [K] with the heap [h]: it returns when [K]
    starts with a token, which is then the current one, and it raises the
    exception that [K] starts with. *)
Definition ends (K : list event) (h : list Obj) (r : outcome State ()) : Prop :=
  match K with
  | Tok _ _ :: _ => ∃ st', r = Ret () st' ∧ At st' K ∧ heap st' = h
  | Raise e :: _ => ∃ st', r = Throw e st'
  | [] => False
  end.

(** The tokens of an entry after its indent. *)
Definition line_events (d : nat) (e : Entry) : list event :=
  match e with
  | Leaf key aliases value =>
      key_events key aliases ++ [scalar_event value; Tok NEWLINE VUndefined]
  | Block key aliases children =>
      key_events key aliases
      ++ [Tok COLON VUndefined; Tok NEWLINE VUndefined]
      ++ entries_events (S d) children
  end.

(** The loop of [parse] at depth [d] on the object [obj], started in [st],
    reads the entries [es] and stops at [K] with the heap they stand for.
    It is started either at the newline before the entries or at their first
    token, which inside a nested block is an indent. *)
Definition loop_reads (es : list Entry) : Prop :=
  ∀ d K obj st,
    forallb wf_entry es = true → closes d K →
    At st (Tok NEWLINE VUndefined :: entries_events d es ++ K)
    ∨ (At st (entries_events d es ++ K)
       ∧ (d = 0%nat
          ∨ ∃ v rest, entries_events d es ++ K = Tok INDENT v :: rest)) →
    ∃ r, converges (fun n => parse_loop n (N.of_nat d) obj) st r
         ∧ ends K (build obj es (heap st)) r.

Fixpoint entry_size (e : Entry) : nat :=
  match e with
  | Leaf _ _ _ => 1
  | Block _ _ children => S (list_sum (map entry_size children))
  end.

Definition entries_size (es : list Entry) : nat :=
  list_sum (map entry_size es).

(** ** The token stream of a text *)

(** The generator between two turns of the scanner's loop. *)
Definition scanning (s : Scanner) : Generator := mkGenerator [] s false.

(** From the text [inp], after a newline or not ([ln]), and wherever the
    line and column counters stand, the tree builder is fed [evs]. *)
Definition Scans (ln : bool) (inp : jsstring) (evs : list event) : Prop :=
  ∀ l c, Feeds (scanning (mkScanner inp ln l c)) evs.

(** The text is not empty and does not start with the character [c]. *)
Definition starts_otherwise (c : char) (inp : jsstring) : Prop :=
  match inp with d :: _ => d ≠ c | [] => True end.

(** The text is at its end or starts with a colon, space, newline or comma. *)
Definition at_delimiter (inp : jsstring) : Prop :=
  match inp with d :: _ => is_delimiter d = true | [] => True end.

(** ** Texts of the claims *)

(** Some line of the text has, right after its newline, a run of leading
    spaces of odd length. *)
Fixpoint has_odd_indent (text : jsstring) : bool :=
  match text with
  | c :: rest =>
      ((c =? LF) && Nat.odd (length (indent_loop rest))) || has_odd_indent rest
  | [] => false
  end.

(** The text of a comment, trimmed, is a version pragma for [version]. *)
Definition is_version_pragma (comment : jsstring) (version : N) : Prop :=
  ∃ digits, version_match (trim comment) = Some digits
            ∧ to_number digits = version.

(** The thrown message of an unsupported version, with the version as it
    is printed. *)
Definition unsupported_version_text (printed : jsstring) : jsstring :=
  js "Can't install from a lockfile of version " ++ printed
  ++ js " as you're on an old yarn version that only supports "
  ++ js "versions up to " ++ number_to_string LOCKFILE_VERSION
  ++ js ". Run `$ yarn self-update` to upgrade to the latest version.".

(** A version is printed with its decimal digits when it is below 2^53. *)
Definition prints_version (version : N) (printed : jsstring) : Prop :=
  version < 2 ^ 53 → printed = number_to_string version.

(** The blocks of the end-to-end example. *)
Definition example_doc : list Entry :=
  [ Block (Bare (js "foo@^1.0.0")) []
      [ Leaf (Bare (js "version")) [] (SWord (Quoted (js "1.0.0")));
        Leaf (Bare (js "resolved")) []
             (SWord (Quoted (js "https://registry.example/foo-1.0.0.tgz#abcdef")));
        Block (Bare (js "dependencies")) []
          [ Leaf (Bare (js "bar")) [] (SWord (Quoted (js "^2.0.0"))) ] ] ].

(** The block of the alias example. *)
Definition alias_doc : list Entry :=
  [ Block (Bare (js "foo@^1.0.0")) [Bare (js "foo@^1.1.0")]
      [ Leaf (Bare (js "version")) [] (SWord (Quoted (js "1.1.0"))) ] ].




(** A text with an indented line at the top level, then a line with three
    leading spaces. *)
Definition early_return_input : jsstring :=
  lines [ js ""; js "  a 1"; js "   b 2" ].

(** A text with an indented line at the top level, then a pragma of
    version 2. *)
Definition late_pragma_input : jsstring :=
  lines [ js ""; js "  a 1"; js "# yarn lockfile v2" ].

(** ** The token sequence of the scanner *)

(** Successive pulls on the generator [g] yield the tokens [ts] and leave
    the generator [g']. *)
Inductive yields : Generator → list Token.t → Generator → Prop :=
  | yields_nil g : yields g [] g
  | yields_cons g tk g1 ts g' :
      converges Generator_next g (Ret (Some tk) g1) →
      yields g1 ts g' →
      yields g (tk :: ts) g'.

(** The generator has returned: every pull gives [{done: true}]. *)
Definition is_done (g : Generator) : Prop :=
  ∀ n, Generator_next n g = Ret None g.

(** The next pull yields the end-of-file token, and then the generator has
    returned. *)
Definition Ends (g : Generator) : Prop :=
  ∃ tk g', Token.type tk = EOF
           ∧ converges Generator_next g (Ret (Some tk) g') ∧ is_done g'.

(** The next pull raises the error of an odd indentation. *)
Definition Raises (g : Generator) : Prop :=
  ∃ g', converges Generator_next g
          (Throw (TypeError (js "Invalid number of spaces")) g').

(** The next pull yields an invalid token, and so does every pull after it:
    the generator then goes back and forth between two states. *)
Definition Stalls (g : Generator) : Prop :=
  ∃ tk g1 g2, Token.type tk = INVALID
              ∧ converges Generator_next g (Ret (Some tk) g1)
              ∧ converges Generator_next g1 (Ret (Some tk) g2)
              ∧ converges Generator_next g2 (Ret (Some tk) g1).

(** The next pull raises the error of a string that has grown too long. *)
Definition Overruns (g : Generator) : Prop :=
  ∃ g', converges Generator_next g (Throw string_too_long g').


(** No rule of the scanner accepts the first character of the text. *)
Definition is_stuck (inp : jsstring) : bool :=
  match inp with
  | [] => false
  | c :: _ =>
      negb (c =? LF) && negb (c =? HASH) && negb (c =? SPACE)
      && negb (c =? DQUOTE) && negb (is_digit c)
      && negb (starts_with (js "true") inp)
      && negb (starts_with (js "false") inp)
      && negb (c =? COLON_CHAR) && negb (c =? COMMA_CHAR)
      && negb (is_name_start c)
  end.

(** The quoted literal as the scanner captures it from the characters [s]
    that follow the opening quote: up to and including the first double
    quote that it does not take as escaped.  It takes a double quote as
    escaped when the character before is a backslash and the one before
    that is not.  [before] holds the characters before [s], the last one
    first; [None] when no double quote of [s] closes the literal. *)
Fixpoint capture (before s : jsstring) : option jsstring :=
  match s with
  | [] => None
  | c :: s' =>
      if (c =? DQUOTE)
         && negb (is_char (before !! 0%nat) BACKSLASH
                  && negb (is_char (before !! 1%nat) BACKSLASH))
      then Some [c]
      else cons c <$> capture (c :: before) s'
  end.

(** The text starts with a comment that no newline ends, or with a quoted
    literal that no double quote closes. *)
Definition unterminated (inp : jsstring) : bool :=
  match inp with
  | c :: rest =>
      ((c =? HASH) && forallb (fun x => negb (x =? LF)) rest)
      || ((c =? DQUOTE)
          && match capture [c] rest with Some _ => false | None => true end)
  | [] => false
  end.

(** The scanner is right after a newline, at a run of spaces of odd
    length. *)
Definition at_odd_indent (s : Scanner) : bool :=
  lastNewline s && is_char (input s !! 0%nat) SPACE
  && Nat.odd (length (indent_loop (input s))).

(** The text at the next character that the scanner does not skip: inside
    a line it skips spaces. *)
Definition next_text (s : Scanner) : jsstring :=
  if lastNewline s then input s
  else drop (length (indent_loop (input s))) (input s).

(** Where the token sequence stops growing, by the scanner [s] between two
    pulls: the text is used up and the end-of-file token comes; or the run
    of spaces after a newline is odd and the pull fails; or a comment or a
    quoted literal is not ended and the pull fails; or no rule accepts the
    next character and every pull yields an invalid token. *)
Definition comes_to (s : Scanner) : Prop :=
  (next_text s = [] ∧ Ends (scanning s))
  ∨ (at_odd_indent s = true ∧ Raises (scanning s))
  ∨ (unterminated (next_text s) = true ∧ Overruns (scanning s))
  ∨ (is_stuck (next_text s) = true ∧ Stalls (scanning s)).

(** What the token sequence of the generator [g] does: after finitely many
    tokens, none of which is the end-of-file token, and with what is left of
    its text, it comes to one of the four ends. *)
Definition scanner_behaviour (g : Generator) : Prop :=
  ∃ ts s' k,
    yields g ts (scanning s')
    ∧ Forall (fun tk => Token.type tk ≠ EOF) ts
    ∧ input s' = drop k (input (scanner g))
    ∧ comes_to s'.


(** The quoted literal as the specification has the scanner capture it: up
    to and including the first double quote that is not preceded by an
    unescaped backslash.  [escaped] tells whether the character before is an
    unescaped backslash. *)
Fixpoint spec_capture_body (s : jsstring) (escaped : bool) : option jsstring :=
  match s with
  | [] => None
  | c :: s' =>
      if escaped then cons c <$> spec_capture_body s' false
      else if c =? BACKSLASH then cons c <$> spec_capture_body s' true
      else if c =? DQUOTE then Some [c]
      else cons c <$> spec_capture_body s' false
  end.

Definition spec_capture (inp : jsstring) : option jsstring :=
  match inp with
  | c :: s => if c =? DQUOTE then cons c <$> spec_capture_body s false else None
  | [] => None
  end.

(** The literal of the specification's example: [a], a backslash, a quote
    and [b] between quotes; and the same with three backslashes before the
    inner quote. *)
Definition escaped_quote_literal : jsstring :=
  [DQUOTE; 97; BACKSLASH; DQUOTE; 98; DQUOTE].

Definition three_backslashes_literal : jsstring :=
  [DQUOTE; 97; BACKSLASH; BACKSLASH; BACKSLASH; DQUOTE; 98; DQUOTE].

(** What [build] does to the cells of the heap it starts from: it keeps
    them all, and changes the object it builds on only. *)
Definition build_frame (es : list Entry) : Prop :=
  ∀ (obj : nat) (h : list Obj),
    (length h ≤ length (build obj es h))%nat
    ∧ ∀ l : nat, (l < length h)%nat → l ≠ obj → build obj es h !! l = h !! l.

(** A turn of the loop that returns, with enough fuel, at most one token,
    which is not the end-of-file token, and a shorter text. *)
Definition turn_progresses (s : Scanner) : Prop :=
  ∃ toks s' n0,
    (∀ n, (n0 ≤ n)%nat → tokenise_step n s = Ret toks s')
    ∧ (length (input s') < length (input s))%nat
    ∧ (toks = [] ∨ ∃ tk, toks = [tk] ∧ Token.type tk ≠ EOF).


(** ** Further properties of the code: what they are stated with *)

(** A token carries a value of the kind of its type; an indent counts at
    least one level, and no token is an identifier. *)
Definition token_ok (tk : Token.t) : Prop :=
  match Token.type tk with
  | STRING | COMMENT => ∃ s, Token.value tk = VStr s
  | NUMBER => ∃ n, Token.value tk = VNum n
  | BOOLEAN => ∃ b, Token.value tk = VBool b
  | INDENT => ∃ n, Token.value tk = VNum n ∧ (0 < n)%N
  | IDENTIFIER => False
  | EOF | COLON | NEWLINE | INVALID | COMMA => Token.value tk = VUndefined
  end.

(** A property value of the object at index [i] of a heap of [size] objects:
    a string, a number, a boolean, or an object created after that one. *)
Definition value_ok (size i : nat) (v : jsval) : Prop :=
  match v with
  | VUndefined => False
  | VBool _ | VNum _ | VStr _ => True
  | VRef l => (i < l < size)%nat
  end.

(** No object of the heap has an empty property name or the name
    [__proto__], and every property value is as above. *)
Definition heap_ok (h : list Obj) : Prop :=
  ∀ (i : nat) (o : Obj) (k : list N) (v : jsval),
    h !! i = Some o → o !! k = Some v →
    k ≠ [] ∧ k ≠ js "__proto__" ∧ value_ok (length h) i v.

(** The parser between two steps, once a first token is read. *)
Definition parser_ok (st : State) : Prop :=
  (∃ tk, token (this st) = Some tk ∧ token_ok tk)
  ∧ Forall token_ok (pending (tokens (this st)))
  ∧ heap_ok (heap st).

(** The exceptions of the scanner and of the tree builder. *)
Definition raised (e : exn) : Prop :=
  e = TypeError (js "Invalid number of spaces")
  ∨ e = RangeError (js "Invalid string length")
  ∨ (∃ version printed,
       (1 < version)%N ∧ prints_version version printed
       ∧ e = ThrownString (unsupported_version_text printed))
  ∨ (∃ m, e = SyntaxError m)
  ∨ e = InvariantViolation (js "Expected a key")
  ∨ e = PlainError (js "No more tokens").

(** An outcome that is a result as [Q] has it, or one of the exceptions
    above. *)
Definition outcome_shape {A} (Q : A → State → Prop) (r : outcome State A)
  : Prop :=
  match r with
  | Ret a st => Q a st
  | Throw e _ => raised e
  | OutOfFuel => True
  end.

(** Pulls on the generator [g] come to an end after at most [n] tokens: the
    generator has returned, or the pull raises an exception, or it yields a
    token that is invalid or after which the pulls end after at most [n - 1]
    tokens. *)
Inductive Fin : nat → Generator → Prop :=
  | Fin_done n g : is_done g → Fin n g
  | Fin_raise n g e g' : converges Generator_next g (Throw e g') → Fin n g
  | Fin_tok n g tk g' :
      converges Generator_next g (Ret (Some tk) g') →
      Token.type tk = INVALID ∨ Fin n g' →
      Fin (S n) g.

(** The parser has a current token, and that token is invalid or the token
    stream ends after at most [k] tokens. *)
Definition within (k : nat) (st : State) : Prop :=
  ∃ tk, token (this st) = Some tk
        ∧ (Token.type tk = INVALID ∨ Fin k (tokens (this st))).

(** With enough fuel [f] returns on [st] a result as [Q] has it, or raises
    an exception. *)
Definition halts {A} (f : nat → M A) (st : State) (Q : A → State → Prop)
  : Prop :=
  ∃ r, converges f st r
       ∧ match r with
         | Ret a st' => Q a st'
         | Throw _ _ => True
         | OutOfFuel => False
         end.

(** ** Blank lines and comments between the blocks *)

(** A line that is no entry: a blank line, or a comment. *)
Inductive Filler :=
  | Blank
  | Remark (text : jsstring).

(** [onComment] lets the comment pass: trimmed, it is no pragma of a version
    above 1. *)
Definition accepted_comment (text : jsstring) : bool :=
  match version_match (trim text) with
  | Some digits => negb (LOCKFILE_VERSION <? to_number digits)
  | None => true
  end.

Definition wf_filler (f : Filler) : bool :=
  match f with
  | Blank => true
  | Remark text =>
      forallb (fun c => negb (c =? LF)) text && accepted_comment text
  end.

Definition render_filler (f : Filler) : jsstring :=
  match f with
  | Blank => [LF]
  | Remark text => [HASH] ++ text ++ [LF]
  end.

(** The lines of a text at the top level: blocks, and blank lines and
    comments before, between and after them. *)
Inductive Item :=
  | Gap (f : Filler)
  | Top (e : Entry).

Definition wf_item (it : Item) : bool :=
  match it with
  | Gap f => wf_filler f
  | Top e => wf_entry e
  end.

Definition render_item (it : Item) : jsstring :=
  match it with
  | Gap f => render_filler f
  | Top e => render_entry 0 e
  end.

Definition render_items (its : list Item) : jsstring :=
  concat (map render_item its).

(** The blocks among the lines. *)
Definition item_entries (its : list Item) : list Entry :=
  omap (fun it => match it with Top e => Some e | Gap _ => None end) its.

(** What the tree builder is fed: of a blank line or a comment, the newline
    only. *)
Definition item_events (it : Item) : list event :=
  match it with
  | Gap _ => [Tok NEWLINE VUndefined]
  | Top e => entry_events 0 e
  end.

Definition items_events (its : list Item) : list event :=
  concat (map item_events its).

(** The loop of [parse] at the top level stops before [K]: at an exception,
    at the end of the file, or at an indent. *)
Definition stops_top (K : list event) : Prop :=
  match K with
  | Raise _ :: _ => True
  | Tok EOF _ :: _ => True
  | Tok INDENT v :: _ => v ≠ VNum 0
  | _ => False
  end.

(** What follows a top-level entry: after a block, a token at which the
    nested block ends. *)
Definition follows (e : Entry) (R : list event) : Prop :=
  match e with
  | Leaf _ _ _ => R ≠ []
  | Block _ _ _ => closes 1 R
  end.

(** Every top-level entry of [its], before [K], is followed as above. *)
Fixpoint separated (its : list Item) (K : list event) : Prop :=
  match its with
  | [] => True
  | it :: rest =>
      match it with
      | Top e => follows e (items_events rest ++ K)
      | Gap _ => True
      end
      ∧ separated rest K
  end.

(** ** Texts that [parse] rejects at their first token *)

(** The text starts with a token that starts no entry: a number, a colon, a
    comma, a boolean, or a character that no rule of the scanner accepts
    (the byte-order mark apart, which [parse] strips). *)
Definition starts_no_entry (inp : jsstring) : bool :=
  match inp with
  | [] => false
  | c :: _ =>
      negb (c =? BOM)
      && (is_digit c || (c =? COLON_CHAR) || (c =? COMMA_CHAR)
          || starts_with (js "true") inp || starts_with (js "false") inp
          || is_stuck inp)
  end.

(** The message of [unexpected(msg)] at a token of the position [l]:[c]. *)
Definition unexpected_message (msg : jsstring) (l c : N) (label : jsstring)
  : jsstring :=
  msg ++ js " " ++ number_to_string l ++ js ":" ++ number_to_string c
  ++ js " in " ++ label.

(** ** What an entry binds its keys to *)

(** In the heap [h] the value [v] is what the entry [e] stands for: its
    scalar, or a reference to an object that has the keys of its nested
    block. *)
Definition entry_bound (h : list Obj) (e : Entry) (v : jsval) : Prop :=
  match e with
  | Leaf _ _ value => v = scalar_value value
  | Block _ _ children =>
      ∃ (l : nat) (o : Obj),
        v = VRef l ∧ h !! l = Some o
        ∧ dom o =@{gset (list N)} list_to_set (specifiers children)
  end.

(** ** A carriage return *)






(** ** The digits of a number *)

(** The number that the digits [d] stand for after the digits of [acc]. *)
Fixpoint uint_value (d : Decimal.uint) (acc : N) : N :=
  match d with
  | Decimal.Nil => acc
  | Decimal.D0 l => uint_value l (10 * acc + 0)
  | Decimal.D1 l => uint_value l (10 * acc + 1)
  | Decimal.D2 l => uint_value l (10 * acc + 2)
  | Decimal.D3 l => uint_value l (10 * acc + 3)
  | Decimal.D4 l => uint_value l (10 * acc + 4)
  | Decimal.D5 l => uint_value l (10 * acc + 5)
  | Decimal.D6 l => uint_value l (10 * acc + 6)
  | Decimal.D7 l => uint_value l (10 * acc + 7)
  | Decimal.D8 l => uint_value l (10 * acc + 8)
  | Decimal.D9 l => uint_value l (10 * acc + 9)
  end.

(** * Properties *)

(** C2: on the end-to-end example of the specification [parse] returns
    exactly the expected nested mapping. *)
Theorem C2_end_to_end_example :
  mapping (parse 100 example_input None) = Some example_output.
Proof. vm_compute. reflexivity. Qed.

(** C10: on the empty input, and on an input that is only a byte-order mark,
    [parse] succeeds and returns the empty mapping, with the end-of-file
    token as the current token: the depth-0 loop stopped on it. *)
Theorem C10_empty_input (fuel : nat) :
  let finished_on_eof r :=
    match r with
    | Ret root st =>
        root = 0%nat ∧ heap st = [∅]
        ∧ Token.type <$> token (this st) = Some EOF
    | _ => False
    end in
  finished_on_eof (parse (S (S fuel)) [] None)
  ∧ finished_on_eof (parse (S (S fuel)) [BOM] None)
  ∧ mapping (parse (S (S fuel)) [] None) = Some (JObj ∅)
  ∧ mapping (parse (S (S fuel)) [BOM] None) = Some (JObj ∅).
Proof. cbn. repeat split. Qed.

(** ** More fuel does not change a result *)

Section Fuel.

Local Open Scope nat_scope.

Lemma approx_refl {S A} (r : outcome S A) : approx r r.
Proof. by right. Qed.

Lemma approxM_refl {A} (m : M A) : approxM m m.
Proof. intros st. apply approx_refl. Qed.

Lemma approxM_bind {A B} (m1 m2 : M A) (k1 k2 : A → M B) :
  approxM m1 m2 → (∀ a, approxM (k1 a) (k2 a)) →
  approxM (bind m1 k1) (bind m2 k2).
Proof.
  intros Hm Hk st. unfold bind.
  destruct (Hm st) as [-> | ->]; [by left|].
  destruct (m2 st); [apply Hk | apply approx_refl | apply approx_refl].
Qed.

Lemma approxM_bottom {A} (m : M A) : approxM (fun _ => OutOfFuel) m.
Proof. intros st. by left. Qed.

Lemma comment_loop_mono n m inp chop val :
  n ≤ m → approx (comment_loop n inp chop val) (comment_loop m inp chop val).
Proof.
  revert m chop val. induction n as [|n IH]; intros m chop val Hle; [by left|].
  destruct m as [|m]; [lia|]. cbn [comment_loop].
  destruct (is_char (inp !! chop) LF); [apply approx_refl|].
  destruct (is_undefined (inp !! chop)); [apply approx_refl|].
  apply IH. lia.
Qed.

Lemma quoted_loop_mono n m inp i val :
  n ≤ m → approx (quoted_loop n inp i val) (quoted_loop m inp i val).
Proof.
  revert m i val. induction n as [|n IH]; intros m i val Hle; [by left|].
  destruct m as [|m]; [lia|]. cbn [quoted_loop]. cbv zeta.
  destruct (is_undefined (inp !! i)); [apply approx_refl|].
  repeat case_match; try apply approx_refl; apply IH; lia.
Qed.

Lemma classify_mono n m s : n ≤ m → approx (classify n s) (classify m s).
Proof.
  intros Hle. unfold classify.
  destruct (is_char (input s !! 0) LF); [apply approx_refl|].
  destruct (is_char (input s !! 0) HASH).
  { destruct (comment_loop_mono n m (input s) 1 [] Hle) as [-> | ->];
      [by left | apply approx_refl]. }
  destruct (is_char (input s !! 0) SPACE); [apply approx_refl|].
  destruct (is_char (input s !! 0) DQUOTE); [|apply approx_refl].
  destruct (quoted_loop_mono n m (input s) 0 [] Hle) as [-> | ->];
    [by left | apply approx_refl].
Qed.

Lemma tokenise_step_mono n m s :
  n ≤ m → approx (tokenise_step n s) (tokenise_step m s).
Proof.
  intros Hle. unfold tokenise_step.
  destruct (classify_mono n m s Hle) as [-> | ->]; [by left | apply approx_refl].
Qed.

Lemma Generator_next_mono n m g :
  n ≤ m → approx (Generator_next n g) (Generator_next m g).
Proof.
  revert m g. induction n as [|n IH]; intros m g Hle.
  - destruct m as [|m]; [apply approx_refl|]. simpl.
    destruct (pending g); [|apply approx_refl].
    destruct (finished g); [apply approx_refl | by left].
  - destruct m as [|m]; [lia|]. simpl.
    destruct (pending g); [|apply approx_refl].
    destruct (finished g); [apply approx_refl|].
    destruct (input (scanner g)); [apply approx_refl|].
    destruct (tokenise_step_mono n m (scanner g)) as [-> | ->]; [lia | by left |].
    destruct (tokenise_step m (scanner g)); [apply IH; lia | apply approx_refl..].
Qed.

Lemma next_mono n m : n ≤ m → approxM (next n) (next m).
Proof.
  revert m. induction n as [|n IH]; intros m Hle st; [by left|].
  destruct m as [|m]; [lia|]. simpl.
  destruct (Generator_next_mono n m (tokens (this st))) as [-> | ->];
    [lia | by left |].
  destruct (Generator_next m (tokens (this st))) as [[tk|] g | e g |];
    try apply approx_refl.
  case_bool_decide; [|apply approx_refl].
  apply approxM_bind; [apply approxM_refl | intros _; apply IH; lia].
Qed.

(** Goals [approxM m1 m2] where [m2] is [m1] with more fuel in the calls. *)
Ltac approx_step IH Hle :=
  first
    [ apply approxM_refl
    | apply approxM_bottom
    | apply IH; lia
    | apply next_mono; lia
    | apply approxM_bind; [|intros ?]
    | case_bool_decide
    | match goal with
      | |- approxM (if ?b then _ else _) (if ?b then _ else _) => destruct b
      | |- approxM (match ?x with _ => _ end) (match ?x with _ => _ end) =>
          destruct x
      end ].

Lemma more_keys_mono n m keys :
  n ≤ m → approxM (more_keys n keys) (more_keys m keys).
Proof.
  revert m keys. induction n as [|n IH]; intros m keys Hle;
    [apply approxM_bottom|].
  destruct m as [|m]; [lia|]. cbn [more_keys].
  repeat approx_step IH Hle.
Qed.

Lemma parse_loop_mono n m indent obj :
  n ≤ m → approxM (parse_loop n indent obj) (parse_loop m indent obj).
Proof.
  revert m indent obj. induction n as [|n IH]; intros m indent obj Hle;
    [apply approxM_bottom|].
  destruct m as [|m]; [lia|]. cbn [parse_loop].
  repeat first [ apply more_keys_mono; lia | approx_step IH Hle ].
Qed.

Lemma parse_mono n m str fileLoc :
  n ≤ m → approx (parse n str fileLoc) (parse m str fileLoc).
Proof.
  intros Hle. unfold parse, Parser_parse.
  apply approxM_bind; [by apply next_mono | intros _].
  apply approxM_bind; [apply approxM_refl | intros obj].
  apply approxM_bind; [by apply parse_loop_mono | intros _; apply approxM_refl].
Qed.

(** A result obtained with some fuel is the result with any other amount
    that suffices. *)
Lemma parse_fuel_irrelevant n m str fileLoc :
  parse n str fileLoc ≠ OutOfFuel → parse m str fileLoc ≠ OutOfFuel →
  parse n str fileLoc = parse m str fileLoc.
Proof.
  intros Hn Hm. destruct (Nat.le_ge_cases n m) as [Hle | Hle].
  - by destruct (parse_mono _ _ str fileLoc Hle).
  - by destruct (parse_mono _ _ str fileLoc Hle).
Qed.


End Fuel.

(** ** The invariant of the tree builder *)

Section Invariant.

Local Open Scope nat_scope.

Lemma comment_loop_throws n inp chop val e u :
  comment_loop n inp chop val = Throw e u → e = string_too_long.
Proof.
  revert chop val. induction n as [|n IH]; intros chop val; [done|].
  cbn [comment_loop]. repeat case_match; try done; [by intros [= <- _] | apply IH].
Qed.

Lemma quoted_loop_throws n inp i val e u :
  quoted_loop n inp i val = Throw e u → e = string_too_long.
Proof.
  revert i val. induction n as [|n IH]; intros i val; [done|].
  cbn [quoted_loop]. cbv zeta.
  repeat case_match; try done; try apply IH. by intros [= <- _].
Qed.

Lemma classify_throws n s e s' :
  classify n s = Throw e s' →
  e = TypeError (js "Invalid number of spaces") ∨ e = string_too_long.
Proof.
  unfold classify. intros H.
  destruct (is_char (input s !! 0) LF); [done|].
  destruct (is_char (input s !! 0) HASH).
  { destruct (comment_loop n (input s) 1 []) as [[chop val] u | e' u |] eqn:E;
      [done | | done].
    injection H as <- _. right. by eapply comment_loop_throws. }
  destruct (is_char (input s !! 0) SPACE).
  { repeat case_match; simplify_eq; by left. }
  destruct (is_char (input s !! 0) DQUOTE).
  { destruct (quoted_loop n (input s) 0 []) as [val u | e' u |] eqn:E;
      [by destruct (JSON_parse val) | | done].
    injection H as <- _. right. by eapply quoted_loop_throws. }
  repeat case_match; simplify_eq.
Qed.

Lemma Generator_next_ok n g :
  gen_ok g → finished g = false →
  match Generator_next n g with
  | Ret (Some tk) g' => gen_ok g' ∧ (finished g' = true → Token.type tk = EOF)
  | Ret None _ => False
  | Throw e g' =>
      e = TypeError (js "Invalid number of spaces") ∨ e = string_too_long
  | OutOfFuel => True
  end.
Proof.
  revert g. induction n as [|n IH]; intros g Hok Hfin; simpl.
  - destruct (pending g) eqn:Hp; [by rewrite Hfin|]. simpl.
    split; [intros ?; simpl in *; congruence | simpl; congruence].
  - destruct (pending g) eqn:Hp.
    + rewrite Hfin. destruct (input (scanner g)) eqn:Hin.
      * split; [done | done].
      * unfold tokenise_step.
        destruct (classify n (scanner g)) as [[chop toks] s1 | e s1 |] eqn:Hc;
          [| by eapply classify_throws | done].
        apply IH; [intros ?; simpl in *; congruence | done].
    + simpl. split; [intros ?; simpl in *; congruence | simpl; congruence].
Qed.

Lemma ok_bind {A B} label (m : M A) (k : A → M B) st :
  outcome_ok label (m st) →
  (∀ a st', m st = Ret a st' → state_ok st' → fileLoc (this st') = label →
            outcome_ok label (k a st')) →
  outcome_ok label (bind m k st).
Proof.
  intros Hm Hk. unfold bind. destruct (m st) as [a st' | e st' |]; simpl in *.
  - destruct Hm. by apply Hk.
  - done.
  - done.
Qed.

Lemma onComment_ok label tk st :
  state_ok st → fileLoc (this st) = label →
  outcome_ok label (onComment tk st).
Proof.
  intros Hok Hl. unfold onComment.
  destruct (Token.value tk); try (simpl; split_and!; done).
  destruct (version_match _); [destruct (_ <? _)%N|];
    simpl; split_and!; done.
Qed.

Lemma onComment_inv tk a st st' :
  onComment tk st = Ret a st' →
  tokens (this st') = tokens (this st) ∧ token (this st') = token (this st)
  ∧ fileLoc (this st') = fileLoc (this st) ∧ heap st' = heap st.
Proof.
  unfold onComment, push_comment, throw. intros H.
  repeat case_match; simplify_eq; done.
Qed.

Lemma next_ok label n st :
  gen_ok (tokens (this st)) → finished (tokens (this st)) = false →
  fileLoc (this st) = label →
  outcome_ok label (next n st).
Proof.
  revert st. induction n as [|n IH]; intros st Hg Hfin Hl; [done|]. simpl.
  pose proof (Generator_next_ok n _ Hg Hfin) as H.
  destruct (Generator_next n (tokens (this st))) as [[tk|] g | e g |];
    [ | done | destruct H; subst e; simpl; split_and!; done | done].
  destruct H as [Hg' Hfin']. case_bool_decide as Hty.
  - assert (finished g = false) as Hf.
    { destruct (finished g); [|done]. rewrite Hfin' in Hty; done. }
    apply ok_bind.
    + apply onComment_ok; [|done]. split; [done|]. simpl. congruence.
    + intros [] st' Hc Hok' Hl'. apply IH; [apply Hok' | | done].
      apply onComment_inv in Hc as (-> & _). done.
  - simpl. split; [|done]. split; [done|]. simpl. intros Hf. eauto.
Qed.

Lemma not_finished st tk :
  state_ok st → token (this st) = Some tk → Token.type tk ≠ EOF →
  finished (tokens (this st)) = false.
Proof.
  intros [_ H] Htk Hty. destruct (finished _); [|done].
  destruct H as (tk' & ? & ?); [done|]. congruence.
Qed.

Lemma next_ok' label n st tk :
  state_ok st → fileLoc (this st) = label →
  token (this st) = Some tk → Token.type tk ≠ EOF →
  outcome_ok label (next n st).
Proof.
  intros Hok Hl Htk Hty. apply next_ok; [apply Hok | | done].
  by eapply not_finished.
Qed.

Lemma current_inv a st st' :
  current st = Ret a st' → st' = st ∧ token (this st) = Some a.
Proof.
  unfold current, bind, get_token. destruct (token (this st)); [|done].
  intros [= -> ->]. done.
Qed.

Lemma current_ok label st :
  state_ok st → fileLoc (this st) = label → outcome_ok label (current st).
Proof.
  intros Hok Hl. unfold current, bind, get_token.
  destruct (token (this st)); simpl; split_and!; done.
Qed.

Lemma unexpected_ok {A} label msg st :
  msg ∈ grammar_messages → fileLoc (this st) = label →
  outcome_ok label (@unexpected A msg st).
Proof.
  intros Hmsg Hl. unfold unexpected. destruct (token (this st)) as [tk|] eqn:Htk.
  - simpl. split_and!; [done | done |]. intros m [= <-]. exists msg, tk.
    rewrite Hl. done.
  - simpl. split_and!; done.
Qed.

Lemma unexpected_inv {A} msg st (a : A) st' :
  unexpected msg st = Ret a st' → False.
Proof. unfold unexpected. by destruct (token (this st)). Qed.

Lemma invariant_ok label c msg st :
  state_ok st → fileLoc (this st) = label →
  outcome_ok label (invariant c msg st).
Proof. intros. destruct c; simpl; split_and!; done. Qed.

Lemma invariant_inv c msg a st st' :
  invariant c msg st = Ret a st' → st' = st.
Proof. destruct c; [|done]. by intros [= _ ->]. Qed.

Lemma next_inv_token n a st st' :
  next n st = Ret a st' → token (this st') = Some a.
Proof.
  revert st. induction n as [|n IH]; intros st; [done|]. simpl.
  destruct (Generator_next _ _) as [[tk|] g | |]; try done.
  case_bool_decide.
  - unfold bind. destruct (onComment tk _); try done. apply IH.
  - by intros [= <- <-].
Qed.

Lemma more_keys_ok label n keys st :
  state_ok st → fileLoc (this st) = label →
  outcome_ok label (more_keys n keys st).
Proof.
  revert keys st. induction n as [|n IH]; intros keys st Hok Hl; [done|].
  cbn [more_keys].
  apply ok_bind; [by apply current_ok|]. intros t st1 Hc _ _.
  apply current_inv in Hc as [-> Ht].
  case_bool_decide as Hty; [|done].
  apply ok_bind; [eapply next_ok'; [done..|congruence]|].
  intros t1 st1 Hn Hok1 Hl1. apply next_inv_token in Hn.
  apply ok_bind; [by apply current_ok|]. intros t2 st2 Hc _ _.
  apply current_inv in Hc as [-> Ht2].
  apply ok_bind.
  { case_bool_decide; [done|]. apply unexpected_ok; [|done].
    unfold grammar_messages. set_solver. }
  intros [] st2 Hs _ _. case_bool_decide as Hty2; [|by apply unexpected_inv in Hs].
  injection Hs as ->.
  apply ok_bind; [by apply invariant_ok|]. intros [] st3 Hi _ _.
  apply invariant_inv in Hi as ->.
  apply ok_bind; [eapply next_ok'; [done..|congruence]|].
  intros t3 st3 _ Hok3 Hl3. by apply IH.
Qed.

Lemma parse_loop_ok label n indent obj st :
  state_ok st → fileLoc (this st) = label →
  outcome_ok label (parse_loop n indent obj st).
Proof.
  revert indent obj st. induction n as [|n IH]; intros indent obj st Hok Hl;
    [done|].
  cbn [parse_loop].
  apply ok_bind; [by apply current_ok|]. intros t st1 Hc _ _.
  apply current_inv in Hc as [-> Ht].
  assert (∀ msg, msg ∈ grammar_messages →
                 outcome_ok label (@unexpected () msg st)) as Hun.
  { intros. by apply unexpected_ok. }
  destruct (Token.type t) eqn:Hty;
    try (apply Hun; unfold grammar_messages; set_solver).
  - (* a key *)
    apply ok_bind; [by apply invariant_ok|]. intros [] st1 Hi _ _.
    apply invariant_inv in Hi as ->.
    apply ok_bind; [eapply next_ok'; [done..|congruence]|].
    intros t1 st1 _ Hok1 Hl1.
    apply ok_bind; [by apply more_keys_ok|]. intros keys st2 _ Hok2 Hl2.
    apply ok_bind; [by apply current_ok|]. intros valToken st3 Hc _ _.
    apply current_inv in Hc as [-> Hv].
    case_bool_decide as Hcolon.
    + apply ok_bind; [eapply next_ok'; [done..|congruence]|].
      intros t3 st3 _ Hok3 Hl3.
      apply ok_bind; [done|]. intros val st4 [= <- <-] _ _.
      apply ok_bind; [by apply IH|]. intros [] st5 _ Hok5 Hl5.
      apply ok_bind; [done|]. intros [] st6 [= <-] Hok6 Hl6.
      apply ok_bind; [by apply current_ok|]. intros t6 st7 Hc _ _.
      apply current_inv in Hc as [-> _].
      destruct (_ && _); [done | by apply IH].
    + destruct (isValidPropValueToken valToken) eqn:Hvalid.
      * apply ok_bind; [done|]. intros [] st4 [= <-] Hok4 Hl4.
        apply ok_bind.
        { eapply (next_ok' _ _ _ valToken); [done..|].
          unfold isValidPropValueToken in Hvalid.
          intros E. rewrite E in Hvalid. done. }
        intros t5 st5 _ Hok5 Hl5. by apply IH.
      * apply unexpected_ok; [unfold grammar_messages; set_solver | done].
  - (* end of file *) done.
  - (* a newline *)
    apply ok_bind; [eapply next_ok'; [done..|congruence]|].
    intros nextToken st1 Hn Hok1 Hl1. apply next_inv_token in Hn.
    destruct (indent =? 0)%N; [by apply IH|].
    case_bool_decide as Hind; [|done]. simpl.
    case_bool_decide; [|done].
    apply ok_bind; [eapply next_ok'; [done..|congruence]|].
    intros t2 st2 _ Hok2 Hl2. by apply IH.
  - (* an indent *)
    case_bool_decide; [|done].
    apply ok_bind; [eapply next_ok'; [done..|congruence]|].
    intros t2 st2 _ Hok2 Hl2. by apply IH.
Qed.

End Invariant.

Lemma parse_ok fuel str fileLoc :
  outcome_ok (default (js "lockfile") fileLoc) (parse fuel str fileLoc).
Proof.
  unfold parse, Parser_parse.
  apply ok_bind; [by apply next_ok|]. intros t st1 _ Hok1 Hl1.
  apply ok_bind; [done|]. intros obj st2 [= <- <-] _ _.
  apply ok_bind; [by apply parse_loop_ok|]. intros [] st3 _ Hok3 Hl3. done.
Qed.

(** C8: every [SyntaxError] that [parse] raises is raised by the call itself
    and has the message [<message> <line>:<column> in <sourceLabel>], where
    the message is one of the three of the grammar, line and column are the
    position recorded in the current token, and the label is the one given to
    [parse], or "lockfile" when none is given. *)
Theorem C8_unexpected_token_message fuel str fileLoc m st :
  parse fuel str fileLoc = Throw (SyntaxError m) st →
  ∃ msg tk,
    msg ∈ [js "Expected string"; js "Invalid value type"; js "Unknown token"]
    ∧ token (this st) = Some tk
    ∧ m = msg ++ js " " ++ number_to_string (Token.line tk) ++ js ":"
          ++ number_to_string (Token.col tk) ++ js " in "
          ++ default (js "lockfile") fileLoc.
Proof.
  intros H. pose proof (parse_ok fuel str fileLoc) as Hok. rewrite H in Hok.
  destruct Hok as (_ & _ & Hm). by apply Hm.
Qed.

Lemma C8_unexpected_token_message_witness :
  ∃ st msg tk,
    parse 10 (js "@") (Some (js "yarn.lock"))
    = Throw (SyntaxError (js "Unknown token 1:0 in yarn.lock")) st
    ∧ msg ∈ [js "Expected string"; js "Invalid value type"; js "Unknown token"]
    ∧ token (this st) = Some tk
    ∧ js "Unknown token 1:0 in yarn.lock"
      = msg ++ js " " ++ number_to_string (Token.line tk) ++ js ":"
        ++ number_to_string (Token.col tk) ++ js " in " ++ js "yarn.lock".
Proof.
  eexists.
  assert (parse 10 (js "@") (Some (js "yarn.lock"))
          = Throw (SyntaxError (js "Unknown token 1:0 in yarn.lock")) _) as H
    by (vm_compute; reflexivity).
  destruct (C8_unexpected_token_message _ _ _ _ _ H) as (msg & tk & H1 & H2 & H3).
  exists msg, tk. exact (conj H (conj H1 (conj H2 H3))).
Defined.

(** C9: a pull on a token stream that has yielded its end-of-file token
    raises the error "No more tokens", and [parse] never raises it: the tree
    builder asks for no token after the end-of-file token. *)
Theorem C9_token_stream_never_exhausted :
  (∀ n st,
     finished (tokens (this st)) = true → pending (tokens (this st)) = [] →
     next (S n) st = Throw (PlainError (js "No more tokens")) st)
  ∧ (∀ fuel str fileLoc st,
       parse fuel str fileLoc ≠ Throw (PlainError (js "No more tokens")) st).
Proof.
  split.
  - intros n [[fl tk [p s f] cs] h]; simpl. intros -> ->.
    by destruct n.
  - intros fuel str fileLoc st H.
    pose proof (parse_ok fuel str fileLoc) as Hok. rewrite H in Hok.
    by destruct Hok as (_ & Hne & _).
Qed.

(** ** Running the tree builder on a fed token stream *)

Section Run.

Local Open Scope nat_scope.

Lemma conv_const {A} (m : M A) st r :
  m st = r → converges (fun _ => m) st r.
Proof. intros <-. by exists 0. Qed.

Lemma conv_S {S A} (f : nat → S → outcome S A) s r :
  converges (fun n => f (Datatypes.S n)) s r → converges f s r.
Proof.
  intros [n0 H]. exists (Datatypes.S n0). intros [|n] Hn; [lia|].
  apply H. lia.
Qed.

Lemma conv_unS {S A} (f : nat → S → outcome S A) s r :
  converges f s r → converges (fun n => f (Datatypes.S n)) s r.
Proof. intros [n0 H]. exists n0. intros n Hn. apply H. lia. Qed.

Lemma conv_bind {A B} (f : nat → M A) (k : nat → A → M B) st a st1 r :
  converges f st (Ret a st1) →
  converges (fun n => k n a) st1 r →
  converges (fun n => bind (f n) (k n)) st r.
Proof.
  intros [n1 H1] [n2 H2]. exists (n1 + n2). intros n Hn.
  unfold bind. rewrite H1 by lia. apply H2. lia.
Qed.

Lemma conv_bind_throw {A B} (f : nat → M A) (k : nat → A → M B) st e st1 :
  converges f st (Throw e st1) →
  converges (fun n => bind (f n) (k n)) st (Throw e st1).
Proof.
  intros [n1 H1]. exists n1. intros n Hn. unfold bind. by rewrite H1.
Qed.

Lemma conv_current st tk :
  token (this st) = Some tk → converges (fun _ => current) st (Ret tk st).
Proof.
  intros H. apply conv_const. unfold current, bind, get_token. by rewrite H.
Qed.

Lemma bind_current {B} (k : Token.t → M B) st tk :
  token (this st) = Some tk → bind current k st = k tk st.
Proof. intros H. unfold current, bind, get_token. by rewrite H. Qed.

Lemma conv_ext {S A} (f g : nat → S → outcome S A) s r :
  (∀ n, f n s = g n s) → converges g s r → converges f s r.
Proof. intros E [n0 H]. exists n0. intros n Hn. rewrite E. by apply H. Qed.

(** A pull at the token before [ev]. *)
Lemma At_next st type value ev evs :
  At st (Tok type value :: ev :: evs) →
  match ev with
  | Tok _ _ =>
      ∃ tk st', converges next st (Ret tk st')
                ∧ At st' (ev :: evs) ∧ heap st' = heap st
  | Raise e => ∃ st', converges next st (Throw e st')
  end.
Proof.
  intros [_ HF]. inversion HF as [| g ty v g' evs' Hb HF' | g e evs' Hb]; subst.
  - destruct (Hb st eq_refl) as (tk & st' & Hc & Hty & Hv & Htk & Hg & Hh & _).
    exists tk, st'. split; [done|]. split; [|done]. split; [eauto|].
    by rewrite Hg.
  - apply (Hb st eq_refl).
Qed.

Lemma At_current st type value evs :
  At st (Tok type value :: evs) →
  ∃ tk, token (this st) = Some tk ∧ Token.type tk = type
        ∧ Token.value tk = value.
Proof. by intros [H _]. Qed.

Lemma wf_key_truthy w : wf_key w = true → truthy (word_value w) = true.
Proof.
  unfold wf_key, truthy. intros H.
  apply andb_true_iff in H as [H _]. by apply andb_true_iff in H as [_ H].
Qed.

Lemma more_keys_spec aliases keys ty v R st :
  forallb wf_key aliases = true → ty ≠ COMMA →
  At st (alias_events aliases ++ Tok ty v :: R) →
  ∃ st', converges (fun n => more_keys n keys) st
           (Ret (keys ++ map word_value aliases) st')
         ∧ At st' (Tok ty v :: R) ∧ heap st' = heap st.
Proof.
  intros Hwf Hty. revert keys st Hwf.
  induction aliases as [|a aliases IH]; intros keys st Hwf HAt.
  - exists st. split; [|done]. simpl in HAt.
    destruct (At_current _ _ _ _ HAt) as (tk & Htk & Htyk & _).
    apply conv_S. cbn [more_keys].
    eapply conv_bind; [by apply conv_current|]. cbn beta.
    rewrite Htyk, bool_decide_eq_false_2 by done.
    rewrite app_nil_r. by apply conv_const.
  - simpl in Hwf. apply andb_true_iff in Hwf as [Ha Hwf].
    change (alias_events (a :: aliases) ++ Tok ty v :: R)
      with (Tok COMMA VUndefined :: Tok STRING (VStr (word_value a))
            :: (alias_events aliases ++ Tok ty v :: R)) in HAt.
    destruct (At_current _ _ _ _ HAt) as (tk & Htk & Htyk & _).
    destruct (At_next _ _ _ _ _ HAt) as (tk1 & st1 & Hn1 & HAt1 & Hh1).
    destruct (At_current _ _ _ _ HAt1) as (tk1' & Htk1 & Htyk1 & Hv1).
    assert (∃ ty' v' rest,
              alias_events aliases ++ Tok ty v :: R = Tok ty' v' :: rest)
      as (ty' & v' & rest & E).
    { destruct aliases; simpl; eauto. }
    rewrite E in HAt1.
    destruct (At_next _ _ _ _ _ HAt1) as (tk2 & st2 & Hn2 & HAt2 & Hh2).
    rewrite <- E in HAt2.
    destruct (IH (keys ++ [word_value a]) st2 Hwf HAt2) as (st' & Hc & HAt' & Hh').
    exists st'. split; [|split; [done | congruence]].
    apply conv_S. cbn [more_keys].
    eapply conv_bind; [by apply conv_current|]. cbn beta.
    rewrite Htyk, bool_decide_eq_true_2 by done.
    eapply conv_bind; [exact Hn1|].
    eapply conv_bind; [by apply conv_current|]. cbn beta.
    rewrite Htyk1, bool_decide_eq_true_2 by done.
    eapply conv_bind; [by apply conv_const|].
    rewrite Hv1. cbn [as_string]. rewrite wf_key_truthy by done.
    eapply conv_bind; [by apply conv_const|].
    eapply conv_bind; [exact Hn2|].
    rewrite <- app_assoc in Hc. exact Hc.
Qed.

Lemma entries_events_cons d e es :
  entries_events d (e :: es)
  = indent_events d ++ line_events d e ++ entries_events d es.
Proof.
  unfold entries_events. cbn [map concat].
  destruct e; cbn [entry_events line_events]; unfold entries_events;
    by rewrite <- !app_assoc.
Qed.

Lemma entries_size_cons e es :
  entries_size (e :: es) = entry_size e + entries_size es.
Proof. reflexivity. Qed.

Lemma entry_size_block key aliases children :
  entry_size (Block key aliases children) = S (entries_size children).
Proof. reflexivity. Qed.

Lemma entry_size_pos e : 0 < entry_size e.
Proof. destruct e; simpl; lia. Qed.

Lemma build_cons obj e es h :
  build obj (e :: es) h = build obj es (build_entry obj e h).
Proof. reflexivity. Qed.

Lemma closes_S d K : closes d K → closes (S d) K.
Proof.
  destruct K as [|[ty v|e] K]; simpl; [done| |done].
  destruct ty; try done. destruct v; try done. lia.
Qed.

Lemma line_events_head d e :
  ∃ v rest, line_events d e = Tok STRING v :: rest.
Proof. destruct e; simpl; eauto. Qed.

Lemma closes_rest d es K :
  closes d K → closes (S d) (entries_events d es ++ K).
Proof.
  intros Hcl. destruct es as [|e es]; [by apply closes_S|].
  rewrite entries_events_cons.
  destruct (line_events_head d e) as (v & rest & ->).
  destruct d; simpl; [done | lia].
Qed.

Lemma scalar_event_tok v :
  ∃ ty, scalar_event v = Tok ty (scalar_value v)
        ∧ ty ≠ COMMA ∧ ty ≠ COLON
        ∧ bool_decide (ty ∈ [BOOLEAN; STRING; NUMBER]) = true.
Proof. destruct v; simpl; eexists; split_and!; done. Qed.

Lemma alias_events_head aliases ty v R :
  ∃ ty' v' rest, alias_events aliases ++ Tok ty v :: R = Tok ty' v' :: rest.
Proof. destruct aliases; simpl; eauto. Qed.

Lemma ends_head_tok K ty v R h r :
  K = Tok ty v :: R → ends K h r → ∃ st', r = Ret () st' ∧ At st' K ∧ heap st' = h.
Proof. by intros ->. Qed.

Lemma rest_cases d es K :
  closes d K →
  (∃ ty v R', entries_events d es ++ K = Tok ty v :: R'
              ∧ (es ≠ [] → d ≠ 0 → ty = INDENT ∧ v = VNum (N.of_nat d)))
  ∨ (es = [] ∧ ∃ e K', K = Raise e :: K').
Proof.
  intros Hcl. destruct es as [|e es].
  - destruct K as [|[ty v|e] K']; [done | left | right; eauto].
    exists ty, v, K'. done.
  - left. rewrite entries_events_cons.
    destruct (line_events_head d e) as (v & rest & ->).
    destruct d; simpl; eexists _, _, _; (split; [reflexivity | done]).
Qed.

Section Step.

Variable n : nat.
Hypothesis IH : ∀ es, entries_size es < n → loop_reads es.

(** The loop started at the first key of the line of [e]. *)
Lemma line_reads e es d K obj st :
  entry_size e + entries_size es < S n →
  wf_entry e = true → forallb wf_entry es = true → closes d K →
  At st (line_events d e ++ entries_events d es ++ K) →
  ∃ r, converges (fun n => parse_loop n (N.of_nat d) obj) st r
       ∧ ends K (build obj (e :: es) (heap st)) r.
Proof.
  intros Hsize Hwf Hwfes Hcl HAt. rewrite build_cons.
  set (R := entries_events d es ++ K) in *.
  destruct e as [key aliases value | key aliases children]; simpl in Hwf;
    apply andb_true_iff in Hwf as [Hwf Hbody];
    apply andb_true_iff in Hwf as [Hkey Haliases].
  - (* a key and a value *)
    destruct (scalar_event_tok value) as (sty & Hsv & Hs1 & Hs2 & Hs3).
    assert (At st (Tok STRING (VStr (word_value key))
                   :: alias_events aliases
                      ++ Tok sty (scalar_value value)
                         :: Tok NEWLINE VUndefined :: R)) as HAt0.
    { unfold line_events, key_events in HAt. rewrite Hsv in HAt.
      simpl in HAt. by rewrite <- app_assoc in HAt. }
    clear HAt.
    destruct (At_current _ _ _ _ HAt0) as (tk & Htk & Hty & Hv).
    destruct (alias_events_head aliases sty (scalar_value value)
                (Tok NEWLINE VUndefined :: R)) as (ty' & v' & rest & E).
    rewrite E in HAt0.
    destruct (At_next _ _ _ _ _ HAt0) as (tk1 & st1 & Hn1 & HAt1 & Hh1).
    rewrite <- E in HAt1.
    destruct (more_keys_spec aliases [word_value key] _ _ _ _ Haliases Hs1 HAt1)
      as (st2 & Hmk & HAt2 & Hh2).
    destruct (At_current _ _ _ _ HAt2) as (tk2 & Htk2 & Hty2 & Hv2).
    set (st2' := mkState (this st2)
                   (alter (assign_keys (word_value key :: map word_value aliases)
                                       (scalar_value value)) obj (heap st2))).
    assert (∃ tk3 st3', converges next st2' (Ret tk3 st3')
                        ∧ At st3' (Tok NEWLINE VUndefined :: R)
                        ∧ heap st3' = heap st2')
      as (tk3' & st3' & Hn3' & HAt3' & Hh3').
    { apply (At_next st2' sty (scalar_value value) (Tok NEWLINE VUndefined) R).
      exact HAt2. }
    destruct (IH es) with (d := d) (K := K) (obj := obj) (st := st3')
      as (r & Hc & He); [simpl in Hsize; lia | done | done | by left |].
    exists r. split.
    + apply conv_S. cbn [parse_loop].
      eapply conv_bind; [by apply conv_current|]. cbn beta. rewrite Hty.
      cbv beta iota. rewrite Hv. cbn [as_string].
      rewrite wf_key_truthy by done.
      eapply conv_bind; [by apply conv_const|].
      eapply conv_bind; [exact Hn1|].
      eapply conv_bind; [exact Hmk|].
      eapply conv_bind; [by apply conv_current|]. cbn beta.
      rewrite Hty2, bool_decide_eq_false_2 by done.
      unfold isValidPropValueToken. rewrite Hty2, Hs3, Hv2.
      eapply conv_bind; [by apply conv_const|].
      eapply conv_bind; [exact Hn3'|].
      exact Hc.
    + rewrite Hh3' in He. simpl in He. rewrite Hh2, Hh1 in He. exact He.
  - (* a key and a nested block *)
    set (C := entries_events (S d) children ++ R).
    assert (At st (Tok STRING (VStr (word_value key))
                   :: alias_events aliases
                      ++ Tok COLON VUndefined :: Tok NEWLINE VUndefined :: C))
      as HAt0.
    { unfold line_events, key_events in HAt. simpl in HAt.
      by rewrite <- !app_assoc in HAt. }
    clear HAt.
    destruct (At_current _ _ _ _ HAt0) as (tk & Htk & Hty & Hv).
    destruct (alias_events_head aliases COLON VUndefined
                (Tok NEWLINE VUndefined :: C)) as (ty' & v' & rest & E).
    rewrite E in HAt0.
    destruct (At_next _ _ _ _ _ HAt0) as (tk1 & st1 & Hn1 & HAt1 & Hh1).
    rewrite <- E in HAt1.
    destruct (more_keys_spec aliases [word_value key] COLON _ _ _ Haliases
                ltac:(done) HAt1) as (st2 & Hmk & HAt2 & Hh2).
    destruct (At_current _ _ _ _ HAt2) as (tk2 & Htk2 & Hty2 & Hv2).
    destruct (At_next st2 COLON VUndefined (Tok NEWLINE VUndefined) C HAt2)
      as (tk3 & st3 & Hn3 & HAt3 & Hh3).
    set (val := length (heap st3)).
    set (st4 := mkState (this st3) (heap st3 ++ [∅])).
    destruct (IH children) with (d := S d) (K := R) (obj := val) (st := st4)
      as (r1 & Hc1 & He1);
      [ simpl in Hsize; unfold entries_size; lia | done
      | by apply closes_rest | by left | ].
    replace (N.of_nat (S d)) with (N.of_nat d + 1)%N in Hc1 by lia.
    (* the steps up to the nested call *)
    assert (∀ r,
      converges
        (fun n =>
           parse_loop n (N.of_nat d + 1)%N val ;;;
           set_keys obj (word_value key :: map word_value aliases) (VRef val) ;;;
           let* t := current in
           if negb (N.of_nat d =? 0)%N && negb (bool_decide (Token.type t = INDENT))
           then ret ()
           else parse_loop n (N.of_nat d) obj) st4 r →
      converges (fun n => parse_loop n (N.of_nat d) obj) st r) as Hprefix.
    { intros r Hr. apply conv_S. cbn [parse_loop].
      eapply conv_bind; [by apply conv_current|]. cbn beta. rewrite Hty.
      cbv beta iota. rewrite Hv. cbn [as_string].
      rewrite wf_key_truthy by done.
      eapply conv_bind; [by apply conv_const|].
      eapply conv_bind; [exact Hn1|].
      eapply conv_bind; [exact Hmk|].
      eapply conv_bind; [by apply conv_current|]. cbn beta.
      rewrite Hty2, bool_decide_eq_true_2 by done.
      eapply conv_bind; [exact Hn3|].
      eapply conv_bind; [by apply conv_const|].
      exact Hr. }
    destruct (rest_cases d es K Hcl) as [(ty & v & R' & ER & Hind) | (-> & e & K' & ->)].
    + (* the nested block ends at a token *)
      fold R in ER. rewrite ER in He1.
      destruct He1 as (st5 & -> & HAt5 & Hh5).
      set (st6 := mkState (this st5)
                    (alter (assign_keys (word_value key :: map word_value aliases)
                                        (VRef val)) obj (heap st5))).
      assert (heap st6 = build_entry obj (Block key aliases children) (heap st))
        as Hh6.
      { simpl. rewrite Hh5. unfold val, st4. simpl.
        rewrite Hh3, Hh2, Hh1. reflexivity. }
      destruct (At_current st6 _ _ _ HAt5) as (tk6 & Htk6 & Hty6 & Hv6).
      destruct (negb (N.of_nat d =? 0)%N && negb (bool_decide (ty = INDENT)))
        eqn:Hbreak.
      * (* the loop stops *)
        pose proof Hbreak as Hbreak'.
        apply andb_true_iff in Hbreak as [Hd Hni].
        apply negb_true_iff, N.eqb_neq in Hd.
        apply negb_true_iff, bool_decide_eq_false in Hni.
        assert (es = []) as -> .
        { destruct es; [done|]. destruct Hni. apply Hind; [done | lia]. }
        exists (Ret () st6). split.
        -- apply Hprefix.
           eapply conv_bind; [exact Hc1|].
           eapply conv_bind; [by apply conv_const|].
           eapply conv_bind; [by apply conv_current|]. cbn beta.
           rewrite Hty6, Hbreak'. by apply conv_const.
        -- assert (K = Tok ty v :: R') as -> by exact ER.
           exists st6. split; [done|]. split; [exact HAt5 | exact Hh6].
      * (* the loop goes on with the next entries *)
        destruct (IH es) with (d := d) (K := K) (obj := obj) (st := st6)
          as (r & Hc & He); [simpl in Hsize; lia | done | done | |].
        { right. split; [fold R; rewrite ER; exact HAt5|].
          apply andb_false_iff in Hbreak as [Hd | Hi].
          - left. apply negb_false_iff, N.eqb_eq in Hd. lia.
          - right. apply negb_false_iff, bool_decide_eq_true in Hi.
            fold R. rewrite ER, Hi. eauto. }
        exists r. split.
        -- apply Hprefix.
           eapply conv_bind; [exact Hc1|].
           eapply conv_bind; [by apply conv_const|].
           eapply conv_bind; [by apply conv_current|]. cbn beta.
           rewrite Hty6, Hbreak. exact Hc.
        -- by rewrite Hh6 in He.
    + (* the nested block ends at an exception *)
      simpl in R. subst R. simpl in He1. destruct He1 as (st5 & ->).
      exists (Throw e st5). split; [|simpl; eauto].
      apply Hprefix. by apply conv_bind_throw.
Qed.

(** The loop started at the first token of the entries. *)
Lemma loop_reads_first es d K obj st :
  entries_size es < S n →
  forallb wf_entry es = true → closes d K →
  At st (entries_events d es ++ K) →
  (d = 0 ∨ ∃ v rest, entries_events d es ++ K = Tok INDENT v :: rest) →
  ∃ r, converges (fun n => parse_loop n (N.of_nat d) obj) st r
       ∧ ends K (build obj es (heap st)) r.
Proof.
  intros Hsize Hwf Hcl HAt Hd. destruct es as [|e es].
  - simpl in HAt. destruct K as [|[ty v|e] K']; [done| |done].
    destruct (At_current _ _ _ _ HAt) as (tk & Htk & Hty & Hv).
    exists (Ret () st). split; [|by exists st].
    apply conv_S. cbn [parse_loop].
    eapply conv_bind; [by apply conv_current|]. cbn beta. rewrite Hty.
    destruct ty; simpl in Hcl;
      try (exfalso; destruct Hd as [-> | (? & ? & ?)]; done).
    + by apply conv_const.
    + cbv beta iota. rewrite Hv. destruct v; try done.
      rewrite bool_decide_eq_false_2; [by apply conv_const|].
      intros [= ->]. lia.
  - simpl in Hwf. apply andb_true_iff in Hwf as [Hwfe Hwfes].
    rewrite entries_events_cons, <- !app_assoc in HAt. destruct d as [|d].
    + simpl in HAt. by eapply line_reads.
    + destruct (line_events_head (S d) e) as (v & rest & E).
      assert (At st (Tok INDENT (VNum (N.of_nat (S d)))
                     :: Tok STRING v :: rest ++ entries_events (S d) es ++ K))
        as HAt0.
      { rewrite E in HAt. exact HAt. }
      destruct (At_current _ _ _ _ HAt0) as (tk & Htk & Hty & Hv).
      destruct (At_next _ _ _ _ _ HAt0) as (tk1 & st1 & Hn1 & HAt1 & Hh1).
      destruct (line_reads e es (S d) K obj st1) as (r & Hc & He); try done.
      { rewrite E. exact HAt1. }
      exists r. split; [|by rewrite Hh1 in He].
      apply conv_S. cbn [parse_loop].
      eapply conv_bind; [by apply conv_current|]. cbn beta. rewrite Hty.
      cbv beta iota. rewrite Hv, bool_decide_eq_true_2 by done.
      eapply conv_bind; [exact Hn1|]. exact Hc.
Qed.

Lemma loop_reads_step es : entries_size es < S n → loop_reads es.
Proof.
  intros Hsize d K obj st Hwf Hcl [HAt | [HAt Hd]];
    [|by eapply loop_reads_first].
  destruct (At_current _ _ _ _ HAt) as (tk & Htk & Hty & Hv).
  destruct (rest_cases d es K Hcl)
    as [(ty & v & R' & ER & Hind) | (-> & e & K' & ->)].
  - rewrite ER in HAt.
    destruct (At_next _ _ _ _ _ HAt) as (tk1 & st1 & Hn1 & HAt1 & Hh1).
    destruct (At_current _ _ _ _ HAt1) as (tk1' & Htk1 & Hty1 & Hv1).
    assert (token (this st1) = Some tk1) as Htk1'.
    { destruct Hn1 as [n0 Hn1]. eapply next_inv_token. by apply (Hn1 n0). }
    assert (tk1' = tk1) as -> by congruence. clear Htk1'.
    rewrite <- ER in HAt1.
    destruct (decide (d = 0 ∨ (ty = INDENT ∧ v = VNum (N.of_nat d))))
      as [Hgo | Hstop].
    + (* the loop goes on at the first token of the entries *)
      destruct (loop_reads_first es d K obj st1) as (r & Hc & He); try done.
      { destruct Hgo as [-> | [-> ->]]; [by left | right]. rewrite ER. eauto. }
      exists r. split; [|by rewrite Hh1 in He].
      apply conv_S. cbn [parse_loop].
      eapply conv_bind; [by apply conv_current|]. cbn beta. rewrite Hty.
      cbv beta iota.
      eapply conv_bind; [exact Hn1|]. cbn beta.
      destruct Hgo as [-> | [-> ->]]; [exact Hc|].
      destruct (N.of_nat d =? 0)%N eqn:Hd0; [exact Hc|].
      rewrite Hty1, Hv1, !bool_decide_eq_true_2 by done. cbn [negb].
      apply conv_unS in Hc. revert Hc. apply conv_ext. intros k.
      cbn [parse_loop]. rewrite (bind_current _ _ _ Htk1), Hty1.
      cbv beta iota. by rewrite Hv1, bool_decide_eq_true_2.
    + (* the block ends *)
      assert (d ≠ 0) as Hd by tauto.
      assert (es = []) as ->.
      { destruct es; [done|]. destruct Hstop. right. by apply Hind. }
      assert (K = Tok ty v :: R') as -> by exact ER.
      exists (Ret () st1). split; [|by exists st1].
      apply conv_S. cbn [parse_loop].
      eapply conv_bind; [by apply conv_current|]. cbn beta. rewrite Hty.
      cbv beta iota.
      eapply conv_bind; [exact Hn1|]. cbn beta.
      destruct (N.of_nat d =? 0)%N eqn:Hd0; [apply N.eqb_eq in Hd0; lia|].
      rewrite Hty1, Hv1.
      case_bool_decide as Hi; [|by apply conv_const]. cbn [negb].
      case_bool_decide as Hveq; [tauto | by apply conv_const].
  - simpl in HAt.
    destruct (At_next _ _ _ _ _ HAt) as (st' & Hn).
    exists (Throw e st'). split; [|simpl; eauto].
    apply conv_S. cbn [parse_loop].
    eapply conv_bind; [by apply conv_current|]. cbn beta. rewrite Hty.
    cbv beta iota. by apply conv_bind_throw.
Qed.

End Step.

Lemma parse_loop_reads es : loop_reads es.
Proof.
  assert (∀ n es, entries_size es < n → loop_reads es) as H.
  { induction n as [|n IH]; intros es' Hs; [lia|].
    by apply (loop_reads_step n IH). }
  apply (H (S (entries_size es))). lia.
Qed.

End Run.

(** ** The scanner on the lexemes of a well-formed text *)

(** Comparisons of characters. *)
Ltac chars :=
  unfold is_char, is_digit, is_name_start, is_delimiter, plain_char,
    LF, HASH, SPACE, DQUOTE, COLON_CHAR, COMMA_CHAR, BACKSLASH, BOM in *;
  repeat match goal with
    | H : _ && _ = true |- _ => apply andb_true_iff in H as [? ?]
    | H : _ || _ = false |- _ => apply orb_false_iff in H as [? ?]
    | H : negb _ = true |- _ => apply negb_true_iff in H
    | H : negb _ = false |- _ => apply negb_false_iff in H
    | H : (_ =? _)%N = true |- _ => apply N.eqb_eq in H
    | H : (_ =? _)%N = false |- _ => apply N.eqb_neq in H
    | H : (_ <=? _)%N = true |- _ => apply N.leb_le in H
    | H : (_ <=? _)%N = false |- _ => apply N.leb_gt in H
    | H : _ || _ = true |- _ => apply orb_true_iff in H as [?|?]
    | H : _ && _ = false |- _ => apply andb_false_iff in H as [?|?]
    end;
  repeat match goal with
    | |- context [(?a =? ?b)%N] => destruct (N.eqb_spec a b)
    | |- context [(?a <=? ?b)%N] => destruct (N.leb_spec a b)
    end;
  simpl; try done; try lia.

Section Scan.

Local Open Scope nat_scope.

Lemma step_newline n rest ln l c :
  tokenise_step n (mkScanner (LF :: rest) ln l c)
  = Ret [Token.mk (l + 1)%N 0%N NEWLINE VUndefined]
        (mkScanner rest true (l + 1)%N 1%N).
Proof. reflexivity. Qed.

Lemma step_space n rest l c :
  tokenise_step n (mkScanner (SPACE :: rest) false l c)
  = Ret [] (mkScanner rest false l (c + 1)%N).
Proof. reflexivity. Qed.

Lemma step_colon n rest ln l c :
  tokenise_step n (mkScanner (COLON_CHAR :: rest) ln l c)
  = Ret [Token.mk l c COLON VUndefined] (mkScanner rest false l (c + 1)%N).
Proof. reflexivity. Qed.

Lemma step_comma n rest ln l c :
  tokenise_step n (mkScanner (COMMA_CHAR :: rest) ln l c)
  = Ret [Token.mk l c COMMA VUndefined] (mkScanner rest false l (c + 1)%N).
Proof. reflexivity. Qed.

Lemma step_true n rest ln l c :
  tokenise_step n (mkScanner (js "true" ++ rest) ln l c)
  = Ret [Token.mk l c BOOLEAN (VBool true)] (mkScanner rest false l (c + 4)%N).
Proof. reflexivity. Qed.

Lemma step_false n rest ln l c :
  tokenise_step n (mkScanner (js "false" ++ rest) ln l c)
  = Ret [Token.mk l c BOOLEAN (VBool false)] (mkScanner rest false l (c + 5)%N).
Proof. reflexivity. Qed.

Lemma name_loop_app w rest :
  forallb (fun c => negb (is_delimiter c)) w = true → at_delimiter rest →
  name_loop (w ++ rest) = w.
Proof.
  intros Hw Hrest. induction w as [|x w IH]; cbn [app name_loop forallb] in *.
  - destruct rest as [|d rest]; [done|]. cbn [at_delimiter name_loop] in *.
    unfold is_delimiter in Hrest. by rewrite Hrest.
  - apply andb_true_iff in Hw as [Hx Hw]. apply negb_true_iff in Hx.
    unfold is_delimiter in Hx. rewrite Hx. f_equal. by apply IH.
Qed.

Lemma starts_with_app p w rest :
  forallb (fun c => negb (is_delimiter c)) p = true → at_delimiter rest →
  starts_with p (w ++ rest) = starts_with p w.
Proof.
  intros Hp Hrest. revert p Hp.
  induction w as [|x w IH]; intros p Hp; cbn [app].
  - destruct p as [|c p]; [done|]. destruct rest as [|d rest]; [done|].
    cbn [starts_with forallb at_delimiter] in *.
    apply andb_true_iff in Hp as [Hc _].
    destruct (N.eqb_spec c d) as [->|]; [|done].
    by rewrite Hrest in Hc.
  - destruct p as [|c p]; [done|]. cbn [starts_with forallb] in *.
    apply andb_true_iff in Hp as [_ Hp]. by rewrite IH.
Qed.

Lemma step_bare n w rest ln l c :
  wf_bare w = true → at_delimiter rest →
  tokenise_step n (mkScanner (w ++ rest) ln l c)
  = Ret [Token.mk l c STRING (VStr w)]
        (mkScanner rest false l (c + N.of_nat (length w))%N).
Proof.
  intros Hwf Hrest. unfold wf_bare in Hwf.
  apply andb_true_iff in Hwf as [Hwf Hfalse].
  apply andb_true_iff in Hwf as [Hwf Htrue].
  apply andb_true_iff in Hwf as [Hstart Hchars].
  apply negb_true_iff in Htrue, Hfalse.
  destruct w as [|x w]; [done|].
  unfold tokenise_step, classify. cbn [input].
  rewrite (starts_with_app (js "true")), Htrue by done.
  rewrite (starts_with_app (js "false")), Hfalse by done.
  rewrite name_loop_app by done.
  change (((x :: w) ++ rest) !! 0) with (Some x).
  assert (is_char (Some x) LF = false) as -> by chars.
  assert (is_char (Some x) HASH = false) as -> by chars.
  assert (is_char (Some x) SPACE = false) as -> by chars.
  assert (is_char (Some x) DQUOTE = false) as -> by chars.
  assert (is_digit x = false) as -> by chars.
  assert (is_char (Some x) COLON_CHAR = false) as -> by chars.
  assert (is_char (Some x) COMMA_CHAR = false) as -> by chars.
  rewrite Hstart, drop_app_length. reflexivity.
Qed.

Lemma json_string_body_plain s acc :
  forallb plain_char s = true →
  json_string_body (s ++ [DQUOTE]) acc = Some (acc ++ s).
Proof.
  revert acc. induction s as [|x s IH]; intros acc Hs; simpl.
  - by rewrite app_nil_r.
  - simpl in Hs. apply andb_true_iff in Hs as [Hx Hs].
    assert ((x =? DQUOTE)%N = false) as -> by chars.
    assert ((x =? BACKSLASH)%N = false) as -> by chars.
    assert ((x <? 32)%N = false) as ->.
    { apply N.ltb_ge. chars. }
    rewrite IH by done. by rewrite <- app_assoc.
Qed.

Lemma JSON_parse_quoted s :
  forallb plain_char s = true → JSON_parse (quoted s) = Some s.
Proof. intros Hs. simpl. by rewrite json_string_body_plain. Qed.

Lemma quote_after_cons a s :
  quote_after_two_backslashes s = true →
  quote_after_two_backslashes (a :: s) = true.
Proof.
  destruct s as [|b [|c s]]; [done..|]. intros H.
  change (quote_after_two_backslashes (a :: b :: c :: s))
    with (((a =? BACKSLASH)%N && (b =? BACKSLASH)%N && (c =? DQUOTE)%N)
          || quote_after_two_backslashes (b :: c :: s)).
  rewrite H. apply orb_true_r.
Qed.

Lemma quote_after_middle x y :
  quote_after_two_backslashes (x ++ BACKSLASH :: BACKSLASH :: DQUOTE :: y)
  = true.
Proof.
  induction x as [|a x IH]; [reflexivity|]. by apply quote_after_cons.
Qed.

Lemma plain_no_quote_after s :
  forallb plain_char s = true → quote_after_two_backslashes s = false.
Proof.
  induction s as [|a [|b [|c s]] IH]; [done..|]. intros H.
  change (quote_after_two_backslashes (a :: b :: c :: s))
    with (((a =? BACKSLASH)%N && (b =? BACKSLASH)%N && (c =? DQUOTE)%N)
          || quote_after_two_backslashes (b :: c :: s)).
  cbn [forallb] in H. apply andb_true_iff in H as [Ha H].
  rewrite IH by done.
  assert ((a =? BACKSLASH)%N = false) as -> by chars. done.
Qed.

(** A text of plain characters is well formed between double quotes, and
    stands for itself. *)
Lemma wf_quoted_plain s :
  forallb plain_char s = true →
  wf_quoted s = true ∧ word_value (Quoted s) = s.
Proof.
  intros Hs. unfold wf_quoted, word_value.
  rewrite JSON_parse_quoted by done.
  by rewrite plain_no_quote_after.
Qed.

Lemma char_before_reverse pre s k :
  char_before (reverse pre ++ s) (length pre) (S k) = pre !! k.
Proof.
  unfold char_before. destruct (Nat.leb_spec (S k) (length pre)) as [Hle | Hgt].
  - rewrite lookup_app_l by (rewrite length_reverse; lia).
    rewrite reverse_lookup by lia. f_equal. lia.
  - symmetry. apply lookup_ge_None_2. lia.
Qed.

(** A turn of the loop of the quoted literal, at a character of the text. *)
Lemma quoted_loop_turn n pre c s :
  pre ≠ [] →
  quoted_loop (S n) (reverse pre ++ c :: s) (length pre) (reverse pre)
  = if (c =? DQUOTE)%N
       && negb (is_char (pre !! 0) BACKSLASH
                && negb (is_char (pre !! 1) BACKSLASH))
    then Ret (reverse pre ++ [c]) ()
    else quoted_loop n (reverse (c :: pre) ++ s) (length (c :: pre))
                     (reverse (c :: pre)).
Proof.
  intros Hpre. cbn [quoted_loop]. cbv zeta.
  assert ((reverse pre ++ c :: s) !! length pre = Some c) as Hc.
  { rewrite <- (length_reverse pre). by apply list_lookup_middle. }
  rewrite Hc. cbn [is_undefined is_char append_char].
  rewrite !char_before_reverse.
  assert ((0 <? length pre) = true) as ->.
  { apply Nat.ltb_lt. destruct pre; [done | simpl; lia]. }
  cbn [andb length]. rewrite reverse_cons, <- app_assoc. cbn [app].
  destruct (c =? DQUOTE)%N; cbn [andb]; [|done].
  by destruct (is_char (pre !! 0) BACKSLASH
               && negb (is_char (pre !! 1) BACKSLASH)).
Qed.

(** The loop of the quoted literal captures what [capture] says, and runs
    past the end of the text when no double quote closes the literal. *)
Lemma quoted_loop_captured s : ∀ n pre v,
  pre ≠ [] → capture pre s = Some v → length v ≤ n →
  quoted_loop n (reverse pre ++ s) (length pre) (reverse pre)
  = Ret (reverse pre ++ v) ().
Proof.
  induction s as [|c s IH]; intros n pre v Hpre Hcap Hn; [done|].
  cbn [capture] in Hcap.
  destruct n as [|n].
  { destruct v; [|simpl in Hn; lia].
    destruct (_ && _); [done|]. by destruct (capture (c :: pre) s). }
  rewrite quoted_loop_turn by done.
  destruct ((c =? DQUOTE)%N
            && negb (is_char (pre !! 0) BACKSLASH
                     && negb (is_char (pre !! 1) BACKSLASH))).
  - by injection Hcap as <-.
  - destruct (capture (c :: pre) s) as [v'|] eqn:E; [|done].
    injection Hcap as <-. rewrite (IH n (c :: pre) v') by (done || simpl in Hn; lia).
    by rewrite reverse_cons, <- app_assoc.
Qed.

Lemma quoted_loop_overrun s : ∀ n pre,
  pre ≠ [] → capture pre s = None → length s < n →
  quoted_loop n (reverse pre ++ s) (length pre) (reverse pre)
  = Throw string_too_long ().
Proof.
  induction s as [|c s IH]; intros n pre Hpre Hcap Hn;
    (destruct n as [|n]; [simpl in Hn; lia|]).
  - cbn [quoted_loop]. cbv zeta.
    rewrite app_nil_r, lookup_ge_None_2 by (rewrite length_reverse; lia).
    reflexivity.
  - cbn [capture] in Hcap. rewrite quoted_loop_turn by done.
    destruct ((c =? DQUOTE)%N
              && negb (is_char (pre !! 0) BACKSLASH
                       && negb (is_char (pre !! 1) BACKSLASH))); [done|].
    destruct (capture (c :: pre) s) as [v'|] eqn:E; [done|].
    apply IH; [done | done | simpl in Hn; lia].
Qed.

Lemma quoted_loop_start n inp :
  inp !! 0 = Some DQUOTE →
  quoted_loop (S n) inp 0 [] = quoted_loop n inp 1 [DQUOTE].
Proof. intros H. cbn [quoted_loop]. rewrite H. reflexivity. Qed.

Lemma quoted_loop_closed n s v :
  capture [DQUOTE] s = Some v → length v < n →
  quoted_loop n (DQUOTE :: s) 0 [] = Ret (DQUOTE :: v) ().
Proof.
  intros Hcap Hn. destruct n as [|n]; [lia|].
  rewrite quoted_loop_start by done.
  apply (quoted_loop_captured s n [DQUOTE] v); [done | done | lia].
Qed.

Lemma quoted_loop_open n s :
  capture [DQUOTE] s = None → length s + 1 < n →
  quoted_loop n (DQUOTE :: s) 0 [] = Throw string_too_long ().
Proof.
  intros Hcap Hn. destruct n as [|n]; [lia|].
  rewrite quoted_loop_start by done.
  apply (quoted_loop_overrun s n [DQUOTE]); [done | done | lia].
Qed.

Lemma hex_not_quote h a : hex_value h = Some a → (h =? DQUOTE)%N = false.
Proof.
  intros H. destruct (N.eqb_spec h DQUOTE) as [-> | _]; [done | reflexivity].
Qed.

Lemma hex_not_backslash h a :
  hex_value h = Some a → is_char (Some h) BACKSLASH = false.
Proof.
  intros H. cbn [is_char].
  destruct (N.eqb_spec h BACKSLASH) as [-> | _]; [done | reflexivity].
Qed.

Lemma escape_not_backslash_after c e :
  (c =? BACKSLASH)%N = true →
  is_char (Some e) BACKSLASH && negb (is_char (Some c) BACKSLASH) = false.
Proof. intros H. cbn [is_char]. rewrite H. apply andb_false_r. Qed.

Lemma capture_skip pre x t :
  (x =? DQUOTE)%N = false →
  capture pre (x :: t) = cons x <$> capture (x :: pre) t.
Proof. intros H. cbn [capture]. by rewrite H. Qed.

Lemma capture_skips xs : ∀ pre t,
  forallb (fun x => negb (x =? DQUOTE)%N) xs = true →
  capture pre (xs ++ t) = app xs <$> capture (reverse xs ++ pre) t.
Proof.
  induction xs as [|x xs IH]; intros pre t H.
  - cbn. by destruct (capture pre t).
  - cbn [forallb] in H. apply andb_true_iff in H as [Hx H].
    apply negb_true_iff in Hx. cbn [app].
    rewrite capture_skip, IH by done.
    rewrite reverse_cons, <- app_assoc. cbn [app].
    by destruct (capture (reverse xs ++ x :: pre) t).
Qed.

(** Of a well-formed text between double quotes, the scanner captures the
    whole. *)
Lemma capture_body n : ∀ s pre acc v rest,
  length s < n →
  json_string_body (s ++ [DQUOTE]) acc = Some v →
  is_char (pre !! 0) BACKSLASH && negb (is_char (pre !! 1) BACKSLASH) = false →
  quote_after_two_backslashes (reverse pre ++ s) = false →
  capture pre (s ++ DQUOTE :: rest) = Some (s ++ [DQUOTE]).
Proof.
  induction n as [|n IH]; intros s pre acc v rest Hn Hj Hb Hq; [lia|].
  destruct s as [|c s].
  { cbn [app capture]. rewrite N.eqb_refl, Hb. reflexivity. }
  assert (∀ piece t acc',
    c :: s = piece ++ t → piece ≠ [] →
    (∀ T, capture pre (piece ++ T)
          = app piece <$> capture (reverse piece ++ pre) T) →
    is_char ((reverse piece ++ pre) !! 0) BACKSLASH
    && negb (is_char ((reverse piece ++ pre) !! 1) BACKSLASH) = false →
    json_string_body (t ++ [DQUOTE]) acc' = Some v →
    capture pre ((c :: s) ++ DQUOTE :: rest) = Some ((c :: s) ++ [DQUOTE]))
    as Hpiece.
  { intros piece t acc' E Hne Hcap Hb' Hj'. rewrite E, <- !app_assoc, Hcap.
    rewrite (IH t (reverse piece ++ pre) acc' v rest); [done | | done | done |].
    - apply (f_equal length) in E. rewrite length_app in E. simpl in E.
      destruct piece; [done|]. simpl in *. lia.
    - rewrite reverse_app, reverse_involutive, <- app_assoc, <- E. exact Hq. }
  cbn [app json_string_body] in Hj.
  destruct (c =? DQUOTE)%N eqn:HcQ.
  { rewrite forallb_app in Hj. cbn in Hj. by rewrite andb_false_r in Hj. }
  destruct (c =? BACKSLASH)%N eqn:HcB.
  - apply N.eqb_eq in HcB. subst c.
    destruct s as [|e s]; [by cbn in Hj|]. cbn [app] in Hj.
    destruct (e =? 117)%N eqn:Hu.
    + (* a code unit in hexadecimal *)
      apply N.eqb_eq in Hu. subst e.
      destruct s as [|h1 [|h2 [|h3 [|h4 s]]]];
        try (cbn in Hj; repeat case_match; done).
      cbn [app] in Hj.
      destruct (hex_value h1) as [a1|] eqn:H1; [|done].
      destruct (hex_value h2) as [a2|] eqn:H2; [|done].
      destruct (hex_value h3) as [a3|] eqn:H3; [|done].
      destruct (hex_value h4) as [a4|] eqn:H4; [|done].
      eapply (Hpiece [BACKSLASH; 117%N; h1; h2; h3; h4] s);
        [done | done | | | exact Hj].
      * intros T. apply capture_skips. cbn [forallb].
        by rewrite (hex_not_quote _ _ H1), (hex_not_quote _ _ H2),
          (hex_not_quote _ _ H3), (hex_not_quote _ _ H4).
      * unfold reverse. cbn [rev_append app lookup list_lookup].
        by rewrite (hex_not_backslash _ _ H4).
    + destruct (json_escape e) as [d|] eqn:He; [|done].
      eapply (Hpiece [BACKSLASH; e] s); [done | done | | | exact Hj].
      * intros T. cbn [app]. rewrite capture_skip by done. cbn [capture].
        assert ((e =? DQUOTE)%N
                && negb (is_char ((BACKSLASH :: pre) !! 0) BACKSLASH
                         && negb (is_char ((BACKSLASH :: pre) !! 1) BACKSLASH))
                = false) as ->.
        { destruct (N.eqb_spec e DQUOTE) as [-> | _]; [|done].
          cbn [lookup list_lookup is_char andb]. rewrite N.eqb_refl. cbn [andb].
          destruct pre as [|p pre]; [done|].
          change ((p :: pre) !! 0) with (Some p). cbn [is_char].
          destruct (N.eqb_spec p BACKSLASH) as [-> | _]; [|done].
          rewrite reverse_cons, <- app_assoc in Hq. cbn [app] in Hq.
          by rewrite quote_after_middle in Hq. }
        change (reverse [BACKSLASH; e] ++ pre) with (e :: BACKSLASH :: pre).
        by destruct (capture (e :: BACKSLASH :: pre) T).
      * unfold reverse. cbn [rev_append app lookup list_lookup is_char].
        rewrite N.eqb_refl. apply andb_false_r.
  - destruct (c <? 32)%N eqn:Hlow; [done|].
    eapply (Hpiece [c] s); [done | done | | | exact Hj].
    + intros T. apply capture_skips. cbn [forallb]. by rewrite HcQ.
    + unfold reverse. cbn [rev_append app lookup list_lookup is_char].
      by rewrite HcB.
Qed.

Lemma capture_literal s rest :
  wf_quoted s = true →
  capture [DQUOTE] (s ++ DQUOTE :: rest) = Some (s ++ [DQUOTE]).
Proof.
  unfold wf_quoted. intros H.
  destruct (JSON_parse (quoted s)) as [v|] eqn:Hj; [|done].
  apply negb_true_iff in H.
  apply (capture_body (S (length s)) s [DQUOTE] [] v rest); [lia | | done |].
  - unfold JSON_parse, quoted in Hj. cbn [app] in Hj.
    by rewrite N.eqb_refl in Hj.
  - cbn [reverse]. change (reverse [DQUOTE]) with [DQUOTE].
    destruct s as [|a [|b s]]; [done..|]. exact H.
Qed.

Lemma classify_quoted n inp ln l c :
  inp !! 0 = Some DQUOTE →
  classify n (mkScanner inp ln l c)
  = let s := mkScanner inp ln l c in
    match quoted_loop n inp 0 [] with
    | Ret val _ =>
        match JSON_parse val with
        | Some str => Ret (length val, [buildToken s STRING (VStr str)]) s
        | None => Ret (length val, [buildToken s INVALID VUndefined]) s
        end
    | Throw e _ => Throw e s
    | OutOfFuel => OutOfFuel
    end.
Proof. intros H. unfold classify. cbn [input]. rewrite H. reflexivity. Qed.

Lemma step_quoted n s rest ln l c :
  wf_quoted s = true → length s + 1 < n →
  tokenise_step n (mkScanner (quoted s ++ rest) ln l c)
  = Ret [Token.mk l c STRING (VStr (word_value (Quoted s)))]
        (mkScanner rest false l (c + N.of_nat (length s + 2))%N).
Proof.
  intros Hs Hn.
  assert (length (quoted s) = length s + 2) as Hlen.
  { unfold quoted. rewrite !length_app. simpl. lia. }
  assert (quoted s ++ rest = DQUOTE :: s ++ DQUOTE :: rest) as E.
  { unfold quoted. cbn [app]. by rewrite <- app_assoc. }
  assert (quoted_loop n (quoted s ++ rest) 0 [] = Ret (quoted s) ()) as Hq.
  { rewrite E.
    rewrite (quoted_loop_closed n _ (s ++ [DQUOTE]));
      [done | by apply capture_literal | rewrite length_app; simpl; lia]. }
  unfold wf_quoted in Hs. unfold word_value.
  destruct (JSON_parse (quoted s)) as [v|] eqn:Hj; [|done].
  unfold tokenise_step.
  rewrite classify_quoted by done. cbv zeta.
  rewrite Hq, Hj. cbn [input default].
  rewrite drop_app_length, Hlen.
  replace (length s + 2 =? 0) with false by (symmetry; apply Nat.eqb_neq; lia).
  reflexivity.
Qed.

Lemma digits_loop_app ds rest :
  forallb is_digit ds = true →
  match rest with d :: _ => is_digit d = false | [] => True end →
  digits_loop (ds ++ rest) = ds.
Proof.
  intros Hds Hrest. induction ds as [|x ds IH]; cbn [app digits_loop forallb] in *.
  - destruct rest as [|d rest]; [done|]. cbn [digits_loop]. by rewrite Hrest.
  - apply andb_true_iff in Hds as [-> Hds]. f_equal. by apply IH.
Qed.

Lemma step_number n ds rest ln l c :
  ds ≠ [] → forallb is_digit ds = true →
  match rest with d :: _ => is_digit d = false | [] => True end →
  tokenise_step n (mkScanner (ds ++ rest) ln l c)
  = Ret [Token.mk l c NUMBER (VNum (to_number ds))]
        (mkScanner rest false l (c + N.of_nat (length ds))%N).
Proof.
  intros Hne Hds Hrest. destruct ds as [|x ds]; [done|].
  unfold tokenise_step, classify. cbn [input].
  rewrite digits_loop_app by done.
  change (((x :: ds) ++ rest) !! 0) with (Some x).
  cbn [forallb] in Hds. apply andb_true_iff in Hds as [Hx Hds].
  assert (is_char (Some x) LF = false) as -> by chars.
  assert (is_char (Some x) HASH = false) as -> by chars.
  assert (is_char (Some x) SPACE = false) as -> by chars.
  assert (is_char (Some x) DQUOTE = false) as -> by chars.
  rewrite Hx, drop_app_length. reflexivity.
Qed.

Lemma indent_loop_spaces k rest :
  starts_otherwise SPACE rest → indent_loop (spaces k ++ rest) = spaces k.
Proof.
  intros Hrest. induction k as [|k IH]; cbn [spaces replicate app indent_loop].
  - destruct rest as [|d rest]; [done|]. cbn [indent_loop starts_otherwise] in *.
    destruct (N.eqb_spec d SPACE); done.
  - rewrite N.eqb_refl. f_equal. exact IH.
Qed.

Lemma classify_indent n inp l c :
  inp !! 0 = Some SPACE →
  classify n (mkScanner inp true l c)
  = let s := mkScanner inp true l c in
    let indent := indent_loop inp in
    if length indent mod 2 =? 0
    then Ret (length indent,
              [buildToken s INDENT (VNum (N.of_nat (length indent / 2)))]) s
    else Throw (TypeError (js "Invalid number of spaces")) s.
Proof. intros H. unfold classify. cbn [input]. rewrite H. reflexivity. Qed.

Lemma spaces_head k rest : (spaces (S k) ++ rest) !! 0 = Some SPACE.
Proof. reflexivity. Qed.

Lemma step_indent n d rest l c :
  starts_otherwise SPACE rest →
  tokenise_step n (mkScanner (spaces (2 * S d) ++ rest) true l c)
  = Ret [Token.mk l c INDENT (VNum (N.of_nat (S d)))]
        (mkScanner rest false l (c + N.of_nat (2 * S d))%N).
Proof.
  intros Hrest. unfold tokenise_step.
  assert ((spaces (2 * S d) ++ rest) !! 0 = Some SPACE) as H0.
  { replace (2 * S d) with (S (S (2 * d))) by lia. apply spaces_head. }
  rewrite classify_indent by done. cbv zeta.
  rewrite indent_loop_spaces by done.
  assert (length (spaces (2 * S d)) = 2 * S d) as Hlen
    by apply length_replicate.
  rewrite Hlen.
  replace ((2 * S d) mod 2 =? 0) with true
    by (symmetry; apply Nat.eqb_eq; rewrite Nat.mul_comm; apply Nat.Div0.mod_mul).
  replace ((2 * S d) / 2) with (S d)
    by (rewrite Nat.mul_comm, Nat.div_mul; lia).
  cbn [input]. rewrite H0.
  replace (drop (2 * S d) (spaces (2 * S d) ++ rest)) with rest
    by (by rewrite <- Hlen at 1; rewrite drop_app_length).
  replace (2 * S d =? 0) with false by (symmetry; apply Nat.eqb_neq; lia).
  reflexivity.
Qed.

Lemma step_odd_indent n k rest l c :
  starts_otherwise SPACE rest →
  tokenise_step n (mkScanner (spaces (2 * k + 1) ++ rest) true l c)
  = Throw (TypeError (js "Invalid number of spaces"))
          (mkScanner (spaces (2 * k + 1) ++ rest) true l c).
Proof.
  intros Hrest. unfold tokenise_step.
  assert ((spaces (2 * k + 1) ++ rest) !! 0 = Some SPACE) as H0.
  { replace (2 * k + 1) with (S (2 * k)) by lia. apply spaces_head. }
  rewrite classify_indent by done. cbv zeta.
  rewrite indent_loop_spaces by done.
  assert (length (spaces (2 * k + 1)) = 2 * k + 1) as ->
    by apply length_replicate.
  replace ((2 * k + 1) mod 2 =? 0) with false; [done|].
  symmetry. apply Nat.eqb_neq.
  rewrite Nat.add_comm, Nat.mul_comm, Nat.Div0.mod_add. done.
Qed.

(** *** From the turns of the scanner to the calls of [next] *)

Lemma Generator_next_step n s toks s' :
  input s ≠ [] → tokenise_step n s = Ret toks s' →
  Generator_next (S n) (scanning s)
  = Generator_next n (mkGenerator toks s' false).
Proof.
  intros Hin Hstep. cbn [Generator_next scanning pending finished scanner].
  destruct (input s); [done|]. by rewrite Hstep.
Qed.

Lemma next_S n st :
  next (S n) st
  = match Generator_next n (tokens (this st)) with
    | Ret item g =>
        let st := set_tokens g st in
        match item with
        | None => Throw (PlainError (js "No more tokens")) st
        | Some value =>
            if bool_decide (Token.type value = COMMENT)
            then (onComment value ;;; next n) st
            else (set_token value ;;; ret value) st
        end
    | Throw e g => Throw e (set_tokens g st)
    | OutOfFuel => OutOfFuel
    end.
Proof. reflexivity. Qed.

Lemma set_tokens_twice g g' st :
  set_tokens g (set_tokens g' st) = set_tokens g st.
Proof. reflexivity. Qed.

Lemma brings_tok n0 s tk s' :
  input s ≠ [] → Token.type tk ≠ COMMENT →
  (∀ n, n0 ≤ n → tokenise_step n s = Ret [tk] s') →
  next_brings (scanning s) (Tok (Token.type tk) (Token.value tk)) (scanning s').
Proof.
  intros Hin Hty Hstep st Hst.
  exists tk, (mkState (mkParser (fileLoc (this st)) (Some tk) (scanning s')
                                (comments (this st))) (heap st)).
  split; [|done].
  exists (S (S n0)). intros [|[|n]] Hn; [lia..|].
  cbn [next]. rewrite Hst, (Generator_next_step _ _ [tk] s') by (done || apply Hstep; lia).
  destruct n; cbn [Generator_next pending];
    by rewrite bool_decide_eq_false_2 by done.
Qed.

Lemma brings_raise n0 s e s1 g :
  input s ≠ [] →
  (∀ n, n0 ≤ n → tokenise_step n s = Throw e s1) →
  next_brings (scanning s) (Raise e) g.
Proof.
  intros Hin Hstep st Hst.
  exists (set_tokens (mkGenerator [] s1 true) st).
  exists (S (S n0)). intros [|[|n]] Hn; [lia..|].
  cbn [next]. rewrite Hst. cbn [Generator_next scanning pending finished scanner].
  destruct (input s); [done|]. by rewrite Hstep by lia.
Qed.

Lemma brings_eof s :
  input s = [] →
  next_brings (scanning s) (Tok EOF VUndefined) (mkGenerator [] s true).
Proof.
  intros Hin st Hst.
  exists (buildToken s EOF VUndefined),
    (mkState (mkParser (fileLoc (this st)) (Some (buildToken s EOF VUndefined))
                       (mkGenerator [] s true) (comments (this st))) (heap st)).
  split; [|done].
  exists 2. intros [|[|n]] Hn; [lia..|].
  cbn [next]. rewrite Hst. cbn [Generator_next scanning pending finished scanner].
  by rewrite Hin.
Qed.

Lemma next_skip n0 s s' st :
  input s ≠ [] → tokens (this st) = scanning s →
  (∀ n, n0 ≤ n → tokenise_step n s = Ret [] s') →
  ∀ r, converges next (set_tokens (scanning s') st) r → r ≠ OutOfFuel →
       converges next st r.
Proof.
  intros Hin Hst Hstep r [n1 Hr] Hne.
  exists (S (S (n0 + n1))). intros [|[|n]] Hn; [lia..|].
  specialize (Hr (S n) ltac:(lia)).
  assert (approx (next (S n) (set_tokens (scanning s') st)) (next (S (S n)) st))
    as [E | E]; [|congruence|congruence].
  rewrite (next_S (S n) st), (next_S n).
  rewrite Hst, (Generator_next_step _ _ [] s') by (done || apply Hstep; lia).
  change (tokens (this (set_tokens (scanning s') st))) with (scanning s').
  change (mkGenerator [] s' false) with (scanning s').
  destruct (Generator_next n (scanning s')) as [[tk|] g | e g |];
    cbv zeta; rewrite ?set_tokens_twice; try apply approx_refl.
  case_bool_decide; [|apply approx_refl].
  apply approxM_bind; [apply approxM_refl | intros _; apply next_mono; lia].
Qed.

Lemma brings_skip n0 s s' ev g :
  input s ≠ [] →
  (∀ n, n0 ≤ n → tokenise_step n s = Ret [] s') →
  next_brings (scanning s') ev g → next_brings (scanning s) ev g.
Proof.
  intros Hin Hstep Hb st Hst.
  specialize (Hb (set_tokens (scanning s') st) eq_refl).
  destruct ev as [ty v | e].
  - destruct Hb as (tk & st' & Hc & ?). exists tk, st'. split; [|done].
    by eapply next_skip.
  - destruct Hb as (st' & Hc). exists st'. by eapply next_skip.
Qed.

Lemma Feeds_skip n0 s s' evs :
  input s ≠ [] →
  (∀ n, n0 ≤ n → tokenise_step n s = Ret [] s') →
  Feeds (scanning s') evs → Feeds (scanning s) evs.
Proof.
  intros Hin Hstep HF.
  inversion HF as [| g ty v g' evs' Hb HF' | g e evs' Hb]; subst.
  - constructor.
  - econstructor; [|exact HF']. by eapply brings_skip.
  - constructor. eapply brings_skip; [done..|].
    intros st Hst. apply (Hb st Hst).
Qed.

(** *** The token stream of a rendered text *)

Lemma Scans_tok ln inp ty v ln' rest evs n0 :
  inp ≠ [] → ty ≠ COMMENT →
  (∀ l c, ∃ tk l' c',
     Token.type tk = ty ∧ Token.value tk = v
     ∧ ∀ n, n0 ≤ n →
         tokenise_step n (mkScanner inp ln l c)
         = Ret [tk] (mkScanner rest ln' l' c')) →
  Scans ln' rest evs → Scans ln inp (Tok ty v :: evs).
Proof.
  intros Hin Hty Hstep HS l c.
  destruct (Hstep l c) as (tk & l' & c' & <- & <- & Hs).
  econstructor; [|apply HS]. by eapply brings_tok.
Qed.

Lemma Scans_newline ln rest evs :
  Scans true rest evs → Scans ln (LF :: rest) (Tok NEWLINE VUndefined :: evs).
Proof.
  apply (Scans_tok _ _ _ _ _ _ _ 0); [done..|]. intros l c.
  eexists _, _, _. split_and!; [| |intros n _; apply step_newline]; done.
Qed.

Lemma Scans_colon ln rest evs :
  Scans false rest evs →
  Scans ln (COLON_CHAR :: rest) (Tok COLON VUndefined :: evs).
Proof.
  apply (Scans_tok _ _ _ _ _ _ _ 0); [done..|]. intros l c.
  eexists _, _, _. split_and!; [| |intros n _; apply step_colon]; done.
Qed.

Lemma Scans_comma ln rest evs :
  Scans false rest evs →
  Scans ln (COMMA_CHAR :: rest) (Tok COMMA VUndefined :: evs).
Proof.
  apply (Scans_tok _ _ _ _ _ _ _ 0); [done..|]. intros l c.
  eexists _, _, _. split_and!; [| |intros n _; apply step_comma]; done.
Qed.

Lemma Scans_space rest evs :
  Scans false rest evs → Scans false (SPACE :: rest) evs.
Proof.
  intros HS l c. eapply (Feeds_skip 0); [done | | apply HS].
  intros n _. apply step_space.
Qed.

Lemma Scans_indent d rest evs :
  starts_otherwise SPACE rest → Scans false rest evs →
  Scans true (spaces (2 * S d) ++ rest)
        (Tok INDENT (VNum (N.of_nat (S d))) :: evs).
Proof.
  intros Hrest. apply (Scans_tok _ _ _ _ _ _ _ 0); [|done|].
  { by replace (2 * S d) with (S (S (2 * d))) by lia. }
  intros l c. eexists _, _, _.
  split_and!; [| |intros n _; by apply step_indent]; done.
Qed.

Lemma Scans_odd_indent k rest evs :
  starts_otherwise SPACE rest →
  Scans true (spaces (2 * k + 1) ++ rest)
        (Raise (TypeError (js "Invalid number of spaces")) :: evs).
Proof.
  intros Hrest l c. constructor. eapply (brings_raise 0).
  - by replace (2 * k + 1) with (S (2 * k)) by lia.
  - intros n _. by apply step_odd_indent.
Qed.

Lemma Scans_eof ln : Scans ln [] [Tok EOF VUndefined].
Proof.
  intros l c. econstructor; [by apply brings_eof | constructor].
Qed.

Lemma render_word_nonempty w rest :
  wf_word w = true → (w = Bare [] → False) → render_word w ++ rest ≠ [].
Proof. destruct w as [[|x w]|s]; done. Qed.

Lemma wf_bare_nonempty w : wf_bare w = true → w ≠ [].
Proof. by destruct w. Qed.

Lemma Scans_word w ln rest evs :
  wf_word w = true →
  match w with Bare _ => at_delimiter rest | Quoted _ => True end →
  Scans false rest evs →
  Scans ln (render_word w ++ rest) (Tok STRING (VStr (word_value w)) :: evs).
Proof.
  intros Hwf Hrest. destruct w as [w | s]; cbn [render_word word_value wf_word] in *.
  - apply (Scans_tok _ _ _ _ _ _ _ 0); [|done|].
    { apply wf_bare_nonempty in Hwf. by destruct w. }
    intros l c. eexists _, _, _.
    split_and!; [| |intros n _; by apply step_bare]; done.
  - apply (Scans_tok _ _ _ _ _ _ _ (length s + 2)); [done..|].
    intros l c. eexists _, _, _.
    split_and!; [| |intros n Hn; apply step_quoted; [done | lia]]; done.
Qed.

Lemma Scans_scalar v ln rest evs :
  wf_scalar v = true → Scans false (LF :: rest) evs →
  Scans ln (render_scalar v ++ LF :: rest) (scalar_event v :: evs).
Proof.
  intros Hwf. destruct v as [w | ds | [|]]; cbn [render_scalar scalar_event wf_scalar] in *.
  - apply Scans_word; [done|]. by destruct w.
  - apply andb_true_iff in Hwf as [Hne Hds].
    apply negb_true_iff, bool_decide_eq_false in Hne.
    apply (Scans_tok _ _ _ _ _ _ _ 0); [by destruct ds | done |].
    intros l c. eexists _, _, _.
    split_and!; [| |intros n _; by apply step_number]; done.
  - apply (Scans_tok _ _ _ _ _ _ _ 0); [done..|].
    intros l c. eexists _, _, _.
    split_and!; [| |intros n _; apply step_true]; done.
  - apply (Scans_tok _ _ _ _ _ _ _ 0); [done..|].
    intros l c. eexists _, _, _.
    split_and!; [| |intros n _; apply step_false]; done.
Qed.

Lemma wf_key_word w : wf_key w = true → wf_word w = true.
Proof.
  unfold wf_key. intros H. apply andb_true_iff in H as [H _].
  by apply andb_true_iff in H as [H _].
Qed.

Lemma Scans_aliases aliases rest evs :
  forallb wf_key aliases = true → at_delimiter rest →
  Scans false rest evs →
  Scans false
    (concat (map (fun a => [COMMA_CHAR; SPACE] ++ render_word a) aliases) ++ rest)
    (alias_events aliases ++ evs).
Proof.
  intros Hwf Hrest HS. induction aliases as [|a aliases IH]; [done|].
  cbn [forallb] in Hwf. apply andb_true_iff in Hwf as [Ha Hwf].
  cbn [map concat alias_events app]. rewrite <- !app_assoc. cbn [app].
  apply Scans_comma, Scans_space, Scans_word; [by apply wf_key_word | | by apply IH].
  destruct a; [|done]. by destruct aliases.
Qed.

Lemma Scans_keys key aliases ln rest evs :
  wf_key key = true → forallb wf_key aliases = true → at_delimiter rest →
  Scans false rest evs →
  Scans ln (render_keys key aliases ++ rest) (key_events key aliases ++ evs).
Proof.
  intros Hkey Hwf Hrest HS. unfold render_keys, key_events.
  rewrite <- app_assoc. cbn [app].
  apply Scans_word; [by apply wf_key_word | | by apply Scans_aliases].
  destruct key; [|done]. by destruct aliases.
Qed.

Lemma render_keys_starts key aliases rest :
  wf_key key = true →
  starts_otherwise SPACE (render_keys key aliases ++ rest).
Proof.
  intros Hkey. apply wf_key_word in Hkey. unfold render_keys.
  destruct key as [[|x w]|s]; [done| |done].
  cbn [render_word app starts_otherwise]. cbn [wf_word] in Hkey.
  unfold wf_bare in Hkey. chars.
Qed.

Lemma Scans_entries es :
  ∀ d ln tail K,
    forallb wf_entry es = true →
    (d = 0 ∨ ln = true) → (es ≠ [] ∨ ln = true) →
    Scans true tail K →
    Scans ln (render_entries d es ++ tail) (entries_events d es ++ K).
Proof.
  assert (∀ n es, entries_size es < n →
    ∀ d ln tail K,
      forallb wf_entry es = true →
      (d = 0 ∨ ln = true) → (es ≠ [] ∨ ln = true) →
      Scans true tail K →
      Scans ln (render_entries d es ++ tail) (entries_events d es ++ K)) as H.
  2: { intros. by eapply (H (S (entries_size es))); [lia|..]. }
  clear es. induction n as [|n IH]; intros es Hsize d ln tail K Hwf Hd Hln HS;
    [lia|].
  destruct es as [|e es].
  { destruct Hln as [? | ->]; [done | exact HS]. }
  cbn [forallb] in Hwf. apply andb_true_iff in Hwf as [Hwfe Hwfes].
  assert (Scans true (render_entries d es ++ tail) (entries_events d es ++ K))
    as Hrest.
  { rewrite entries_size_cons in Hsize. pose proof (entry_size_pos e).
    apply IH; [lia | done | by destruct Hd; [left | right] | by right | done]. }
  rewrite entries_events_cons, <- !app_assoc.
  unfold render_entries. cbn [map concat]. fold (render_entries d es).
  rewrite <- app_assoc.
  set (T := render_entries d es ++ tail) in *.
  set (K' := entries_events d es ++ K) in *.
  assert (∀ ln' body evs,
    at_delimiter body → Scans false body evs →
    (d = 0 ∨ ln' = true) →
    ∀ key aliases, wf_key key = true → forallb wf_key aliases = true →
    Scans ln' (spaces (2 * d) ++ render_keys key aliases ++ body)
          (indent_events d ++ key_events key aliases ++ evs)) as Hline.
  { intros ln' body evs Hbody Hb Hd' key aliases Hkey Haliases.
    destruct d as [|d].
    - cbn [spaces replicate Nat.mul app indent_events].
      by apply Scans_keys.
    - destruct Hd' as [? | ->]; [done|]. cbn [indent_events app].
      apply Scans_indent; [by apply render_keys_starts|].
      by apply Scans_keys. }
  destruct e as [key aliases value | key aliases children];
    cbn [wf_entry] in Hwfe;
    apply andb_true_iff in Hwfe as [Hwfe Hbody];
    apply andb_true_iff in Hwfe as [Hkey Haliases];
    cbn [render_entry line_events]; rewrite <- !app_assoc.
  - apply Hline; [done| |done..].
    cbn [app]. apply Scans_space.
    apply (Scans_scalar value false T); [done|].
    by apply Scans_newline.
  - apply Hline; [done| |done..].
    cbn [app]. apply Scans_colon, Scans_newline.
    fold (render_entries (S d) children).
    rewrite entries_size_cons, entry_size_block in Hsize.
    apply IH; [lia | done | by right | by right | done].
Qed.

End Scan.

(** ** The heap that a text stands for *)

Section Build.

Local Open Scope nat_scope.

Lemma dom_obj_set (key : list N) (val : jsval) (o : gmap (list N) jsval) :
  key ≠ js "__proto__" →
  dom (obj_set key val o) =@{gset (list N)} dom o ∪ {[key]}.
Proof.
  intros Hk. unfold obj_set. rewrite bool_decide_eq_false_2 by done.
  rewrite dom_insert_L. set_solver.
Qed.

Lemma dom_assign_keys (keys : list (list N)) (val : jsval)
  (o : gmap (list N) jsval) :
  Forall (fun k => k ≠ js "__proto__") keys →
  dom (assign_keys keys val o) =@{gset (list N)} dom o ∪ list_to_set keys.
Proof.
  unfold assign_keys. revert o.
  induction keys as [|k keys IH]; intros o Hks; simpl.
  - set_solver.
  - inversion Hks as [|? ? Hk Hks']; subst.
    rewrite IH, dom_obj_set by done. set_solver.
Qed.

Lemma lookup_assign_keys (keys : list (list N)) (val : jsval)
  (o : gmap (list N) jsval) (k : list N) :
  Forall (fun k => k ≠ js "__proto__") keys → k ∈ keys →
  assign_keys keys val o !! k = Some val.
Proof.
  unfold assign_keys. revert o.
  induction keys as [|k' keys IH] using rev_ind; intros o Hks Hk.
  - by apply elem_of_nil in Hk.
  - apply Forall_app in Hks as [Hks Hk'].
    inversion Hk' as [|? ? Hk'' _]; subst.
    rewrite foldl_app. simpl. unfold obj_set at 1.
    rewrite bool_decide_eq_false_2 by done.
    destruct (decide (k = k')) as [->|Hne].
    + by rewrite lookup_insert_eq.
    + rewrite lookup_insert_ne by done. apply IH; [done|].
      apply elem_of_app in Hk as [Hk | Hk]; [done|].
      apply list_elem_of_singleton in Hk. done.
Qed.

Lemma build_frame_all es : build_frame es.
Proof.
  assert (∀ n es, entries_size es < n → build_frame es) as H.
  2: { apply (H (S (entries_size es))). lia. }
  clear es. induction n as [|n IH]; intros es Hsize; [lia|].
  destruct es as [|e es]; [by intros obj h|].
  rewrite entries_size_cons in Hsize. pose proof (entry_size_pos e).
  intros obj h. rewrite build_cons.
  assert (length h ≤ length (build_entry obj e h)
          ∧ ∀ l, l < length h → l ≠ obj → build_entry obj e h !! l = h !! l)
    as [Hlen Hfr].
  { destruct e as [key aliases value | key aliases children]; cbn [build_entry].
    - rewrite length_alter. split; [done|]. intros l _ Hl.
      by rewrite list_lookup_alter_ne.
    - rewrite entry_size_block in Hsize.
      destruct (IH children ltac:(lia) (length h) (h ++ [∅])) as [Hlen Hfr].
      fold (build (length h) children (h ++ [∅])).
      rewrite length_alter. rewrite length_app in Hlen. simpl in Hlen.
      split; [lia|]. intros l Hl Hne.
      rewrite list_lookup_alter_ne by done.
      rewrite Hfr by (rewrite ?length_app; simpl; lia).
      by rewrite lookup_app_l. }
  destruct (IH es ltac:(lia) obj (build_entry obj e h)) as [Hlen' Hfr'].
  split; [lia|]. intros l Hl Hne. rewrite Hfr' by (done || lia). by apply Hfr.
Qed.

Lemma wf_key_not_proto w : wf_key w = true → word_value w ≠ js "__proto__".
Proof.
  unfold wf_key. intros H. apply andb_true_iff in H as [_ H].
  by apply negb_true_iff, bool_decide_eq_false in H.
Qed.

Lemma wf_entry_keys e :
  wf_entry e = true → Forall (fun k => k ≠ js "__proto__") (entry_keys e).
Proof.
  intros Hwf.
  assert (∃ key aliases, entry_keys e = word_value key :: map word_value aliases
            ∧ wf_key key = true ∧ forallb wf_key aliases = true)
    as (key & aliases & -> & Hkey & Haliases).
  { destruct e as [key aliases v | key aliases ch]; cbn [wf_entry] in Hwf;
      apply andb_true_iff in Hwf as [Hwf _];
      apply andb_true_iff in Hwf as [? ?]; by exists key, aliases. }
  constructor; [by apply wf_key_not_proto|].
  apply Forall_map, Forall_forall. intros a Ha.
  apply wf_key_not_proto. by apply (proj1 (forallb_forall _ _) Haliases).
Qed.

(** The object that a block is built on gets the keys of its entries. *)
Lemma build_entry_obj obj e h o :
  wf_entry e = true → h !! obj = Some o →
  ∃ val, build_entry obj e h !! obj
         = Some (assign_keys (entry_keys e) val o).
Proof.
  intros Hwf Ho. pose proof (lookup_lt_Some _ _ _ Ho) as Hlt.
  destruct e as [key aliases value | key aliases children]; cbn [build_entry].
  - eexists. by rewrite list_lookup_alter_eq, Ho.
  - eexists. fold (build (length h) children (h ++ [∅])).
    rewrite list_lookup_alter_eq.
    destruct (build_frame_all children (length h) (h ++ [∅])) as [_ Hfr].
    rewrite Hfr by (rewrite ?length_app; simpl; lia).
    by rewrite lookup_app_l, Ho.
Qed.

Lemma build_dom es obj h o :
  forallb wf_entry es = true → h !! obj = Some o →
  ∃ o', build obj es h !! obj = Some o'
        ∧ dom o' =@{gset (list N)} dom o ∪ list_to_set (specifiers es).
Proof.
  revert h o. induction es as [|e es IH]; intros h o Hwf Ho.
  - exists o. split; [done|]. unfold specifiers. simpl. set_solver.
  - cbn [forallb] in Hwf. apply andb_true_iff in Hwf as [Hwfe Hwfes].
    destruct (build_entry_obj obj e h o Hwfe Ho) as (val & Ho1).
    destruct (IH _ _ Hwfes Ho1) as (o' & Ho' & Hdom).
    exists o'. rewrite build_cons. split; [done|].
    rewrite Hdom, dom_assign_keys by (by apply wf_entry_keys).
    unfold specifiers. cbn [map concat]. rewrite list_to_set_app_L. set_solver.
Qed.

End Build.

(** ** [parse] on a rendered text *)

Section Rendered.

Local Open Scope nat_scope.

Lemma stripBOM_render doc tail :
  forallb wf_entry doc = true →
  (doc = [] → starts_otherwise BOM tail) →
  stripBOM (render doc ++ tail) = render doc ++ tail.
Proof.
  intros Hwf Htail. destruct doc as [|e doc].
  - specialize (Htail eq_refl). destruct tail as [|c tail]; [done|].
    simpl in *. by destruct (N.eqb_spec c BOM).
  - cbn [forallb] in Hwf. apply andb_true_iff in Hwf as [Hwfe _].
    assert (∃ key aliases body,
              render (e :: doc) ++ tail = render_keys key aliases ++ body
              ∧ wf_key key = true) as (key & aliases & body & -> & Hkey).
    { unfold render, render_entries. cbn [map concat].
      destruct e as [key aliases v | key aliases ch]; cbn [wf_entry] in Hwfe;
        apply andb_true_iff in Hwfe as [Hwfe _];
        apply andb_true_iff in Hwfe as [Hkey _];
        exists key, aliases; eexists; (split; [|done]);
        cbn [render_entry spaces replicate Nat.mul app];
        rewrite <- !app_assoc; reflexivity. }
    apply wf_key_word in Hkey. unfold render_keys.
    destruct key as [[|x w]|s]; [done| |done].
    cbn [render_word app stripBOM]. cbn [wf_word] in Hkey.
    unfold wf_bare in Hkey.
    assert ((x =? BOM)%N = false) as -> by chars. done.
Qed.

Lemma parse_rendered doc tail K fileLoc :
  forallb wf_entry doc = true →
  Scans true tail K → (doc = [] → Scans false tail K) → closes 0 K →
  (doc = [] → starts_otherwise BOM tail) →
  ∃ r, parses (render doc ++ tail) fileLoc r
       ∧ match K with
         | Tok _ _ :: _ =>
             ∃ st, r = Ret 0 st ∧ heap st = build 0 doc [∅] ∧ At st K
         | Raise e :: _ => ∃ st, r = Throw e st
         | [] => False
         end.
Proof.
  intros Hwf HS HS0 Hcl Hbom.
  set (text := render doc ++ tail).
  set (st0 := new_Parser text (default (js "lockfile") fileLoc)).
  assert (∀ r, converges (fun n => next n ;;; Parser_parse n 0%N) st0 r →
               parses text fileLoc r) as Hparses.
  { intros r [n0 Hr]. exists n0. intros n Hn. unfold parse.
    unfold text at 1. rewrite stripBOM_render by done. by apply Hr. }
  assert (Feeds (tokens (this st0)) (entries_events 0 doc ++ K)) as HF.
  { destruct doc as [|e doc]; [by apply HS0|].
    apply (Scans_entries (e :: doc) 0 false tail K); auto. }
  destruct (rest_cases 0 doc K Hcl)
    as [(ty & v & R' & ER & _) | (-> & e & K' & ->)].
  - rewrite ER in HF.
    inversion HF as [| g ty' v' g' evs' Hb HF' | ]; subst.
    destruct (Hb st0 eq_refl) as (tk & st1 & Hn & Hty & Hv & Htk & Hg & Hh & _).
    set (st2 := mkState (this st1) (heap st1 ++ [∅])).
    assert (At st2 (entries_events 0 doc ++ K)) as HAt.
    { rewrite ER. split; [eauto|]. simpl. by rewrite Hg. }
    destruct (parse_loop_reads doc 0 K 0 st2 Hwf Hcl) as (r & Hc & He).
    { right. split; [done | by left]. }
    assert (heap st2 = [∅]) as Hh2 by (simpl; by rewrite Hh).
    rewrite Hh2 in He.
    assert (∀ r', converges (fun n => parse_loop n 0%N 0 ;;; ret 0) st2 r' →
                  converges (fun n => next n ;;; Parser_parse n 0%N) st0 r')
      as Hprefix.
    { intros r' Hr'. eapply conv_bind; [exact Hn|]. unfold Parser_parse.
      eapply conv_bind; [by apply conv_const|].
      assert (length (heap st1) = 0) as -> by (by rewrite Hh).
      exact Hr'. }
    destruct K as [|[kty kv|e] K']; [done| |].
    + destruct He as (st3 & -> & HAt3 & Hh3).
      exists (Ret 0 st3). split; [|eauto].
      apply Hparses, Hprefix.
      eapply conv_bind; [exact Hc|]. by apply conv_const.
    + destruct He as (st3 & ->).
      exists (Throw e st3). split; [|eauto].
      apply Hparses, Hprefix. by apply conv_bind_throw.
  - simpl in HF.
    inversion HF as [| | g e' evs' Hb]; subst.
    destruct (Hb st0 eq_refl) as (st1 & Hn).
    exists (Throw e st1). split; [|eauto].
    apply Hparses. by apply conv_bind_throw.
Qed.

End Rendered.




(** ** Failures that come before others *)

Section Stable.

Local Open Scope nat_scope.

(** A result of [parse] is its result with any fuel that suffices. *)
Lemma parse_stable n str fileLoc r :
  parse n str fileLoc = r → r ≠ OutOfFuel →
  ∀ m, parse m str fileLoc = r ∨ parse m str fileLoc = OutOfFuel.
Proof.
  intros H Hr m. destruct (Nat.le_ge_cases n m) as [Hle | Hle].
  - destruct (parse_mono _ _ str fileLoc Hle) as [E | E]; [congruence|].
    left. congruence.
  - destruct (parse_mono _ _ str fileLoc Hle) as [E | E]; [by right|].
    left. congruence.
Qed.

Lemma parse_returns_never_fails n str fileLoc root st :
  parse n str fileLoc = Ret root st →
  ∀ m, failure (parse m str fileLoc) = None.
Proof.
  intros H m. destruct (parse_stable _ _ _ _ H ltac:(done) m) as [-> | ->]; done.
Qed.

End Stable.

(** ** Comments and the version pragma *)

Section Pragma.

Local Open Scope nat_scope.

Lemma comment_loop_line n pre c rest val :
  Forall (fun x => x ≠ LF) c → length c < n →
  comment_loop n (pre ++ c ++ LF :: rest) (length pre) val
  = Ret (length pre + length c, val ++ c) ().
Proof.
  revert n pre val. induction c as [|x c IH]; intros n pre val Hc Hn;
    (destruct n as [|n]; [simpl in Hn; lia|]); cbn [comment_loop app].
  - rewrite list_lookup_middle by done. cbn [is_char].
    rewrite N.eqb_refl, Nat.add_0_r, app_nil_r. done.
  - inversion Hc as [|? ? Hx Hc']; subst.
    rewrite list_lookup_middle by done. cbn [is_char is_undefined append_char].
    destruct (N.eqb_spec x LF) as [->|_]; [done|].
    specialize (IH n (pre ++ [x]) (val ++ [x]) Hc').
    rewrite length_app, <- !app_assoc in IH. cbn [app length] in IH.
    rewrite Nat.add_1_r in IH. rewrite IH by (simpl in Hn; lia).
    cbn [length]. f_equal. f_equal. lia.
Qed.

(** On a comment that no newline ends, the loop runs past the end of the
    text. *)
Lemma comment_loop_overrun n pre c val :
  Forall (fun x => x ≠ LF) c → length c < n →
  comment_loop n (pre ++ c) (length pre) val = Throw string_too_long ().
Proof.
  revert n pre val. induction c as [|x c IH]; intros n pre val Hc Hn;
    (destruct n as [|n]; [simpl in Hn; lia|]); cbn [comment_loop].
  - rewrite app_nil_r, lookup_ge_None_2 by lia. reflexivity.
  - inversion Hc as [|? ? Hx Hc']; subst.
    rewrite list_lookup_middle by done. cbn [is_char is_undefined append_char].
    destruct (N.eqb_spec x LF) as [->|_]; [done|].
    specialize (IH n (pre ++ [x]) (val ++ [x]) Hc').
    rewrite length_app, <- !app_assoc in IH. cbn [app length] in IH.
    rewrite Nat.add_1_r in IH. apply IH. simpl in Hn. lia.
Qed.

Lemma step_comment n c rest ln l c0 :
  Forall (fun x => x ≠ LF) c → length c < n →
  tokenise_step n (mkScanner (HASH :: c ++ LF :: rest) ln l c0)
  = Ret [Token.mk l c0 COMMENT (VStr c)]
        (mkScanner (LF :: rest) false l (c0 + N.of_nat (S (length c)))%N).
Proof.
  intros Hc Hn.
  pose proof (comment_loop_line n [HASH] c rest [] Hc Hn) as Hloop.
  cbn [app length Nat.add] in Hloop.
  unfold tokenise_step, classify. cbn [input].
  change ((HASH :: c ++ LF :: rest) !! 0) with (Some HASH).
  change (is_char (Some HASH) LF) with false.
  change (is_char (Some HASH) HASH) with true. cbv beta iota.
  rewrite Hloop. cbn [Nat.eqb drop app].
  rewrite drop_app_length. reflexivity.
Qed.

Lemma onComment_pragma tk comment version st :
  Token.value tk = VStr comment → is_version_pragma comment version →
  (1 < version)%N →
  onComment tk st
  = Throw (ThrownString (unsupported_version_message version)) st.
Proof.
  intros Hv (digits & Hm & <-) Hlt. unfold onComment.
  rewrite Hv, Hm. unfold LOCKFILE_VERSION.
  by rewrite (proj2 (N.ltb_lt _ _) Hlt).
Qed.

Lemma brings_pragma n0 s tk s' comment version g :
  input s ≠ [] → Token.type tk = COMMENT → Token.value tk = VStr comment →
  is_version_pragma comment version → (1 < version)%N →
  (∀ n, n0 ≤ n → tokenise_step n s = Ret [tk] s') →
  next_brings (scanning s)
    (Raise (ThrownString (unsupported_version_message version))) g.
Proof.
  intros Hin Hty Hv Hp Hlt Hstep st Hst.
  eexists. exists (S (S n0)). intros [|[|n]] Hn; [lia..|].
  rewrite next_S, Hst, (Generator_next_step _ _ [tk] s')
    by (done || apply Hstep; lia).
  assert (Generator_next n (mkGenerator [tk] s' false)
          = Ret (Some tk) (scanning s')) as -> by (by destruct n).
  cbv zeta. rewrite bool_decide_eq_true_2 by done.
  unfold bind. by rewrite (onComment_pragma _ _ _ _ Hv Hp Hlt).
Qed.

Lemma Scans_pragma ln comment version rest evs :
  Forall (fun x => x ≠ LF) comment →
  is_version_pragma comment version → (1 < version)%N →
  Scans ln (HASH :: comment ++ LF :: rest)
        (Raise (ThrownString (unsupported_version_message version)) :: evs).
Proof.
  intros Hc Hp Hlt l c. constructor.
  eapply (brings_pragma (S (length comment))); [done | | | done | done |].
  3: { intros n Hn. apply step_comment; [done | lia]. }
  all: done.
Qed.

End Pragma.

Section OddIndent.

Local Open Scope nat_scope.

Lemma render_entries_end es d :
  es ≠ [] → ∃ pre, render_entries d es = pre ++ [LF].
Proof.
  assert (∀ n es d, entries_size es < n → es ≠ [] →
                    ∃ pre, render_entries d es = pre ++ [LF]) as H.
  2: { apply (H (S (entries_size es))). lia. }
  clear es d. induction n as [|n IH]; intros es d Hsize Hne; [lia|].
  destruct es as [|e es]; [done|].
  rewrite entries_size_cons in Hsize. pose proof (entry_size_pos e).
  unfold render_entries. cbn [map concat]. fold (render_entries d es).
  destruct (decide (es = [])) as [-> | Hes].
  - cbn [render_entries map concat]. rewrite app_nil_r.
    destruct e as [key aliases v | key aliases children]; cbn [render_entry].
    + eexists. by rewrite !app_assoc.
    + fold (render_entries (S d) children).
      destruct (decide (children = [])) as [-> | Hch].
      * cbn [render_entries map concat]. rewrite app_nil_r.
        exists (spaces (2 * d) ++ render_keys key aliases ++ [COLON_CHAR]).
        by rewrite <- !app_assoc.
      * rewrite entry_size_block in Hsize.
        destruct (IH children (S d) ltac:(lia) Hch) as (pre & ->).
        eexists. by rewrite !app_assoc.
  - destruct (IH es d ltac:(lia) Hes) as (pre & ->).
    eexists. by rewrite app_assoc.
Qed.

Lemma has_odd_indent_app pre t :
  Nat.odd (length (indent_loop t)) = true →
  has_odd_indent (pre ++ LF :: t) = true.
Proof.
  intros Hodd. induction pre as [|x pre IH]; cbn [app has_odd_indent].
  - by rewrite N.eqb_refl, Hodd.
  - rewrite IH. apply orb_true_r.
Qed.

Lemma has_odd_indent_after doc k rest :
  doc ≠ [] → starts_otherwise SPACE rest →
  has_odd_indent (render doc ++ spaces (2 * k + 1) ++ rest) = true.
Proof.
  intros Hne Hrest. destruct (render_entries_end doc 0 Hne) as (pre & E).
  unfold render. rewrite E, <- app_assoc. cbn [app].
  apply has_odd_indent_app.
  rewrite indent_loop_spaces by done.
  assert (length (spaces (2 * k + 1)) = 2 * k + 1) as ->
    by apply length_replicate.
  apply Nat.odd_spec. by exists k.
Qed.

End OddIndent.

(** ** Blank lines and comments at the top level *)

Section Top.

Local Open Scope nat_scope.

Lemma onComment_accepted tk text st :
  Token.value tk = VStr text → accepted_comment text = true →
  ∃ st', onComment tk st = Ret () st'
         ∧ tokens (this st') = tokens (this st)
         ∧ token (this st') = token (this st)
         ∧ fileLoc (this st') = fileLoc (this st) ∧ heap st' = heap st.
Proof.
  intros Hv Ha. unfold onComment, accepted_comment in *. rewrite Hv.
  destruct (version_match (trim text)) as [digits|].
  - apply negb_true_iff in Ha. rewrite Ha. by eexists.
  - by eexists.
Qed.

Lemma next_comment n0 s tk text s' st :
  input s ≠ [] → tokens (this st) = scanning s →
  Token.type tk = COMMENT → Token.value tk = VStr text →
  accepted_comment text = true →
  (∀ n, n0 ≤ n → tokenise_step n s = Ret [tk] s') →
  ∃ st1, tokens (this st1) = scanning s' ∧ token (this st1) = token (this st)
         ∧ fileLoc (this st1) = fileLoc (this st) ∧ heap st1 = heap st
         ∧ ∀ r, converges next st1 r → converges next st r.
Proof.
  intros Hin Hst Hty Hv Ha Hstep.
  destruct (onComment_accepted tk text (set_tokens (scanning s') st) Hv Ha)
    as (st1 & Hoc & Hg1 & Ht1 & Hl1 & Hh1).
  exists st1. split_and!; [done..|].
  intros r [n1 Hr]. exists (S (S (n0 + n1))). intros [|[|n]] Hn; [lia..|].
  rewrite next_S, Hst, (Generator_next_step _ _ [tk] s')
    by (done || apply Hstep; lia).
  assert (Generator_next n (mkGenerator [tk] s' false)
          = Ret (Some tk) (scanning s')) as -> by (by destruct n).
  cbv zeta. rewrite bool_decide_eq_true_2 by done.
  unfold bind. rewrite Hoc. apply Hr. lia.
Qed.

Lemma brings_comment n0 s tk text s' ev g :
  input s ≠ [] → Token.type tk = COMMENT → Token.value tk = VStr text →
  accepted_comment text = true →
  (∀ n, n0 ≤ n → tokenise_step n s = Ret [tk] s') →
  next_brings (scanning s') ev g → next_brings (scanning s) ev g.
Proof.
  intros Hin Hty Hv Ha Hstep Hb st Hst.
  destruct (next_comment n0 s tk text s' st Hin Hst Hty Hv Ha Hstep)
    as (st1 & Hg1 & Ht1 & Hl1 & Hh1 & Hconv).
  specialize (Hb st1 Hg1). destruct ev as [ty v | e].
  - destruct Hb as (tk' & st' & Hc & ? & ? & ? & ? & ? & ?).
    exists tk', st'. split_and!; [by apply Hconv | done.. | congruence | congruence].
  - destruct Hb as (st' & Hc). exists st'. by apply Hconv.
Qed.

Lemma Scans_comment ln text rest evs :
  Forall (fun x => x ≠ LF) text → accepted_comment text = true →
  Scans false (LF :: rest) evs → Scans ln (HASH :: text ++ LF :: rest) evs.
Proof.
  intros Hc Ha HS l c.
  assert (∀ ev g,
    next_brings (scanning (mkScanner (LF :: rest) false l
                             (c + N.of_nat (S (length text)))%N)) ev g →
    next_brings (scanning (mkScanner (HASH :: text ++ LF :: rest) ln l c)) ev g)
    as Hb.
  { intros ev g. eapply (brings_comment (S (length text)) _
                           (Token.mk l c COMMENT (VStr text))); [done..|].
    intros n Hn. apply step_comment; [done | lia]. }
  specialize (HS l (c + N.of_nat (S (length text)))%N).
  inversion HS as [| g ty v g' evs' Hb' HF' | g e evs' Hb']; subst.
  - constructor.
  - econstructor; [|exact HF']. by apply Hb.
  - constructor. apply Hb. intros st Hst. apply (Hb' st Hst).
Qed.

Lemma items_events_cons it its :
  items_events (it :: its) = item_events it ++ items_events its.
Proof. reflexivity. Qed.

Lemma render_items_cons it its :
  render_items (it :: its) = render_item it ++ render_items its.
Proof. reflexivity. Qed.

Lemma Scans_items its ln tail K :
  forallb wf_item its = true → (its ≠ [] ∨ ln = true) →
  Scans true tail K →
  Scans ln (render_items its ++ tail) (items_events its ++ K).
Proof.
  revert ln. induction its as [|it its IH]; intros ln Hwf Hln HS.
  { destruct Hln as [? | ->]; [done | exact HS]. }
  cbn [forallb] in Hwf. apply andb_true_iff in Hwf as [Hwfi Hwf].
  rewrite items_events_cons, render_items_cons, <- !app_assoc.
  specialize (IH true Hwf ltac:(by right) HS).
  destruct it as [[|text] | e]; cbn [item_events render_item render_filler app].
  - by apply Scans_newline.
  - cbn [wf_item wf_filler] in Hwfi. apply andb_true_iff in Hwfi as [Hc Ha].
    rewrite <- app_assoc. cbn [app].
    apply Scans_comment; [|done|by apply Scans_newline].
    apply Forall_forall. intros x Hx.
    rewrite forallb_forall in Hc. specialize (Hc x Hx).
    apply negb_true_iff in Hc. by apply N.eqb_neq.
  - cbn [wf_item] in Hwfi.
    pose proof (Scans_entries [e] 0 ln (render_items its ++ tail)
                  (items_events its ++ K)) as H.
    unfold render_entries, entries_events in H. cbn [map concat] in H.
    rewrite !app_nil_r in H. apply H; [|by left|by left|done].
    cbn [forallb]. by rewrite Hwfi.
Qed.

(** The loop at the top level, at a newline: it goes on at the next token. *)
Lemma top_newline obj st R :
  At st (Tok NEWLINE VUndefined :: R) →
  match R with
  | [] => True
  | Raise e :: _ =>
      ∃ st', converges (fun n => parse_loop n 0%N obj) st (Throw e st')
  | Tok _ _ :: _ =>
      ∃ st', At st' R ∧ heap st' = heap st
             ∧ ∀ r, converges (fun n => parse_loop n 0%N obj) st' r →
                    converges (fun n => parse_loop n 0%N obj) st r
  end.
Proof.
  intros HAt. destruct (At_current _ _ _ _ HAt) as (tk & Htk & Hty & Hv).
  destruct R as [|[ty v|e] R']; [done| |].
  - destruct (At_next _ _ _ _ _ HAt) as (tk1 & st1 & Hn1 & HAt1 & Hh1).
    exists st1. split_and!; [done..|]. intros r Hr.
    apply conv_S. cbn [parse_loop].
    eapply conv_bind; [by apply conv_current|]. cbn beta. rewrite Hty.
    cbv beta iota. eapply conv_bind; [exact Hn1|]. exact Hr.
  - destruct (At_next _ _ _ _ _ HAt) as (st' & Hn).
    exists st'. apply conv_S. cbn [parse_loop].
    eapply conv_bind; [by apply conv_current|]. cbn beta. rewrite Hty.
    cbv beta iota. by apply conv_bind_throw.
Qed.

(** The loop at the top level, at the first key of an entry: it reads the
    entry and goes on at the token that follows it. *)
Lemma top_entry e obj st R :
  wf_entry e = true → follows e R →
  At st (line_events 0 e ++ R) →
  match R with
  | [] => True
  | Raise ex :: _ =>
      ∃ st', converges (fun n => parse_loop n 0%N obj) st (Throw ex st')
  | Tok _ _ :: _ =>
      ∃ st', At st' R ∧ heap st' = build_entry obj e (heap st)
             ∧ ∀ r, converges (fun n => parse_loop n 0%N obj) st' r →
                    converges (fun n => parse_loop n 0%N obj) st r
  end.
Proof.
  intros Hwf Hfol HAt.
  destruct e as [key aliases value | key aliases children]; simpl in Hwf;
    apply andb_true_iff in Hwf as [Hwf Hbody];
    apply andb_true_iff in Hwf as [Hkey Haliases].
  - (* a key and a value *)
    destruct (scalar_event_tok value) as (sty & Hsv & Hs1 & Hs2 & Hs3).
    assert (At st (Tok STRING (VStr (word_value key))
                   :: alias_events aliases
                      ++ Tok sty (scalar_value value)
                         :: Tok NEWLINE VUndefined :: R)) as HAt0.
    { unfold line_events, key_events in HAt. rewrite Hsv in HAt.
      simpl in HAt. by rewrite <- app_assoc in HAt. }
    clear HAt.
    destruct (At_current _ _ _ _ HAt0) as (tk & Htk & Hty & Hv).
    destruct (alias_events_head aliases sty (scalar_value value)
                (Tok NEWLINE VUndefined :: R)) as (ty' & v' & rest & E).
    rewrite E in HAt0.
    destruct (At_next _ _ _ _ _ HAt0) as (tk1 & st1 & Hn1 & HAt1 & Hh1).
    rewrite <- E in HAt1.
    destruct (more_keys_spec aliases [word_value key] _ _ _ _ Haliases Hs1 HAt1)
      as (st2 & Hmk & HAt2 & Hh2).
    destruct (At_current _ _ _ _ HAt2) as (tk2 & Htk2 & Hty2 & Hv2).
    set (st2' := mkState (this st2)
                   (alter (assign_keys (word_value key :: map word_value aliases)
                                       (scalar_value value)) obj (heap st2))).
    assert (∃ tk3 st3', converges next st2' (Ret tk3 st3')
                        ∧ At st3' (Tok NEWLINE VUndefined :: R)
                        ∧ heap st3' = heap st2')
      as (tk3' & st3' & Hn3' & HAt3' & Hh3').
    { apply (At_next st2' sty (scalar_value value) (Tok NEWLINE VUndefined) R).
      exact HAt2. }
    assert (∀ r, converges (fun n => parse_loop n 0%N obj) st3' r →
                 converges (fun n => parse_loop n 0%N obj) st r) as Hprefix.
    { intros r Hc. apply conv_S. cbn [parse_loop].
      eapply conv_bind; [by apply conv_current|]. cbn beta. rewrite Hty.
      cbv beta iota. rewrite Hv. cbn [as_string].
      rewrite wf_key_truthy by done.
      eapply conv_bind; [by apply conv_const|].
      eapply conv_bind; [exact Hn1|].
      eapply conv_bind; [exact Hmk|].
      eapply conv_bind; [by apply conv_current|]. cbn beta.
      rewrite Hty2, bool_decide_eq_false_2 by done.
      unfold isValidPropValueToken. rewrite Hty2, Hs3, Hv2.
      eapply conv_bind; [by apply conv_const|].
      eapply conv_bind; [exact Hn3'|].
      exact Hc. }
    assert (heap st3' = build_entry obj (Leaf key aliases value) (heap st))
      as Hheap.
    { rewrite Hh3'. simpl. by rewrite Hh2, Hh1. }
    pose proof (top_newline obj st3' R HAt3') as Hnl.
    destruct R as [|[ty v|ex] R']; [done| |].
    + destruct Hnl as (st4 & HAt4 & Hh4 & Hc4).
      exists st4. split_and!; [done | congruence |].
      intros r Hr. by apply Hprefix, Hc4.
    + destruct Hnl as (st4 & Hc4). exists st4. by apply Hprefix.
  - (* a key and a nested block *)
    simpl in Hfol.
    set (C := entries_events 1 children ++ R).
    assert (At st (Tok STRING (VStr (word_value key))
                   :: alias_events aliases
                      ++ Tok COLON VUndefined :: Tok NEWLINE VUndefined :: C))
      as HAt0.
    { unfold line_events, key_events in HAt. simpl in HAt.
      by rewrite <- !app_assoc in HAt. }
    clear HAt.
    destruct (At_current _ _ _ _ HAt0) as (tk & Htk & Hty & Hv).
    destruct (alias_events_head aliases COLON VUndefined
                (Tok NEWLINE VUndefined :: C)) as (ty' & v' & rest & E).
    rewrite E in HAt0.
    destruct (At_next _ _ _ _ _ HAt0) as (tk1 & st1 & Hn1 & HAt1 & Hh1).
    rewrite <- E in HAt1.
    destruct (more_keys_spec aliases [word_value key] COLON _ _ _ Haliases
                ltac:(done) HAt1) as (st2 & Hmk & HAt2 & Hh2).
    destruct (At_current _ _ _ _ HAt2) as (tk2 & Htk2 & Hty2 & Hv2).
    destruct (At_next st2 COLON VUndefined (Tok NEWLINE VUndefined) C HAt2)
      as (tk3 & st3 & Hn3 & HAt3 & Hh3).
    set (val := length (heap st3)).
    set (st4 := mkState (this st3) (heap st3 ++ [∅])).
    destruct (parse_loop_reads children 1 R val st4 Hbody Hfol)
      as (r1 & Hc1 & He1); [by left|].
    change (N.of_nat 1) with (0 + 1)%N in Hc1.
    assert (∀ r,
      converges
        (fun n =>
           parse_loop n (0 + 1)%N val ;;;
           set_keys obj (word_value key :: map word_value aliases) (VRef val) ;;;
           let* t := current in
           if negb (0 =? 0)%N && negb (bool_decide (Token.type t = INDENT))
           then ret ()
           else parse_loop n 0%N obj) st4 r →
      converges (fun n => parse_loop n 0%N obj) st r) as Hprefix.
    { intros r Hr. apply conv_S. cbn [parse_loop].
      eapply conv_bind; [by apply conv_current|]. cbn beta. rewrite Hty.
      cbv beta iota. rewrite Hv. cbn [as_string].
      rewrite wf_key_truthy by done.
      eapply conv_bind; [by apply conv_const|].
      eapply conv_bind; [exact Hn1|].
      eapply conv_bind; [exact Hmk|].
      eapply conv_bind; [by apply conv_current|]. cbn beta.
      rewrite Hty2, bool_decide_eq_true_2 by done.
      eapply conv_bind; [exact Hn3|].
      eapply conv_bind; [by apply conv_const|].
      exact Hr. }
    destruct R as [|[ty v|ex] R']; [done| |].
    + destruct He1 as (st5 & -> & HAt5 & Hh5).
      set (st6 := mkState (this st5)
                    (alter (assign_keys (word_value key :: map word_value aliases)
                                        (VRef val)) obj (heap st5))).
      destruct (At_current st6 _ _ _ HAt5) as (tk6 & Htk6 & Hty6 & Hv6).
      exists st6. split_and!; [exact HAt5 | |].
      * simpl. rewrite Hh5. unfold val, st4. simpl.
        rewrite Hh3, Hh2, Hh1. reflexivity.
      * intros r Hr. apply Hprefix.
        eapply conv_bind; [exact Hc1|].
        eapply conv_bind; [by apply conv_const|].
        eapply conv_bind; [by apply conv_current|]. cbn beta.
        exact Hr.
    + destruct He1 as (st5 & ->). exists st5.
      apply Hprefix. by apply conv_bind_throw.
Qed.

Lemma entry_events_top e : entry_events 0 e = line_events 0 e.
Proof. by destruct e. Qed.

Lemma stops_top_nonempty K : stops_top K → K ≠ [].
Proof. by destruct K. Qed.

(** The loop at the top level reads the blocks among the lines and stops
    at [K]. *)
Lemma top_reads its K obj st :
  forallb wf_item its = true → separated its K → stops_top K →
  At st (items_events its ++ K) →
  ∃ r, converges (fun n => parse_loop n 0%N obj) st r
       ∧ ends K (build obj (item_entries its) (heap st)) r.
Proof.
  intros Hwf Hsep Hstop. revert st Hwf Hsep.
  induction its as [|it its IH]; intros st Hwf Hsep HAt.
  - simpl in HAt. destruct K as [|[ty v|e] K']; [done| |done].
    destruct (At_current _ _ _ _ HAt) as (tk & Htk & Hty & Hv).
    exists (Ret () st). split; [|by exists st].
    apply conv_S. cbn [parse_loop].
    eapply conv_bind; [by apply conv_current|]. cbn beta. rewrite Hty.
    destruct ty; try done; simpl in Hstop.
    + by apply conv_const.
    + cbv beta iota. rewrite Hv.
      rewrite bool_decide_eq_false_2 by done. by apply conv_const.
  - cbn [forallb] in Hwf. apply andb_true_iff in Hwf as [Hwfi Hwf].
    destruct Hsep as [Hfol Hsep].
    rewrite items_events_cons, <- app_assoc in HAt.
    set (R := items_events its ++ K) in *.
    assert (R ≠ []) as HR.
    { unfold R. intros E. apply app_eq_nil in E as [_ E].
      by apply stops_top_nonempty in Hstop. }
    assert (match R with
            | [] => True
            | Raise ex :: _ =>
                ∃ st', converges (fun n => parse_loop n 0%N obj) st (Throw ex st')
            | Tok _ _ :: _ =>
                ∃ st', At st' R
                  ∧ heap st' = match it with
                               | Top e => build_entry obj e (heap st)
                               | Gap _ => heap st
                               end
                  ∧ ∀ r, converges (fun n => parse_loop n 0%N obj) st' r →
                         converges (fun n => parse_loop n 0%N obj) st r
            end) as Hstep.
    { destruct it as [f | e]; cbn [item_events] in HAt.
      - by apply top_newline.
      - apply top_entry; [done..|]. by rewrite <- entry_events_top. }
    assert (item_entries (it :: its)
            = match it with Top e => e :: item_entries its
                          | Gap _ => item_entries its end) as Hents.
    { by destruct it. }
    destruct R as [|[ty v|ex] R'] eqn:ER; [done| |].
    + destruct Hstep as (st' & HAt' & Hh' & Hc').
      destruct (IH st' Hwf Hsep HAt') as (r & Hc & He).
      exists r. split; [by apply Hc'|].
      rewrite Hents, Hh' in *. by destruct it.
    + destruct Hstep as (st' & Hc').
      assert (its = [] ∧ ∃ K', K = Raise ex :: K') as [-> [K' ->]].
      { unfold R in ER. destruct its as [|[f|e] its'].
        - simpl in ER. eauto.
        - done.
        - exfalso. rewrite items_events_cons in ER. cbn [item_events] in ER.
          rewrite entry_events_top in ER.
          destruct (line_events_head 0 e) as (v & rest & E').
          by rewrite E' in ER. }
      exists (Throw ex st'). split; [done | simpl; eauto].
Qed.

End Top.

Section Layout.

Local Open Scope nat_scope.

Lemma stripBOM_items its tail :
  forallb wf_item its = true →
  (its = [] → starts_otherwise BOM tail) →
  stripBOM (render_items its ++ tail) = render_items its ++ tail.
Proof.
  intros Hwf Htail. destruct its as [|[[|text]|e] its].
  - specialize (Htail eq_refl). destruct tail as [|c tail]; [done|].
    simpl in *. by destruct (N.eqb_spec c BOM).
  - done.
  - done.
  - cbn [forallb wf_item] in Hwf. apply andb_true_iff in Hwf as [Hwfe _].
    rewrite render_items_cons, <- app_assoc. cbn [render_item].
    pose proof (stripBOM_render [e] (render_items its ++ tail)) as H.
    unfold render, render_entries in H. cbn [map concat] in H.
    rewrite app_nil_r in H. apply H; [|done].
    cbn [forallb]. by rewrite Hwfe.
Qed.

Lemma items_events_head its K :
  stops_top K →
  (∃ ty v R, items_events its ++ K = Tok ty v :: R)
  ∨ (its = [] ∧ ∃ e K', K = Raise e :: K').
Proof.
  intros Hstop. destruct its as [|[f|e] its].
  - destruct K as [|[ty v|e] K']; [done | left | right]; eauto.
  - left. simpl. eauto.
  - left. rewrite items_events_cons. cbn [item_events].
    rewrite entry_events_top.
    destruct (line_events_head 0 e) as (v & rest & ->). simpl. eauto.
Qed.

(** [parse] on a text from which the tree builder is fed the tokens of the
    lines [its] and then [K], at which the top-level loop stops. *)
Lemma parse_fed text its K fileLoc :
  stripBOM text = text →
  Feeds (tokenise text) (items_events its ++ K) →
  forallb wf_item its = true → separated its K → stops_top K →
  ∃ r, parses text fileLoc r
       ∧ match K with
         | Tok _ _ :: _ =>
             ∃ st, r = Ret 0 st
                   ∧ heap st = build 0 (item_entries its) [∅] ∧ At st K
         | Raise e :: _ => ∃ st, r = Throw e st
         | [] => False
         end.
Proof.
  intros Hbom HF Hwf Hsep Hstop.
  set (st0 := new_Parser text (default (js "lockfile") fileLoc)).
  assert (∀ r, converges (fun n => next n ;;; Parser_parse n 0%N) st0 r →
               parses text fileLoc r) as Hparses.
  { intros r [n0 Hr]. exists n0. intros n Hn. unfold parse.
    rewrite Hbom. by apply Hr. }
  change (tokenise text) with (tokens (this st0)) in HF.
  destruct (items_events_head its K Hstop)
    as [(ty & v & R' & ER) | (-> & e & K' & ->)].
  - rewrite ER in HF.
    inversion HF as [| g ty' v' g' evs' Hb HF' | ]; subst.
    destruct (Hb st0 eq_refl) as (tk & st1 & Hn & Hty & Hv & Htk & Hg & Hh & _).
    set (st2 := mkState (this st1) (heap st1 ++ [∅])).
    assert (At st2 (items_events its ++ K)) as HAt.
    { rewrite ER. split; [eauto|]. simpl. by rewrite Hg. }
    destruct (top_reads its K 0 st2 Hwf Hsep Hstop HAt) as (r & Hc & He).
    assert (heap st2 = [∅]) as Hh2 by (simpl; by rewrite Hh).
    rewrite Hh2 in He.
    assert (∀ r', converges (fun n => parse_loop n 0%N 0 ;;; ret 0) st2 r' →
                  converges (fun n => next n ;;; Parser_parse n 0%N) st0 r')
      as Hprefix.
    { intros r' Hr'. eapply conv_bind; [exact Hn|]. unfold Parser_parse.
      eapply conv_bind; [by apply conv_const|].
      assert (length (heap st1) = 0) as -> by (by rewrite Hh).
      exact Hr'. }
    destruct K as [|[kty kv|e] K']; [done| |].
    + destruct He as (st3 & -> & HAt3 & Hh3).
      exists (Ret 0 st3). split; [|eauto].
      apply Hparses, Hprefix.
      eapply conv_bind; [exact Hc|]. by apply conv_const.
    + destruct He as (st3 & ->).
      exists (Throw e st3). split; [|eauto].
      apply Hparses, Hprefix. by apply conv_bind_throw.
  - simpl in HF.
    inversion HF as [| | g e' evs' Hb]; subst.
    destruct (Hb st0 eq_refl) as (st1 & Hn).
    exists (Throw e st1). split; [|eauto].
    apply Hparses. by apply conv_bind_throw.
Qed.

(** [parse] on the lines [its] followed by a text at which the top-level
    loop stops. *)
Lemma parse_items its tail K fileLoc :
  forallb wf_item its = true → separated its K → stops_top K →
  Scans true tail K → (its = [] → Scans false tail K) →
  (its = [] → starts_otherwise BOM tail) →
  ∃ r, parses (render_items its ++ tail) fileLoc r
       ∧ match K with
         | Tok _ _ :: _ =>
             ∃ st, r = Ret 0 st
                   ∧ heap st = build 0 (item_entries its) [∅] ∧ At st K
         | Raise e :: _ => ∃ st, r = Throw e st
         | [] => False
         end.
Proof.
  intros Hwf Hsep Hstop HS HS0 Hbom.
  apply parse_fed; [by apply stripBOM_items | | done..].
  destruct its as [|it its]; [by apply HS0|].
  apply (Scans_items (it :: its) false tail K); auto.
Qed.

(** After a block, every line is one at which a nested block ends, unless
    the block is the last line and [K] is not such a token. *)
Lemma separated_closes its K :
  closes 1 K → separated its K.
Proof.
  intros HK. induction its as [|it its IH]; [done|]. split; [|done].
  destruct it as [f|e]; [done|].
  assert (closes 1 (items_events its ++ K)) as Hcl.
  { destruct its as [|[f|e'] its']; [done | done |].
    rewrite items_events_cons. cbn [item_events]. rewrite entry_events_top.
    by destruct (line_events_head 0 e') as (v & rest & ->). }
  destruct e; simpl; [|done]. by destruct (items_events its ++ K).
Qed.

Lemma separated_gap its f K :
  K ≠ [] → separated (its ++ [Gap f]) K.
Proof.
  intros HK. induction its as [|it its IH]; [done|]. split; [|done].
  destruct it as [f'|e]; [done|]. cbn [app].
  assert (closes 1 (items_events (its ++ [Gap f]) ++ K)) as Hcl.
  { destruct its as [|[f'|e'] its']; [done | done |].
    cbn [app]. rewrite items_events_cons. cbn [item_events].
    rewrite entry_events_top.
    by destruct (line_events_head 0 e') as (v & rest & ->). }
  destruct e; simpl; [|done].
  by destruct (items_events (its ++ [Gap f]) ++ K).
Qed.

Lemma item_entries_app its its' :
  item_entries (its ++ its') = item_entries its ++ item_entries its'.
Proof. unfold item_entries. apply omap_app. Qed.

Lemma wf_item_entries its :
  forallb wf_item its = true → forallb wf_entry (item_entries its) = true.
Proof.
  induction its as [|[f|e] its IH]; simpl; [done | |];
    intros H; apply andb_true_iff in H as [H1 H2]; [by apply IH|].
  unfold item_entries in *. simpl. rewrite H1. by apply IH.
Qed.

End Layout.

(** C4, as stated, fails: the text below has a line with three leading
    spaces, and [parse] returns the empty mapping on it, whatever the fuel.
    The indented line before it ends the top-level loop, and the scanner is
    never asked for the tokens of the third line. *)
Lemma C4_counterexample :
  has_odd_indent early_return_input = true
  ∧ mapping (parse 50 early_return_input None) = Some (JObj ∅)
  ∧ ∀ fuel, failure (parse fuel early_return_input None) = None.
Proof.
  split; [reflexivity|]. split; [vm_compute; reflexivity|].
  assert (∃ st, parse 50 early_return_input None = Ret 0%nat st) as [st H]
    by (eexists; vm_compute; reflexivity).
  by eapply parse_returns_never_fails.
Qed.

(** C4, amended: asked for a token at a run of leading spaces of odd length
    right after a newline, the scanner raises [TypeError: Invalid number of
    spaces] and yields no indent; and [parse] fails with that error on every
    text in which such a line follows well-formed blocks. *)
Theorem C4_odd_indentation :
  (∀ fuel k rest l c,
     starts_otherwise SPACE rest →
     tokenise_step fuel (mkScanner (spaces (2 * k + 1) ++ rest) true l c)
     = Throw (TypeError (js "Invalid number of spaces"))
             (mkScanner (spaces (2 * k + 1) ++ rest) true l c))
  ∧ (∀ doc k rest fileLoc,
       forallb wf_entry doc = true → doc ≠ [] →
       starts_otherwise SPACE rest →
       has_odd_indent (render doc ++ spaces (2 * k + 1) ++ rest) = true
       ∧ ∃ st, parses (render doc ++ spaces (2 * k + 1) ++ rest) fileLoc
                 (Throw (TypeError (js "Invalid number of spaces")) st)).
Proof.
  split; [intros; by apply step_odd_indent|].
  intros doc k rest fileLoc Hwf Hne Hrest. split.
  - by apply has_odd_indent_after.
  - destruct (parse_rendered doc (spaces (2 * k + 1) ++ rest)
                [Raise (TypeError (js "Invalid number of spaces"))] fileLoc Hwf)
      as (r & Hr & st & ->); [by apply Scans_odd_indent | done..|].
    by exists st.
Qed.

Lemma C4_odd_indentation_witness :
  ∃ st, parses (lines [js "foo:"; js "   bar " ++ quoted (js "1")]) None
               (Throw (TypeError (js "Invalid number of spaces")) st).
Proof.
  destruct (proj2 C4_odd_indentation [Block (Bare (js "foo")) [] []] 1%nat
              (js "bar " ++ quoted (js "1") ++ [LF]) None
              eq_refl ltac:(done) ltac:(done)) as [_ H].
  exact H.
Defined.

(** C5, as stated, fails: the text below holds the comment
    [# yarn lockfile v2], and [parse] returns the empty mapping on it,
    whatever the fuel.  The indented line before the comment ends the
    top-level loop, and the comment is never fetched. *)
Lemma C5_counterexample :
  is_version_pragma (js " yarn lockfile v2") 2
  ∧ mapping (parse 50 late_pragma_input None) = Some (JObj ∅)
  ∧ ∀ fuel, failure (parse fuel late_pragma_input None) = None.
Proof.
  split; [by exists (js "2")|]. split; [vm_compute; reflexivity|].
  assert (∃ st, parse 50 late_pragma_input None = Ret 0%nat st) as [st H]
    by (eexists; vm_compute; reflexivity).
  by eapply parse_returns_never_fails.
Qed.

Lemma pragma_text version :
  unsupported_version_message version
  = unsupported_version_text (number_to_string version).
Proof. reflexivity. Qed.

(** C5, amended: when the tree builder fetches a comment whose trimmed text
    is [yarn lockfile v<N>] with [N] greater than 1, the fetch fails with the
    thrown message of the unsupported version; [parse] fails so on every text
    in which such a comment line, ended by its newline, comes first or
    follows well-formed blocks, blank lines and other comment lines; and the
    message, which holds [N] as it is printed (with its decimal digits when
    [N] is below 2^53) and nothing else of the text, ends with the
    instruction to upgrade. *)
Theorem C5_unsupported_version :
  (∀ tk comment version st,
     Token.value tk = VStr comment → is_version_pragma comment version →
     1 < version →
     ∃ printed,
       prints_version version printed
       ∧ onComment tk st
         = Throw (ThrownString (unsupported_version_text printed)) st)
  ∧ (∀ its comment version rest fileLoc,
       forallb wf_item its = true →
       Forall (fun x => x ≠ LF) comment →
       is_version_pragma comment version → 1 < version →
       ∃ printed st,
         prints_version version printed
         ∧ parses (render_items its ++ [HASH] ++ comment ++ [LF] ++ rest)
                  fileLoc
                  (Throw (ThrownString (unsupported_version_text printed)) st))
  ∧ (∀ printed, ∃ text,
       unsupported_version_text printed
       = text ++ js "Run `$ yarn self-update` to upgrade to the latest version.").
Proof.
  split; [|split].
  - intros tk comment version st Hv Hp Hlt.
    exists (number_to_string version). split; [by intros _|].
    rewrite <- pragma_text. by eapply onComment_pragma.
  - intros its comment version rest fileLoc Hwf Hc Hp Hlt.
    destruct (parse_items its ([HASH] ++ comment ++ [LF] ++ rest)
                [Raise (ThrownString (unsupported_version_message version))]
                fileLoc Hwf)
      as (r & Hr & st & ->);
      [by apply separated_closes | done | by apply Scans_pragma
      | intros _; by apply Scans_pragma | done |].
    exists (number_to_string version), st. split; [by intros _|].
    by rewrite <- pragma_text.
  - intros printed. unfold unsupported_version_text.
    eexists. rewrite !app_assoc.
    change (js ". Run `$ yarn self-update` to upgrade to the latest version.")
      with (js ". " ++ js "Run `$ yarn self-update` to upgrade to the latest version.").
    rewrite app_assoc. reflexivity.
Qed.

Lemma C5_unsupported_version_witness :
  ∃ printed st,
    prints_version 2 printed
    ∧ parses (lines [js "# THIS IS AN AUTOGENERATED FILE."; js "";
                     js "a 1"; js "# yarn lockfile v2"; js "foo:";
                     js "  bar 1"])
             (Some (js "yarn.lock"))
             (Throw (ThrownString (unsupported_version_text printed)) st).
Proof.
  apply (proj1 (proj2 C5_unsupported_version)
           [ Gap (Remark (js " THIS IS AN AUTOGENERATED FILE.")); Gap Blank;
             Top (Leaf (Bare (js "a")) [] (SNumber (js "1"))) ]
           (js " yarn lockfile v2") 2 (lines [js "foo:"; js "  bar 1"])
           (Some (js "yarn.lock")) eq_refl).
  - repeat constructor; done.
  - by exists (js "2").
  - done.
Defined.

(** C7: on the alias example [parse] returns a mapping with exactly the two
    keys, both bound to the reference of one object, which holds the version;
    and in general the keys of a comma-joined list that opens a block are all
    bound to the reference of the one object that the nested call created,
    which holds the entries of the block. *)
Theorem C7_alias_keys_share_one_object :
  (∃ st, parse 50 alias_input None = Ret 0%nat st
         ∧ heap st
           = [ {[ js "foo@^1.0.0" := VRef 1; js "foo@^1.1.0" := VRef 1 ]};
               {[ js "version" := VStr (js "1.1.0") ]} ])
  ∧ (∀ key aliases children fileLoc,
       wf_entry (Block key aliases children) = true →
       ∃ st,
         parses (render [Block key aliases children]) fileLoc (Ret 0%nat st)
         ∧ (∀ k, k ∈ entry_keys (Block key aliases children) →
                 heap st !! 0%nat ≫= (.!! k) = Some (VRef 1))
         ∧ top_level_keys (Ret 0%nat st)
           = Some (list_to_set (entry_keys (Block key aliases children)))
         ∧ heap st !! 1%nat = build 1 children [∅; ∅] !! 1%nat).
Proof.
  split; [eexists; split; vm_compute; reflexivity|].
  intros key aliases children fileLoc Hwf.
  set (e := Block key aliases children) in *.
  assert (forallb wf_entry [e] = true) as Hdoc by (cbn [forallb]; by rewrite Hwf).
  destruct (parse_rendered [e] [] [Tok EOF VUndefined] fileLoc Hdoc)
    as (r & Hr & st & -> & Hh & _);
    [apply Scans_eof | done | done | done |].
  rewrite app_nil_r in Hr. exists st. split; [done|].
  assert (heap st = alter (assign_keys (entry_keys e) (VRef 1)) 0%nat
                          (build 1 children [∅; ∅])) as Hheap by exact Hh.
  destruct (build_frame_all children 1%nat [∅; ∅]) as [_ Hfr].
  assert (heap st !! 0%nat = Some (assign_keys (entry_keys e) (VRef 1) ∅)) as H0.
  { rewrite Hheap, list_lookup_alter_eq, Hfr by (simpl; lia). done. }
  pose proof (wf_entry_keys e Hwf) as Hkeys.
  split_and!.
  - intros k Hk. rewrite H0. cbn [mbind option_bind].
    by apply lookup_assign_keys.
  - cbn [top_level_keys]. rewrite H0. cbn [fmap option_fmap option_map].
    f_equal. rewrite dom_assign_keys by done. set_solver.
  - rewrite Hheap. by rewrite list_lookup_alter_ne.
Qed.

Lemma C7_alias_keys_share_one_object_witness :
  ∃ st,
    parses (render alias_doc) None (Ret 0%nat st)
    ∧ (∀ k, k ∈ [js "foo@^1.0.0"; js "foo@^1.1.0"] →
            heap st !! 0%nat ≫= (.!! k) = Some (VRef 1))
    ∧ top_level_keys (Ret 0%nat st)
      = Some (list_to_set [js "foo@^1.0.0"; js "foo@^1.1.0"])
    ∧ heap st !! 1%nat = Some {[ js "version" := VStr (js "1.1.0") ]}.
Proof.
  destruct (proj2 C7_alias_keys_share_one_object
              (Bare (js "foo@^1.0.0")) [Bare (js "foo@^1.1.0")]
              [Leaf (Bare (js "version")) [] (SWord (Quoted (js "1.1.0")))]
              None eq_refl) as (st & H1 & H2 & H3 & H4).
  exists st. split; [exact H1|]. split; [exact H2|]. split; [exact H3|].
  rewrite H4. vm_compute. reflexivity.
Defined.

(** The rendered examples are the texts of the specification. *)
Example render_alias_doc : render alias_doc = alias_input.
Proof. reflexivity. Qed.

Example render_example_doc :
  lines [js "# yarn lockfile v1"; js ""] ++ render example_doc = example_input.
Proof. reflexivity. Qed.

(** ** Quoted literals *)

(** C6, where the code departs from it: on the literal with three
    backslashes before the inner quote, the capture described by the
    specification takes the whole literal, which decodes to [a\] followed by
    a quote and [b]; the scanner stops at the inner quote, decoding fails, an
    invalid token is yielded and [parse] fails. *)
Lemma C6_quote_after_three_backslashes :
  spec_capture (three_backslashes_literal ++ [LF])
  = Some three_backslashes_literal
  ∧ JSON_parse three_backslashes_literal = Some [97; BACKSLASH; DQUOTE; 98]
  ∧ quoted_loop 20 (three_backslashes_literal ++ [LF]) 0 []
    = Ret (take 6 three_backslashes_literal) ()
  ∧ JSON_parse (take 6 three_backslashes_literal) = None
  ∧ tokenise_step 20 (mkScanner (three_backslashes_literal ++ [LF]) false 1 4)
    = Ret [Token.mk 1 4 INVALID VUndefined]
          (mkScanner [98; DQUOTE; LF] false 1 10)
  ∧ failure (parse 50 (js "foo " ++ three_backslashes_literal ++ [LF]) None)
    = Some (SyntaxError (js "Invalid value type 1:4 in lockfile")).
Proof. repeat split; vm_compute; reflexivity. Qed.

(** The parts of C6 that hold: the literal with an escaped quote is captured
    whole and decodes to [a], a quote and [b]; and from a text that starts
    with a double quote a turn of the scanner raises no error of its own: it
    yields one token, a string or an invalid token, unless no double quote
    closes the literal, where the loop runs past the end of the text. *)
Lemma quoted_loop_longer n inp i val v u :
  quoted_loop n inp i val = Ret v u → (length val < length v)%nat.
Proof.
  revert i val. induction n as [|n IH]; intros i val H; [done|].
  cbn [quoted_loop] in H. cbv zeta in H.
  assert (length val < length (append_char val (inp !! i)))%nat as Hlen.
  { destruct (inp !! i); cbn [append_char]; rewrite length_app; simpl; lia. }
  repeat case_match; simplify_eq; try done; apply IH in H; lia.
Qed.

Lemma quoted_turn n s :
  input s !! 0%nat = Some DQUOTE →
  match tokenise_step n s with
  | Ret [tk] _ => Token.type tk = STRING ∨ Token.type tk = INVALID
  | Ret _ _ => False
  | Throw e _ => e = string_too_long
  | OutOfFuel => True
  end.
Proof.
  intros H. destruct s as [inp ln l c]. cbn [input] in H.
  unfold tokenise_step. rewrite classify_quoted by done. cbv zeta.
  destruct (quoted_loop n inp 0 []) as [val u | e u |] eqn:Hq;
    [| by eapply quoted_loop_throws | done].
  apply quoted_loop_longer in Hq.
  assert ((length val =? 0)%nat = false) as Hne
    by (apply Nat.eqb_neq; simpl in Hq; lia).
  destruct (JSON_parse val); rewrite Hne; cbn; auto.
Qed.

Example escaped_quote_decodes :
  tokenise_step 20 (mkScanner (escaped_quote_literal ++ [LF]) false 1 4)
  = Ret [Token.mk 1 4 STRING (VStr [97; DQUOTE; 98])]
        (mkScanner [LF] false 1 10).
Proof. vm_compute. reflexivity. Qed.

(** ** The token sequence of every text *)

Section Sequence.

Local Open Scope nat_scope.

(** A text holds a newline, or none. *)
Lemma first_newline rest :
  forallb (fun x => negb (x =? LF)%N) rest = false →
  ∃ c rest', rest = c ++ LF :: rest' ∧ Forall (fun x => x ≠ LF) c.
Proof.
  induction rest as [|x rest IH]; [done|]. cbn [forallb]. intros H.
  destruct (N.eqb_spec x LF) as [-> | Hne].
  - by exists [], rest.
  - destruct (IH H) as (c & rest' & -> & Hc).
    exists (x :: c), rest'. split; [done | by constructor].
Qed.

Lemma no_newline rest :
  forallb (fun x => negb (x =? LF)%N) rest = true →
  Forall (fun x => x ≠ LF) rest.
Proof.
  intros H. apply Forall_forall. intros x Hx.
  rewrite forallb_forall in H. specialize (H x Hx).
  apply negb_true_iff in H. by apply N.eqb_neq.
Qed.

Lemma odd_mod2 n : Nat.odd n = negb (n mod 2 =? 0).
Proof.
  pose proof (Nat.mod_upper_bound n 2 ltac:(lia)).
  rewrite (Nat.div_mod_eq n 2) at 1.
  rewrite Nat.add_comm, Nat.odd_add_mul_2.
  destruct (n mod 2) as [|[|k]]; [done | done | lia].
Qed.

(** At a character that no rule accepts, a turn of the loop consumes nothing,
    yields the invalid token twice and leaves the text as it is. *)
Lemma stuck_step n inp ln l c :
  is_stuck inp = true →
  tokenise_step n (mkScanner inp ln l c)
  = Ret [Token.mk l c INVALID VUndefined; Token.mk l c INVALID VUndefined]
        (mkScanner inp false l c).
Proof.
  intros H. destruct inp as [|x inp]; [done|]. cbn [is_stuck] in H.
  repeat (apply andb_true_iff in H as [H ?]).
  repeat match goal with
         | H : negb _ = true |- _ => apply negb_true_iff in H
         end.
  unfold tokenise_step, classify. cbn [input].
  change ((x :: inp) !! 0) with (Some x). cbn [is_char].
  repeat match goal with
         | H : _ = false |- _ => rewrite H; clear H
         end.
  cbn. by rewrite N.add_0_r.
Qed.

(** After a newline, at a run of spaces of odd length, a turn raises the
    error of the indentation. *)
Lemma odd_indent_step n s :
  at_odd_indent s = true →
  tokenise_step n s = Throw (TypeError (js "Invalid number of spaces")) s.
Proof.
  destruct s as [inp ln l c]. unfold at_odd_indent. cbn [input lastNewline].
  intros H. apply andb_true_iff in H as [H Hodd].
  apply andb_true_iff in H as [-> Hsp].
  assert (inp !! 0 = Some SPACE) as H0.
  { destruct (inp !! 0) as [x|]; [|done]. cbn in Hsp.
    apply N.eqb_eq in Hsp. by subst x. }
  unfold tokenise_step. rewrite classify_indent by done. cbv zeta.
  rewrite odd_mod2 in Hodd. apply negb_true_iff in Hodd. by rewrite Hodd.
Qed.

(** At a comment that no newline ends, and at a quoted literal that no
    double quote closes, a turn raises the error of the string that has
    grown too long. *)
Lemma unterminated_step n s :
  unterminated (input s) = true → length (input s) < n →
  tokenise_step n s = Throw string_too_long s.
Proof.
  destruct s as [[|x inp] ln l c]; [done|]. cbn [input unterminated length].
  intros H Hn. unfold tokenise_step, classify. cbn [input].
  change ((x :: inp) !! 0) with (Some x). cbn [is_char].
  apply orb_true_iff in H as [H | H]; apply andb_true_iff in H as [Hx H];
    apply N.eqb_eq in Hx; subst x.
  - change (HASH =? LF)%N with false. change (HASH =? HASH)%N with true.
    cbv beta iota.
    pose proof (comment_loop_overrun n [HASH] inp [] (no_newline _ H)
                  ltac:(lia)) as Hloop.
    cbn [app length] in Hloop. by rewrite Hloop.
  - change (DQUOTE =? LF)%N with false. change (DQUOTE =? HASH)%N with false.
    change (DQUOTE =? SPACE)%N with false.
    change (DQUOTE =? DQUOTE)%N with true. cbv beta iota.
    destruct (capture [DQUOTE] inp) eqn:Hcap; [done|].
    rewrite quoted_loop_open by (done || lia). done.
Qed.

Lemma drop_shorter {A} k (l : list A) :
  l ≠ [] → 0 < k → length (drop k l) < length l.
Proof. intros Hl Hk. rewrite length_drop. destruct l; [done|]. simpl. lia. Qed.

Lemma indent_loop_nonempty inp :
  inp !! 0 = Some SPACE → 0 < length (indent_loop inp).
Proof. destruct inp as [|x inp]; [done|]. intros [= ->]. simpl. lia. Qed.

Lemma digits_loop_nonempty x inp :
  is_digit x = true → 0 < length (digits_loop (x :: inp)).
Proof. intros H. cbn [digits_loop]. rewrite H. simpl. lia. Qed.

Lemma name_loop_nonempty x inp :
  is_name_start x = true → 0 < length (name_loop (x :: inp)).
Proof.
  intros H. cbn [name_loop].
  assert ((x =? COLON_CHAR)%N || (x =? SPACE)%N || (x =? LF)%N
          || (x =? COMMA_CHAR)%N = false) as -> by chars.
  simpl. lia.
Qed.

(** A turn of the loop on a text that is not used up: it returns at most
    one token and a shorter text, or it is at one of the three places where
    the token sequence stops growing. *)
Lemma turn_cases s :
  input s ≠ [] →
  turn_progresses s
  ∨ is_stuck (input s) = true
  ∨ at_odd_indent s = true
  ∨ unterminated (input s) = true.
Proof.
  destruct s as [inp ln l c]. cbn [input]. intros Hin.
  destruct inp as [|x inp]; [done|].
  set (s := mkScanner (x :: inp) ln l c).
  assert (∀ n0 chop tk s1,
    0 < chop → Token.type tk ≠ EOF →
    (∀ n, n0 ≤ n → classify n s = Ret (chop, [tk]) s1) →
    turn_progresses s) as Hprog.
  { intros n0 chop tk s1 Hchop Hty Hcl.
    eexists [tk], _, n0. split; [|split; [|right; eauto]].
    - intros n Hn. unfold tokenise_step. rewrite Hcl by done.
      replace (chop =? 0) with false by (symmetry; apply Nat.eqb_neq; lia).
      reflexivity.
    - cbn [input]. by apply drop_shorter. }
  assert (∀ r, (∀ n, classify n s = r) →
               ∀ n, tokenise_step n s
                    = match r with
                      | Ret (chop, toks) s1 =>
                          Ret (toks ++ (if chop =? 0
                                        then [buildToken s1 INVALID VUndefined]
                                        else []))
                              (mkScanner (drop chop (x :: inp))
                                         (is_char (Some x) LF) (line s1)
                                         (col s1 + N.of_nat chop)%N)
                      | Throw e s1 => Throw e s1
                      | OutOfFuel => OutOfFuel
                      end) as Hstep.
  { intros r Hr n. unfold tokenise_step. by rewrite Hr. }
  destruct (x =? LF)%N eqn:HLF.
  { left. apply (Hprog 0 1 (buildToken (mkScanner (x :: inp) ln (l + 1)%N 0%N)
                                       NEWLINE VUndefined)
                       (mkScanner (x :: inp) ln (l + 1)%N 0%N)); [lia | done |].
    intros n _. unfold classify, s. cbn [input lastNewline line col].
    change ((x :: inp) !! 0) with (Some x). cbn [is_char]. by rewrite HLF. }
  destruct (x =? HASH)%N eqn:HHASH.
  { destruct (forallb (fun y => negb (y =? LF)%N) inp) eqn:Hnl.
    - right. right. right. unfold s. cbn [input unterminated].
      by rewrite HHASH, Hnl.
    - destruct (first_newline inp Hnl) as (cm & rest' & -> & Hcm).
      left. apply (Hprog (S (length cm)) (1 + length cm)
                     (buildToken s COMMENT (VStr cm)) s); [lia | done |].
      intros n Hn. unfold classify, s. cbn [input].
      change ((x :: cm ++ LF :: rest') !! 0) with (Some x). cbn [is_char].
      rewrite HLF, HHASH.
      pose proof (comment_loop_line n [x] cm rest' [] Hcm ltac:(lia)) as Hloop.
      cbn [app length] in Hloop. by rewrite Hloop. }
  destruct (x =? SPACE)%N eqn:HSPACE.
  { destruct ln.
    - assert (0 < length (indent_loop (x :: inp))) as Hlen.
      { apply indent_loop_nonempty. apply N.eqb_eq in HSPACE. by subst x. }
      destruct (length (indent_loop (x :: inp)) mod 2 =? 0) eqn:Heven.
      + left. eapply (Hprog 0 _ (buildToken s INDENT _) s); [exact Hlen | done |].
        intros n _. unfold classify, s. cbn [input lastNewline].
        change ((x :: inp) !! 0) with (Some x). cbn [is_char].
        by rewrite HLF, HHASH, HSPACE, Heven.
      + right. right. left. unfold at_odd_indent, s. cbn [input lastNewline].
        change ((x :: inp) !! 0) with (Some x). cbn [is_char].
        by rewrite HSPACE, odd_mod2, Heven.
    - left. eexists [], _, 0. split; [|split; [|by left]].
      + intros n _. apply (Hstep (Ret (1, []) s)).
        intros n'. unfold classify, s. cbn [input lastNewline].
        change ((x :: inp) !! 0) with (Some x). cbn [is_char].
        by rewrite HLF, HHASH, HSPACE.
      + cbn [input]. apply drop_shorter; [done | lia]. }
  destruct (x =? DQUOTE)%N eqn:HDQ.
  { pose proof HDQ as Hx. apply N.eqb_eq in Hx.
    destruct (capture [x] inp) as [v|] eqn:Hcap.
    - left. subst x.
      assert (∀ n, S (length v) ≤ n →
                quoted_loop n (DQUOTE :: inp) 0 [] = Ret (DQUOTE :: v) ()) as H.
      { intros n Hn. apply quoted_loop_closed; [done | lia]. }
      destruct (JSON_parse (DQUOTE :: v)) as [str|] eqn:Hj.
      + apply (Hprog (S (length v)) (length (DQUOTE :: v))
                 (buildToken s STRING (VStr str)) s); [simpl; lia | done |].
        intros n Hn. unfold classify, s. cbn [input].
        change ((DQUOTE :: inp) !! 0) with (Some DQUOTE). cbn [is_char].
        by rewrite HLF, HHASH, HSPACE, HDQ, (H n Hn), Hj.
      + apply (Hprog (S (length v)) (length (DQUOTE :: v))
                 (buildToken s INVALID VUndefined) s); [simpl; lia | done |].
        intros n Hn. unfold classify, s. cbn [input].
        change ((DQUOTE :: inp) !! 0) with (Some DQUOTE). cbn [is_char].
        by rewrite HLF, HHASH, HSPACE, HDQ, (H n Hn), Hj.
    - right. right. right. unfold s. cbn [input unterminated].
      by rewrite HHASH, HDQ, Hcap. }
  destruct (is_digit x) eqn:Hdigit.
  { left. eapply (Hprog 0 _ (buildToken s NUMBER _) s);
      [by apply (digits_loop_nonempty x inp) | done |].
    intros n _. unfold classify, s. cbn [input].
    change ((x :: inp) !! 0) with (Some x). cbn [is_char].
    by rewrite HLF, HHASH, HSPACE, HDQ, Hdigit. }
  destruct (starts_with (js "true") (x :: inp)) eqn:Htrue.
  { left. apply (Hprog 0 4 (buildToken s BOOLEAN (VBool true)) s); [lia | done |].
    intros n _. unfold classify, s. cbn [input].
    change ((x :: inp) !! 0) with (Some x). cbn [is_char].
    by rewrite HLF, HHASH, HSPACE, HDQ, Hdigit, Htrue. }
  destruct (starts_with (js "false") (x :: inp)) eqn:Hfalse.
  { left. apply (Hprog 0 5 (buildToken s BOOLEAN (VBool false)) s); [lia | done |].
    intros n _. unfold classify, s. cbn [input].
    change ((x :: inp) !! 0) with (Some x). cbn [is_char].
    by rewrite HLF, HHASH, HSPACE, HDQ, Hdigit, Htrue, Hfalse. }
  destruct (x =? COLON_CHAR)%N eqn:HCOLON.
  { left. apply (Hprog 0 1 (buildToken s COLON VUndefined) s); [lia | done |].
    intros n _. unfold classify, s. cbn [input].
    change ((x :: inp) !! 0) with (Some x). cbn [is_char].
    by rewrite HLF, HHASH, HSPACE, HDQ, Hdigit, Htrue, Hfalse, HCOLON. }
  destruct (x =? COMMA_CHAR)%N eqn:HCOMMA.
  { left. apply (Hprog 0 1 (buildToken s COMMA VUndefined) s); [lia | done |].
    intros n _. unfold classify, s. cbn [input].
    change ((x :: inp) !! 0) with (Some x). cbn [is_char].
    by rewrite HLF, HHASH, HSPACE, HDQ, Hdigit, Htrue, Hfalse, HCOLON, HCOMMA. }
  destruct (is_name_start x) eqn:Hname.
  { left. eapply (Hprog 0 _ (buildToken s STRING _) s);
      [by apply (name_loop_nonempty x inp) | done |].
    intros n _. unfold classify, s. cbn [input].
    change ((x :: inp) !! 0) with (Some x). cbn [is_char].
    by rewrite HLF, HHASH, HSPACE, HDQ, Hdigit, Htrue, Hfalse, HCOLON, HCOMMA,
      Hname. }
  right. left. cbn [is_stuck].
  by rewrite HLF, HHASH, HSPACE, HDQ, Hdigit, Htrue, Hfalse, HCOLON, HCOMMA,
    Hname.
Qed.


(** A turn of the loop that returns hands its tokens to the pull that asked
    for it. *)
Lemma gen_turn n0 s toks s' r :
  input s ≠ [] → (∀ n, n0 ≤ n → tokenise_step n s = Ret toks s') →
  converges Generator_next (mkGenerator toks s' false) r →
  converges Generator_next (scanning s) r.
Proof.
  intros Hin Hstep [n1 Hr]. exists (S (n0 + n1)). intros [|n] Hn; [lia|].
  rewrite (Generator_next_step _ _ toks s') by (done || apply Hstep; lia).
  apply Hr. lia.
Qed.

Lemma gen_throw n0 s e :
  input s ≠ [] → (∀ n, n0 ≤ n → tokenise_step n s = Throw e s) →
  converges Generator_next (scanning s) (Throw e (mkGenerator [] s true)).
Proof.
  intros Hin Hstep. exists (S n0). intros [|n] Hn; [lia|].
  cbn [Generator_next scanning pending finished scanner].
  destruct (input s); [done|]. by rewrite Hstep by lia.
Qed.

Lemma gen_pending tk s n :
  Generator_next n (mkGenerator [tk] s false) = Ret (Some tk) (scanning s).
Proof. by destruct n. Qed.

Lemma gen_stuck_next inp ln l c n :
  is_stuck inp = true → 1 ≤ n →
  Generator_next n (scanning (mkScanner inp ln l c))
  = Ret (Some (Token.mk l c INVALID VUndefined))
        (mkGenerator [Token.mk l c INVALID VUndefined]
                     (mkScanner inp false l c) false).
Proof.
  intros Hstuck Hn. destruct n as [|n]; [lia|].
  assert (inp ≠ []) as Hin by (by destruct inp).
  rewrite (Generator_next_step _ _
             [Token.mk l c INVALID VUndefined; Token.mk l c INVALID VUndefined]
             (mkScanner inp false l c))
    by (done || by apply stuck_step).
  by destruct n.
Qed.

(** What the scanner does at each of the four ends. *)
Lemma gen_end s : input s = [] → Ends (scanning s).
Proof.
  intros Hin. exists (buildToken s EOF VUndefined), (mkGenerator [] s true).
  split; [done|]. split.
  - exists 1. intros [|n] Hn; [lia|].
    cbn [Generator_next scanning pending finished scanner]. by rewrite Hin.
  - by intros [|n].
Qed.

Lemma gen_odd_indent s : at_odd_indent s = true → Raises (scanning s).
Proof.
  intros H. exists (mkGenerator [] s true). apply (gen_throw 0).
  - destruct s as [[|x inp] ln l c]; [|done].
    unfold at_odd_indent in H. cbn in H. by rewrite andb_false_r in H.
  - intros n _. by apply odd_indent_step.
Qed.

Lemma gen_unterminated s :
  unterminated (input s) = true → Overruns (scanning s).
Proof.
  intros H. exists (mkGenerator [] s true).
  apply (gen_throw (S (length (input s)))).
  - by destruct (input s).
  - intros n Hn. apply unterminated_step; [done | lia].
Qed.

Lemma gen_stuck s :
  is_stuck (input s) = true → Stalls (scanning s).
Proof.
  intros Hstuck. destruct s as [inp ln l c]. cbn [input] in Hstuck.
  exists (Token.mk l c INVALID VUndefined),
         (mkGenerator [Token.mk l c INVALID VUndefined]
                      (mkScanner inp false l c) false),
         (scanning (mkScanner inp false l c)).
  split; [done|]. split; [by exists 1; intros; apply gen_stuck_next|].
  split; [exists 0; intros n _; apply gen_pending|].
  exists 1. intros. by apply gen_stuck_next.
Qed.

(** A turn yields no token only at a space inside a line, which it
    skips. *)
Lemma turn_silent n s s' :
  input s ≠ [] → tokenise_step n s = Ret [] s' →
  ∃ rest, s = mkScanner (SPACE :: rest) false (line s) (col s)
          ∧ s' = mkScanner rest false (line s) (col s + 1)%N.
Proof.
  destruct s as [[|x inp] ln l c]; [done|]. intros _.
  unfold tokenise_step.
  destruct (classify n (mkScanner (x :: inp) ln l c))
    as [[chop toks] s1 | |] eqn:Hc; [|done..].
  intros [= Htoks <-]. apply app_eq_nil in Htoks as [-> Hguard].
  assert (chop ≠ 0) as Hchop by (intros ->; done).
  unfold classify in Hc. cbn [input lastNewline] in Hc.
  change ((x :: inp) !! 0) with (Some x) in Hc. cbn [is_char] in Hc.
  destruct (x =? LF)%N; [done|].
  destruct (x =? HASH)%N; [by repeat case_match|].
  destruct (x =? SPACE)%N eqn:Hsp; [|by repeat case_match].
  apply N.eqb_eq in Hsp. subst x.
  destruct ln; [by repeat case_match|].
  injection Hc as <- <-. exists inp. done.
Qed.

Lemma next_text_space rest l c l' c' :
  next_text (mkScanner (SPACE :: rest) false l c)
  = next_text (mkScanner rest false l' c').
Proof. reflexivity. Qed.

Lemma next_text_here s :
  lastNewline s = true ∨ (∀ rest, input s ≠ SPACE :: rest) →
  next_text s = input s.
Proof.
  unfold next_text. intros [-> | H]; [done|].
  destruct (lastNewline s); [done|].
  destruct (input s) as [|x inp] eqn:E; [done|]. cbn [indent_loop].
  destruct (N.eqb_spec x SPACE) as [-> | _]; [by destruct (H inp) | done].
Qed.

Lemma gen_skip rest l c r :
  converges Generator_next (scanning (mkScanner rest false l (c + 1)%N)) r →
  converges Generator_next (scanning (mkScanner (SPACE :: rest) false l c)) r.
Proof. apply (gen_turn 0); [done | intros; apply step_space]. Qed.

(** What holds of the pulls at the text after the spaces holds of the pulls
    before them. *)
Lemma after_spaces (P : jsstring → Prop) (B : Generator → Prop) :
  (∀ rest l c, B (scanning (mkScanner rest false l (c + 1)%N)) →
               B (scanning (mkScanner (SPACE :: rest) false l c))) →
  (∀ s, P (input s) → B (scanning s)) →
  ∀ s, P (next_text s) → B (scanning s).
Proof.
  intros Hskip Hhere [inp ln l c]. unfold next_text. cbn [lastNewline input].
  destruct ln; [apply (Hhere (mkScanner inp true l c))|].
  revert l c. induction inp as [|x inp IH]; intros l c HP.
  - by apply (Hhere (mkScanner [] false l c)).
  - cbn [indent_loop] in HP. destruct (N.eqb_spec x SPACE) as [-> | _].
    + apply Hskip, IH. exact HP.
    + by apply (Hhere (mkScanner (x :: inp) false l c)).
Qed.

Lemma Ends_skip rest l c :
  Ends (scanning (mkScanner rest false l (c + 1)%N)) →
  Ends (scanning (mkScanner (SPACE :: rest) false l c)).
Proof.
  intros (tk & g' & Hty & Hc & Hd). exists tk, g'.
  split; [done|]. split; [by apply gen_skip | done].
Qed.

Lemma Overruns_skip rest l c :
  Overruns (scanning (mkScanner rest false l (c + 1)%N)) →
  Overruns (scanning (mkScanner (SPACE :: rest) false l c)).
Proof. intros (g' & Hc). exists g'. by apply gen_skip. Qed.

Lemma Stalls_skip rest l c :
  Stalls (scanning (mkScanner rest false l (c + 1)%N)) →
  Stalls (scanning (mkScanner (SPACE :: rest) false l c)).
Proof.
  intros (tk & g1 & g2 & Hty & H1 & H2 & H3). exists tk, g1, g2.
  split; [done|]. split; [by apply gen_skip | done].
Qed.

(** The four ends, by the text at the next character that is not
    skipped. *)
Lemma ends_at s : next_text s = [] → Ends (scanning s).
Proof.
  apply (after_spaces (fun inp => inp = []) (fun g => Ends g));
    [apply Ends_skip | apply gen_end].
Qed.



Lemma scanner_behaves s : scanner_behaviour (scanning s).
Proof.
  remember (length (input s)) as m eqn:Hm. revert s Hm.
  induction m as [m IH] using lt_wf_ind. intros s Hm.
  assert (comes_to s → scanner_behaviour (scanning s)) as Hhere.
  { intros H. exists [], s, 0. split; [constructor|]. split; [constructor|].
    split; [done | exact H]. }
  destruct (decide (input s = [])) as [Hin | Hin].
  { apply Hhere. left. split; [|by apply gen_end].
    rewrite next_text_here; [done|]. right. intros rest. by rewrite Hin. }
  destruct (turn_cases s Hin)
    as [(toks & s' & n0 & Hstep & Hlen & Htoks) | [Hstuck | [Hodd | Hopen]]].
  - destruct (IH (length (input s')) ltac:(lia) s' eq_refl)
      as (ts & s2 & k & Hy & Hts & Hk & Hend).
    assert (∃ k', input s2 = drop k' (input (scanner (scanning s)))) as [k' Hk'].
    { pose proof (Hstep n0 ltac:(lia)) as E. unfold tokenise_step in E.
      destruct (classify n0 s) as [[chop toks0] s1 | |]; [|done..].
      injection E as _ <-. exists (chop + k). cbn [scanning scanner input] in *.
      by rewrite Hk, drop_drop. }
    destruct Htoks as [-> | (tk & -> & Hty)].
    + (* a space inside a line: the turn yields nothing *)
      destruct (turn_silent n0 s s' Hin (Hstep n0 ltac:(lia)))
        as (rest & Es & Es').
      destruct s as [inp ln l c]. cbn [line col] in Es, Es'.
      injection Es as -> ->. subst s'.
      inversion Hy as [g Eg | g tk g1 ts' g'' Hc Hy']; subst ts.
      * (* the next pull comes to an end: so does this one *)
        subst s2. apply Hhere. unfold comes_to.
        rewrite (next_text_space rest l c l (c + 1)%N).
        destruct Hend as [[H1 H2] | [[H1 H2] | [[H1 H2] | [H1 H2]]]].
        -- left. split; [done | by apply Ends_skip].
        -- done.
        -- right. right. left. split; [done | by apply Overruns_skip].
        -- right. right. right. split; [done | by apply Stalls_skip].
      * exists (tk :: ts'), s2, k'. split; [|done].
        subst g. econstructor; [|exact Hy']. by eapply (gen_turn n0).
    + exists (tk :: ts), s2, k'. split; [|split; [by constructor | done]].
      econstructor; [|exact Hy].
      eapply (gen_turn n0); [done..|]. exists 0. intros n _. apply gen_pending.
  - apply Hhere. right. right. right.
    rewrite next_text_here; [by split; [|apply gen_stuck]|].
    right. intros rest E. by rewrite E in Hstuck.
  - apply Hhere. right. left. split; [done | by apply gen_odd_indent].
  - apply Hhere. right. right. left.
    rewrite next_text_here; [by split; [|apply gen_unterminated]|].
    right. intros rest E. by rewrite E in Hopen.
Qed.









End Sequence.



(** * Further properties of the code *)

(** ** The tokens of the scanner *)

Section Tokens.

Local Open Scope nat_scope.

Lemma classify_token_ok n s chop toks s1 :
  classify n s = Ret (chop, toks) s1 → Forall token_ok toks.
Proof.
  destruct s as [inp ln l c]. unfold classify. cbn [input lastNewline].
  intros H.
  destruct (is_char (inp !! 0) LF); [by simplify_eq; repeat constructor|].
  destruct (is_char (inp !! 0) HASH).
  { repeat case_match; simplify_eq. repeat constructor.
    unfold token_ok. simpl. eauto. }
  destruct (is_char (inp !! 0) SPACE) eqn:Hsp.
  { destruct ln; [|by simplify_eq].
    destruct (length (indent_loop inp) mod 2 =? 0) eqn:Hev; [|done].
    simplify_eq. repeat constructor.
    unfold token_ok, buildToken. cbn [Token.type Token.value].
    eexists. split; [done|].
    apply Nat.eqb_eq in Hev.
    assert (0 < length (indent_loop inp)) as Hpos.
    { apply indent_loop_nonempty. destruct (inp !! 0) as [x|]; [|done].
      simpl in Hsp. f_equal. by apply N.eqb_eq. }
    assert (0 < length (indent_loop inp) / 2) as Hq.
    { destruct (length (indent_loop inp)) as [|[|k]]; [lia | done |].
      apply Nat.div_str_pos. lia. }
    change (0 < N.of_nat (length (indent_loop inp) / 2))%N.
    revert Hq. generalize (length (indent_loop inp) / 2). intros q Hq. lia. }
  repeat case_match; simplify_eq;
    repeat constructor; unfold token_ok; simpl; eauto.
Qed.

Lemma tokenise_step_token_ok n s :
  match tokenise_step n s with
  | Ret toks _ => Forall token_ok toks
  | _ => True
  end.
Proof.
  unfold tokenise_step.
  destruct (classify n s) as [[chop toks] s1| |] eqn:Hc; [|done..].
  apply Forall_app. split; [by eapply classify_token_ok|].
  destruct (chop =? 0); repeat constructor.
Qed.

Lemma Generator_next_token_ok n g :
  Forall token_ok (pending g) →
  match Generator_next n g with
  | Ret (Some tk) g' => token_ok tk ∧ Forall token_ok (pending g')
  | _ => True
  end.
Proof.
  revert g. induction n as [|n IH]; intros g Hp; simpl.
  - destruct (pending g) as [|tk p] eqn:E; [by destruct (finished g)|].
    by inversion Hp.
  - destruct (pending g) as [|tk p] eqn:E; [|by inversion Hp].
    destruct (finished g); [done|].
    destruct (input (scanner g)); [by split; [|constructor]|].
    pose proof (tokenise_step_token_ok n (scanner g)) as Hs.
    destruct (tokenise_step n (scanner g)) as [toks s'| |]; [|done..].
    by apply IH.
Qed.

Lemma yields_token_ok g ts g' :
  yields g ts g' → Forall token_ok (pending g) →
  Forall token_ok ts ∧ Forall token_ok (pending g').
Proof.
  induction 1 as [g | g tk g1 ts g' [n0 Hc] Hy IH]; intros Hp; [by split|].
  pose proof (Generator_next_token_ok n0 g Hp) as H.
  rewrite Hc in H by done. destruct H as [Htk Hp1].
  destruct (IH Hp1) as [Hts Hp']. split; [by constructor | done].
Qed.

End Tokens.

(** X1: every token that a turn of the scanner's loop yields carries a
    value of the kind of its type: a string for a string or a comment, a
    number for a number, a boolean for a boolean, a number of levels that is
    at least one for an indent, and no value for the others; no token is an
    identifier.  So it is for every token of the sequence of a text. *)
Theorem X1_tokens_are_typed :
  (∀ fuel s, match tokenise_step fuel s with
             | Ret toks _ => Forall token_ok toks
             | _ => True
             end)
  ∧ (∀ text ts g, yields (tokenise text) ts g → Forall token_ok ts).
Proof.
  split; [apply tokenise_step_token_ok|].
  intros text ts g Hy. by apply (yields_token_ok _ _ _ Hy).
Qed.

(** ** The exceptions of [parse] and the shape of its result *)

Section Shape.

Local Open Scope nat_scope.

Lemma shape_bind {A B} (Q1 : A → State → Prop) (Q : B → State → Prop)
    (m : M A) (k : A → M B) st :
  outcome_shape Q1 (m st) →
  (∀ a st', m st = Ret a st' → Q1 a st' → outcome_shape Q (k a st')) →
  outcome_shape Q (bind m k st).
Proof.
  intros Hm Hk. unfold bind. destruct (m st) as [a st' | e st' |]; simpl in *;
    [by apply Hk | done | done].
Qed.

Lemma Generator_next_throws n g e g' :
  Generator_next n g = Throw e g' →
  e = TypeError (js "Invalid number of spaces") ∨ e = string_too_long.
Proof.
  revert g. induction n as [|n IH]; intros g; simpl.
  - destruct (pending g); [by destruct (finished g) | done].
  - destruct (pending g); [|done]. destruct (finished g); [done|].
    destruct (input (scanner g)); [done|]. unfold tokenise_step.
    destruct (classify n (scanner g)) as [[chop toks] s1 | e1 s1 |] eqn:Hc;
      [apply IH | | done].
    intros [= <- _]. by eapply classify_throws.
Qed.

Lemma onComment_shape tk st :
  token_ok tk → Token.type tk = COMMENT →
  outcome_shape
    (fun _ st' => tokens (this st') = tokens (this st)
                  ∧ token (this st') = token (this st)
                  ∧ heap st' = heap st)
    (onComment tk st).
Proof.
  unfold token_ok. intros Hok Hty. rewrite Hty in Hok. destruct Hok as [s Hs].
  unfold onComment. rewrite Hs.
  destruct (version_match (trim s)) as [digits|]; [|done].
  destruct (LOCKFILE_VERSION <? to_number digits)%N eqn:Hv; [|done].
  right. right. left.
  exists (to_number digits), (number_to_string (to_number digits)).
  split; [by apply N.ltb_lt in Hv|]. split; [by intros _ | done].
Qed.

Lemma next_shape n st :
  Forall token_ok (pending (tokens (this st))) → heap_ok (heap st) →
  outcome_shape
    (fun tk st' => parser_ok st' ∧ heap st' = heap st
                   ∧ token (this st') = Some tk)
    (next n st).
Proof.
  revert st. induction n as [|n IH]; intros st Hp Hh; [done|].
  rewrite next_S.
  pose proof (Generator_next_token_ok n _ Hp) as Hg.
  destruct (Generator_next n (tokens (this st))) as [[tk|] g | e g |] eqn:Hn.
  - destruct Hg as [Htk Hp']. case_bool_decide as Hty.
    + apply shape_bind with
        (Q1 := fun _ st' => tokens (this st') = g ∧ heap st' = heap st).
      * pose proof (onComment_shape tk (set_tokens g st) Htk Hty) as Hc.
        destruct (onComment tk (set_tokens g st)); simpl in *; [|done..].
        by destruct Hc as (-> & _ & ->).
      * intros [] st' _ [Hg' Hh']. rewrite <- Hh'.
        apply IH; [by rewrite Hg' | by rewrite Hh'].
    + simpl. split_and!; [|done..]. split_and!; [eauto | done | done].
  - simpl. unfold raised. tauto.
  - simpl. destruct (Generator_next_throws _ _ _ _ Hn) as [-> | ->];
      unfold raised; tauto.
  - done.
Qed.

Lemma parser_ok_token st :
  parser_ok st → ∃ tk, token (this st) = Some tk ∧ token_ok tk.
Proof. by intros [H _]. Qed.

Lemma unexpected_shape {A} (Q : A → State → Prop) msg st :
  parser_ok st → outcome_shape Q (unexpected msg st).
Proof.
  intros [(tk & Htk & _) _]. unfold unexpected. rewrite Htk. simpl.
  unfold raised. eauto 10.
Qed.

Lemma value_ok_mono n m i v : value_ok n i v → n ≤ m → value_ok m i v.
Proof. destruct v; simpl; try done. lia. Qed.

Lemma assign_keys_lookup_inv (keys : list (list N)) (v : jsval)
    (o : gmap (list N) jsval) (k : list N) (v' : jsval) :
  assign_keys keys v o !! k = Some v' →
  (k ∈ keys ∧ k ≠ js "__proto__" ∧ v' = v) ∨ o !! k = Some v'.
Proof.
  revert o. induction keys as [|key keys IH]; intros o; [by right|].
  change (assign_keys (key :: keys) v o)
    with (assign_keys keys v (obj_set key v o)).
  intros H. destruct (IH _ H) as [(Hin & Hp & Hv) | Ho].
  - left. split; [by right | done].
  - unfold obj_set in Ho. case_bool_decide as Hproto; [by right|].
    destruct (decide (key = k)) as [->|Hne].
    + rewrite lookup_insert_eq in Ho. left.
      split; [by left|]. split; [done | congruence].
    + rewrite lookup_insert_ne in Ho by done. by right.
Qed.

Lemma heap_ok_set_keys h obj keys v :
  heap_ok h → Forall (fun k => k ≠ []) keys → value_ok (length h) obj v →
  heap_ok (alter (assign_keys keys v) obj h).
Proof.
  intros Hh Hk Hv i o k v' Hi Ho. rewrite length_alter.
  destruct (decide (i = obj)) as [->|Hne].
  - rewrite list_lookup_alter_eq in Hi.
    apply fmap_Some in Hi as (o0 & Ho0 & ->).
    apply assign_keys_lookup_inv in Ho as [(Hin & Hp & ->) | Ho].
    + split; [|done]. rewrite Forall_forall in Hk.
      apply Hk. by apply list_elem_of_In.
    + by eapply Hh.
  - rewrite list_lookup_alter_ne in Hi by done. by eapply Hh.
Qed.

Lemma heap_ok_new h : heap_ok h → heap_ok (h ++ [∅]).
Proof.
  intros Hh i o k v Hi Ho. rewrite length_app. simpl.
  destruct (decide (i < length h)) as [Hlt|Hge].
  - rewrite lookup_app_l in Hi by done.
    destruct (Hh _ _ _ _ Hi Ho) as (? & ? & Hv).
    split_and!; [done..|]. eapply value_ok_mono; [done | lia].
  - rewrite lookup_app_r in Hi by lia.
    destruct (i - length h); simpl in Hi; [|done].
    injection Hi as <-. by rewrite lookup_empty in Ho.
Qed.

Lemma truthy_nonempty s : truthy s = true → s ≠ [].
Proof. unfold truthy. intros H ->. by rewrite bool_decide_eq_true_2 in H. Qed.

Lemma invariant_key_shape key st :
  outcome_shape (fun _ st' => st' = st ∧ key ≠ [])
    (invariant (truthy key) (js "Expected a key") st).
Proof.
  destruct (truthy key) eqn:E; simpl.
  - split; [done | by apply truthy_nonempty].
  - unfold raised. tauto.
Qed.

Lemma more_keys_shape n keys st :
  parser_ok st → Forall (fun k => k ≠ []) keys →
  outcome_shape
    (fun keys' st' => parser_ok st' ∧ heap st' = heap st
                      ∧ Forall (fun k => k ≠ []) keys')
    (more_keys n keys st).
Proof.
  revert keys st. induction n as [|n IH]; intros keys st Hok Hkeys; [done|].
  cbn [more_keys].
  destruct (parser_ok_token _ Hok) as (t & Ht & Htok).
  rewrite (bind_current _ _ _ Ht).
  case_bool_decide as Hty; [|done].
  eapply shape_bind; [apply next_shape; apply Hok|].
  intros t1 st1 _ (Hok1 & Hh1 & Ht1). cbn beta.
  rewrite (bind_current _ _ _ Ht1).
  eapply shape_bind with (Q1 := fun _ st' => st' = st1
                                  ∧ Token.type t1 = STRING).
  { case_bool_decide; [done | by apply unexpected_shape]. }
  intros [] ? _ [-> Hty1].
  eapply shape_bind; [apply invariant_key_shape|].
  intros [] ? _ [-> Hkey].
  eapply shape_bind; [apply next_shape; apply Hok1|].
  intros t2 st2 _ (Hok2 & Hh2 & Ht2).
  pose proof (IH (keys ++ [as_string (Token.value t1)]) st2 Hok2) as H.
  destruct (more_keys n _ st2) as [keys' st' | e st' |]; simpl in *;
    [|by apply H; apply Forall_app; split; [|constructor]..].
  destruct H as (? & ? & ?); [by apply Forall_app; split; [|constructor]|].
  split_and!; [done | congruence | done].
Qed.

Lemma parser_ok_heap st h :
  parser_ok st → heap_ok h → parser_ok (mkState (this st) h).
Proof. intros (? & ? & _) ?. by split_and!. Qed.

Lemma valid_value_ok tk size i :
  token_ok tk → isValidPropValueToken tk = true →
  value_ok size i (Token.value tk).
Proof.
  unfold isValidPropValueToken, token_ok. intros Hok Hv.
  apply bool_decide_eq_true in Hv.
  destruct (Token.type tk); try set_solver;
    destruct Hok as [x ->]; done.
Qed.

Lemma parse_loop_shape n indent obj st :
  parser_ok st → obj < length (heap st) →
  outcome_shape
    (fun _ st' => parser_ok st' ∧ length (heap st) ≤ length (heap st'))
    (parse_loop n indent obj st).
Proof.
  revert indent obj st. induction n as [|n IH]; intros indent obj st Hok Hobj;
    [done|].
  cbn [parse_loop].
  destruct (parser_ok_token _ Hok) as (t & Ht & Htok).
  rewrite (bind_current _ _ _ Ht).
  assert (∀ st1 (Q : State → Prop),
            parser_ok st1 → heap st1 = heap st →
            (∀ st', parser_ok st' → length (heap st) ≤ length (heap st') →
                    Q st') →
            outcome_shape (fun _ st' => Q st') (parse_loop n indent obj st1))
    as Hloop.
  { intros st1 Q Hok1 Hh1 HQ.
    pose proof (IH indent obj st1 Hok1) as H. rewrite Hh1 in H.
    destruct (parse_loop n indent obj st1); simpl in *; [|by apply H..].
    destruct H as [? ?]; [done|]. by apply HQ. }
  destruct (Token.type t) eqn:Hty; try (by apply unexpected_shape).
  - (* a key *)
    eapply shape_bind; [apply invariant_key_shape|].
    intros [] ? _ [-> Hkey].
    eapply shape_bind; [apply next_shape; apply Hok|].
    intros t1 st1 _ (Hok1 & Hh1 & Ht1).
    eapply shape_bind; [apply more_keys_shape; [done | by constructor]|].
    intros keys st2 _ (Hok2 & Hh2 & Hkeys). cbn beta.
    destruct (parser_ok_token _ Hok2) as (valToken & Hv & Hvok).
    rewrite (bind_current _ _ _ Hv).
    case_bool_decide as Hcolon.
    + eapply shape_bind; [apply next_shape; apply Hok2|].
      intros t3 st3 _ (Hok3 & Hh3 & Ht3).
      assert (length (heap st3) = length (heap st)) as Hlen by congruence.
      unfold new_object at 1. unfold bind at 1.
      set (val := length (heap st3)).
      set (st4 := mkState (this st3) (heap st3 ++ [∅])).
      assert (parser_ok st4) as Hok4.
      { apply parser_ok_heap; [done|]. apply heap_ok_new, Hok3. }
      eapply shape_bind.
      { apply (IH (indent + 1)%N val st4 Hok4).
        unfold st4, val. simpl. rewrite length_app. simpl. lia. }
      intros [] st5 _ [Hok5 Hlen5]. cbn beta.
      unfold set_keys at 1. unfold bind at 1.
      set (st6 := mkState (this st5)
                    (alter (assign_keys keys (VRef val)) obj (heap st5))).
      assert (length (heap st4) = S val) as Hlen4.
      { unfold st4, val. simpl. rewrite length_app. simpl. lia. }
      assert (parser_ok st6) as Hok6.
      { apply parser_ok_heap; [done|].
        apply heap_ok_set_keys; [apply Hok5 | done |]. simpl. lia. }
      assert (length (heap st) ≤ length (heap st6)) as Hlen6.
      { unfold st6. simpl. rewrite length_alter. lia. }
      destruct (parser_ok_token _ Hok6) as (t6 & Ht6 & _).
      rewrite (bind_current _ _ _ Ht6).
      destruct (_ && _); [by split|].
      pose proof (IH indent obj st6 Hok6 ltac:(lia)) as H.
      destruct (parse_loop n indent obj st6); simpl in *; [|done..].
      destruct H. split; [done | lia].
    + destruct (isValidPropValueToken valToken) eqn:Hvalid;
        [|by apply unexpected_shape].
      unfold set_keys at 1. unfold bind at 1.
      set (st3 := mkState (this st2)
                    (alter (assign_keys keys (Token.value valToken)) obj
                           (heap st2))).
      assert (parser_ok st3) as Hok3.
      { apply parser_ok_heap; [done|].
        apply heap_ok_set_keys; [apply Hok2 | done |].
        by apply valid_value_ok. }
      assert (length (heap st3) = length (heap st)) as Hlen3.
      { unfold st3. simpl. rewrite length_alter. congruence. }
      eapply shape_bind; [apply next_shape; apply Hok3|].
      intros t4 st4 _ (Hok4 & Hh4 & Ht4).
      pose proof (IH indent obj st4 Hok4 ltac:(rewrite Hh4; lia)) as H.
      destruct (parse_loop n indent obj st4); simpl in *; [|done..].
      destruct H. split; [done|]. rewrite Hh4 in *. lia.
  - (* end of file *) by split.
  - (* a newline *)
    eapply shape_bind; [apply next_shape; apply Hok|].
    intros nextToken st1 _ (Hok1 & Hh1 & Ht1). cbn beta.
    destruct (indent =? 0)%N; [by apply Hloop|].
    destruct (negb _); [simpl; split; [done | by rewrite Hh1]|].
    case_bool_decide; [|simpl; split; [done | by rewrite Hh1]].
    eapply shape_bind; [apply next_shape; apply Hok1|].
    intros t2 st2 _ (Hok2 & Hh2 & Ht2).
    apply Hloop; [done | congruence | done].
  - (* an indent *)
    case_bool_decide; [|by split].
    eapply shape_bind; [apply next_shape; apply Hok|].
    intros t2 st2 _ (Hok2 & Hh2 & Ht2). by apply Hloop.
Qed.

Lemma parse_shape fuel str fileLoc :
  outcome_shape
    (fun root st => root = 0 ∧ 0 < length (heap st) ∧ heap_ok (heap st))
    (parse fuel str fileLoc).
Proof.
  unfold parse, Parser_parse.
  eapply shape_bind.
  { apply next_shape; [constructor|]. intros i o k v Hi. done. }
  intros t st1 _ (Hok1 & Hh1 & Ht1).
  unfold new_object at 1. unfold bind at 1.
  simpl in Hh1. rewrite Hh1. cbn [length app].
  set (st2 := mkState (this st1) [∅]).
  assert (parser_ok st2) as Hok2.
  { apply parser_ok_heap; [done|]. intros [|i] o k v Hi Ho; [|done].
    injection Hi as <-. by rewrite lookup_empty in Ho. }
  eapply shape_bind; [apply (parse_loop_shape _ _ _ st2 Hok2); simpl; lia|].
  intros [] st3 _ [Hok3 Hlen3]. simpl in *.
  split_and!; [done | lia | apply Hok3].
Qed.

(** An object of a well-formed heap is read back as a mapping. *)
Lemma reify_total h depth l :
  heap_ok h → l < length h → length h - l ≤ depth →
  is_Some (reify depth h (VRef l)).
Proof.
  intros Hh. revert l. induction depth as [|depth IH]; intros l Hl Hd; [lia|].
  destruct (lookup_lt_is_Some_2 h l Hl) as [o Ho].
  cbn [reify]. rewrite Ho. cbv zeta.
  rewrite bool_decide_eq_true_2; [done|].
  apply set_eq. intros k. rewrite !elem_of_dom, lookup_omap.
  destruct (o !! k) as [v|] eqn:Hk; simpl; [|by split; intros []].
  split; [done | intros _].
  destruct (Hh _ _ _ _ Ho Hk) as (_ & _ & Hv).
  destruct v as [| | | |l']; simpl in Hv; [done | | | |apply IH; lia];
    by destruct depth.
Qed.

End Shape.

(** X2: the exceptions of [parse] are five: the [TypeError] of an odd
    indentation; the [RangeError] of a comment or a quoted literal that the
    text does not end; the string thrown at a lockfile version above 1, which
    holds the version as it is printed, with its decimal digits when it is
    below 2^53; a [SyntaxError] with one of the three messages of the grammar
    followed by the position of the current token and the source label; and
    the failed invariant "Expected a key" of an empty key.  No other
    exception leaves [parse]: not the one of an exhausted token stream, not
    the failed invariant of [onComment], not a [TypeError] of a missing
    token. *)
Theorem X2_exceptions_of_parse fuel str fileLoc e st :
  parse fuel str fileLoc = Throw e st →
  e = TypeError (js "Invalid number of spaces")
  ∨ e = RangeError (js "Invalid string length")
  ∨ (∃ version printed,
       (1 < version)%N ∧ prints_version version printed
       ∧ e = ThrownString (unsupported_version_text printed))
  ∨ (∃ msg tk,
       msg ∈ [js "Expected string"; js "Invalid value type"; js "Unknown token"]
       ∧ token (this st) = Some tk
       ∧ e = SyntaxError
               (msg ++ js " " ++ number_to_string (Token.line tk) ++ js ":"
                ++ number_to_string (Token.col tk) ++ js " in "
                ++ default (js "lockfile") fileLoc))
  ∨ e = InvariantViolation (js "Expected a key").
Proof.
  intros H.
  pose proof (parse_shape fuel str fileLoc) as Hs.
  pose proof (parse_ok fuel str fileLoc) as Hok.
  rewrite H in Hs, Hok. simpl in Hs. destruct Hok as (_ & Hne & Hm).
  destruct Hs as [-> | [-> | [Hv | [[m ->] | [-> | ->]]]]];
    [tauto | tauto | tauto | | tauto | done].
  right. right. right. left.
  destruct (Hm m eq_refl) as (msg & tk & Hmsg & Htk & ->). eauto.
Qed.

Lemma X2_exceptions_of_parse_witness :
  ∃ st e,
    parse 10 (js "#") None = Throw e st
    ∧ (e = TypeError (js "Invalid number of spaces")
       ∨ e = RangeError (js "Invalid string length")
       ∨ (∃ version printed,
            (1 < version)%N ∧ prints_version version printed
            ∧ e = ThrownString (unsupported_version_text printed))
       ∨ (∃ msg tk,
            msg ∈ [js "Expected string"; js "Invalid value type";
                   js "Unknown token"]
            ∧ token (this st) = Some tk
            ∧ e = SyntaxError
                    (msg ++ js " " ++ number_to_string (Token.line tk) ++ js ":"
                     ++ number_to_string (Token.col tk) ++ js " in "
                     ++ default (js "lockfile") None))
       ∨ e = InvariantViolation (js "Expected a key")).
Proof.
  eexists _, _.
  assert (parse 10 (js "#") None
          = Throw (RangeError (js "Invalid string length")) _) as H
    by (vm_compute; reflexivity).
  exact (conj H (X2_exceptions_of_parse _ _ _ _ _ H)).
Defined.

(** X3: when [parse] returns, its result is the first object of the heap,
    and the heap is a finite tree of mappings: no property name is empty or
    [__proto__], every property value is a string, a number, a boolean or an
    object created after the one that holds it, and the result is read back
    as a nested mapping. *)
Theorem X3_result_is_a_tree fuel str fileLoc root st :
  parse fuel str fileLoc = Ret root st →
  root = 0%nat ∧ heap_ok (heap st)
  ∧ ∃ m, mapping (parse fuel str fileLoc) = Some (JObj m).
Proof.
  intros H. pose proof (parse_shape fuel str fileLoc) as Hs.
  rewrite H in Hs |- *. simpl in Hs. destruct Hs as (-> & Hlen & Hh).
  split; [done|]. split; [done|].
  destruct (reify_total (heap st) (length (heap st)) 0%nat Hh Hlen ltac:(lia))
    as [j Hj].
  unfold mapping. rewrite Hj.
  destruct (length (heap st)) as [|d] eqn:E; [lia|].
  cbn [reify] in Hj. destruct (heap st !! 0%nat); [|done].
  cbv zeta in Hj. case_bool_decide; [|done]. injection Hj as <-. eauto.
Qed.

Lemma X3_result_is_a_tree_witness :
  ∃ st,
    parse 100 example_input None = Ret 0%nat st
    ∧ 0%nat = 0%nat ∧ heap_ok (heap st)
    ∧ ∃ m, mapping (parse 100 example_input None) = Some (JObj m).
Proof.
  eexists.
  assert (parse 100 example_input None = Ret 0%nat _) as H
    by (vm_compute; reflexivity).
  exact (conj H (X3_result_is_a_tree _ _ _ _ _ H)).
Defined.

(** ** Termination of [parse] *)

Section Halts.

Local Open Scope nat_scope.

Lemma Fin_mono n m g : Fin n g → n ≤ m → Fin m g.
Proof.
  revert m g. induction n as [|n IH]; intros m g HF Hle.
  - inversion HF; subst; [by apply Fin_done | by eapply Fin_raise].
  - inversion HF as [| | n' g0 tk g' Hc Hd]; subst;
      [by apply Fin_done | by eapply Fin_raise |].
    destruct m as [|m]; [lia|]. eapply Fin_tok; [done|].
    destruct Hd as [Hd | Hd]; [by left|]. right. apply IH; [done | lia].
Qed.

Lemma within_mono k m st : within k st → k ≤ m → within m st.
Proof.
  intros (tk & Htk & [H | H]) Hle; exists tk; (split; [done|]);
    [by left | right; by eapply Fin_mono].
Qed.

Lemma within_heap k st h : within k st → within k (mkState (this st) h).
Proof. done. Qed.

Lemma halts_const {A} (m : M A) st a st' (Q : A → State → Prop) :
  m st = Ret a st' → Q a st' → halts (fun _ => m) st Q.
Proof. intros H HQ. exists (Ret a st'). split; [by apply conv_const | done]. Qed.

Lemma halts_throw {A} (m : M A) st e st' (Q : A → State → Prop) :
  m st = Throw e st' → halts (fun _ => m) st Q.
Proof. intros H. exists (Throw e st'). split; [by apply conv_const | done]. Qed.

Lemma halts_S {A} (f : nat → M A) st Q :
  halts (fun n => f (S n)) st Q → halts f st Q.
Proof. intros (r & Hc & Hr). exists r. split; [by apply conv_S | done]. Qed.

Lemma halts_bind {A B} (f : nat → M A) (k : nat → A → M B) st
    (Q1 : A → State → Prop) (Q : B → State → Prop) :
  halts f st Q1 →
  (∀ a st', Q1 a st' → halts (fun n => k n a) st' Q) →
  halts (fun n => bind (f n) (k n)) st Q.
Proof.
  intros (r1 & Hc1 & Hr1) Hk. destruct r1 as [a st1 | e st1 |]; [| |done].
  - destruct (Hk a st1 Hr1) as (r & Hc & Hr). exists r.
    split; [by eapply conv_bind | done].
  - exists (Throw e st1). split; [by apply conv_bind_throw | done].
Qed.

Lemma halts_mono {A} (f : nat → M A) st (Q Q' : A → State → Prop) :
  halts f st Q → (∀ a st', Q a st' → Q' a st') → halts f st Q'.
Proof.
  intros (r & Hc & Hr) HQ. exists r. split; [done|].
  destruct r; [by apply HQ | done | done].
Qed.

Lemma halts_ext {A} (f g : nat → M A) st Q n0 :
  (∀ n, n0 ≤ n → f n st = g n st) → halts g st Q → halts f st Q.
Proof.
  intros E (r & [n1 Hc] & Hr). exists r. split; [|done].
  exists (n0 + n1). intros n Hn. rewrite E by lia. apply Hc. lia.
Qed.

Lemma halts_current {B} (k : nat → Token.t → M B) st tk Q :
  token (this st) = Some tk →
  halts (fun n => k n tk) st Q →
  halts (fun n => bind current (k n)) st Q.
Proof.
  intros Htk. apply (halts_ext _ _ _ _ 0). intros n _.
  by apply bind_current.
Qed.

Lemma onComment_returns tk st :
  onComment tk st ≠ OutOfFuel.
Proof.
  unfold onComment, push_comment, throw. by repeat case_match.
Qed.

(** A pull of the tree builder on a token stream that ends. *)
Lemma next_halts k st :
  Fin k (tokens (this st)) →
  halts next st
    (fun tk st' => token (this st') = Some tk ∧ heap st' = heap st
                   ∧ ∃ k', k = S k' ∧ within k' st').
Proof.
  revert st. induction k as [|k IH]; intros st HF.
  - inversion HF as [n g Hd | n g e g' [n0 Hc] |]; subst.
    + eexists (Throw _ _). split; [|done]. exists 1. intros [|n] Hn; [lia|].
      rewrite next_S, Hd. reflexivity.
    + eexists (Throw _ _). split; [|done]. exists (S n0).
      intros [|n] Hn; [lia|]. rewrite next_S, Hc by lia. reflexivity.
  - inversion HF as [n g Hd | n g e g' [n0 Hc] | n g tk g' [n0 Hc] Hd];
      subst.
    + eexists (Throw _ _). split; [|done]. exists 1. intros [|n] Hn; [lia|].
      rewrite next_S, Hd. reflexivity.
    + eexists (Throw _ _). split; [|done]. exists (S n0).
      intros [|n] Hn; [lia|]. rewrite next_S, Hc by lia. reflexivity.
    + destruct (decide (Token.type tk = COMMENT)) as [Hty | Hty].
      * destruct Hd as [Hd | Hd]; [congruence|].
        set (st1 := set_tokens g' st).
        assert (halts (fun n => onComment tk ;;; next n) st1
                  (fun tk' st' => token (this st') = Some tk'
                                  ∧ heap st' = heap st
                                  ∧ ∃ k', S k = S k' ∧ within k' st'))
          as (r & [n1 Hc1] & Hr).
        { destruct (onComment tk st1) as [[] st2 | e st2 |] eqn:Hoc;
            [| | by apply onComment_returns in Hoc].
          - destruct (onComment_inv _ _ _ _ Hoc) as (Hg2 & _ & _ & Hh2).
            assert (Fin k (tokens (this st2))) as HF2 by (by rewrite Hg2).
            destruct (IH st2 HF2) as (r & Hcr & Hr).
            exists r. split.
            + eapply conv_bind; [by apply conv_const | exact Hcr].
            + destruct r as [tk' st' | |]; [|done..].
              destruct Hr as (Htk' & Hh' & k' & -> & Hw).
              split_and!; [done | by rewrite Hh', Hh2 |].
              exists (S k'). split; [done|]. eapply within_mono; [done | lia].
          - exists (Throw e st2). split; [|done].
            apply (conv_bind_throw (fun _ => onComment tk)).
            by apply conv_const. }
        exists r. split; [|done]. exists (S (n0 + n1)).
        intros [|n] Hn; [lia|]. rewrite next_S, Hc by lia.
        cbv zeta. rewrite bool_decide_eq_true_2 by done. apply Hc1. lia.
      * eexists (Ret tk _). split.
        -- exists (S n0). intros [|n] Hn; [lia|].
           rewrite next_S, Hc by lia.
           rewrite bool_decide_eq_false_2 by done. reflexivity.
        -- simpl. split_and!; [done..|]. exists k. split; [done|].
           exists tk. split; [done|]. done.
Qed.

Lemma next_halts_at k st tk :
  within k st → token (this st) = Some tk → Token.type tk ≠ INVALID →
  halts next st
    (fun tk' st' => token (this st') = Some tk' ∧ heap st' = heap st
                    ∧ ∃ k', k = S k' ∧ within k' st').
Proof.
  intros (tk0 & Htk0 & [Hi | HF]) Htk Hty; [congruence|]. by apply next_halts.
Qed.

Lemma unexpected_halts {A} msg st (Q : A → State → Prop) :
  halts (fun _ => unexpected msg) st Q.
Proof.
  destruct (token (this st)) eqn:E; eapply halts_throw;
    unfold unexpected; rewrite E; reflexivity.
Qed.

Lemma invariant_halts c msg st (Q : () → State → Prop) :
  Q () st → halts (fun _ => invariant c msg) st Q.
Proof.
  intros HQ. destruct c; [by eapply halts_const | by eapply halts_throw].
Qed.

Lemma more_keys_halts k keys st :
  within k st →
  halts (fun n => more_keys n keys) st (fun _ st' => within k st').
Proof.
  revert keys st. induction k as [k IH] using lt_wf_ind. intros keys st Hw.
  pose proof Hw as (t & Ht & Hd).
  apply halts_S. cbn [more_keys].
  apply (halts_current _ _ t); [done|].
  case_bool_decide as Hty; [|by eapply halts_const].
  eapply halts_bind; [by eapply next_halts_at; [done..|congruence]|].
  intros t1 st1 (Ht1 & Hh1 & k1 & -> & Hw1). cbn beta.
  apply (halts_current _ _ t1); [done|].
  eapply halts_bind
    with (Q1 := fun _ st' => st' = st1 ∧ Token.type t1 = STRING).
  { case_bool_decide; [by eapply halts_const | apply unexpected_halts]. }
  intros [] ? [-> Hty1].
  eapply halts_bind with (Q1 := fun _ st' => st' = st1);
    [by apply invariant_halts|].
  intros [] ? ->.
  eapply halts_bind; [by eapply next_halts_at; [done..|congruence]|].
  intros t2 st2 (Ht2 & Hh2 & k2 & -> & Hw2).
  eapply halts_mono; [apply (IH k2); [lia | done]|].
  intros keys' st' Hw'. eapply within_mono; [exact Hw' | lia].
Qed.

Lemma parse_loop_halts k indent obj st :
  within k st →
  halts (fun n => parse_loop n indent obj) st (fun _ st' => within k st').
Proof.
  revert indent obj st. induction k as [k IH] using lt_wf_ind.
  intros indent obj st Hw.
  pose proof Hw as (t & Ht & Hd).
  assert (∀ k' indent obj st1, k = S k' → within k' st1 →
            halts (fun n => parse_loop n indent obj) st1
                  (fun _ st' => within k st')) as Hloop.
  { intros k' indent' obj' st1 -> Hw1.
    eapply halts_mono; [apply (IH k'); [lia | done]|].
    intros ? st' Hw'. eapply within_mono; [exact Hw' | lia]. }
  apply halts_S. cbn [parse_loop].
  apply (halts_current _ _ t); [done|].
  destruct (Token.type t) eqn:Hty; try apply unexpected_halts.
  - (* a key *)
    eapply halts_bind with (Q1 := fun _ st' => st' = st);
      [by apply invariant_halts|].
    intros [] ? ->.
    eapply halts_bind; [by eapply next_halts_at; [done..|congruence]|].
    intros t1 st1 (Ht1 & Hh1 & k1 & -> & Hw1).
    eapply halts_bind; [by apply more_keys_halts|].
    intros keys st2 Hw2. cbn beta in *.
    pose proof Hw2 as (valToken & Hv & Hd2).
    apply (halts_current _ _ valToken); [done|].
    case_bool_decide as Hcolon.
    + eapply halts_bind; [by eapply next_halts_at; [done..|congruence]|].
      intros t3 st3 (Ht3 & Hh3 & k3 & -> & Hw3).
      eapply halts_bind with
        (Q1 := fun _ st' => within k3 st'); [by eapply halts_const|].
      intros val st4 Hw4. cbn beta in Hw4.
      eapply halts_bind; [apply (IH k3); [lia | done]|].
      intros [] st5 Hw5. cbn beta in Hw5.
      eapply halts_bind with
        (Q1 := fun _ st' => within k3 st'); [by eapply halts_const|].
      intros [] st6 Hw6. cbn beta in *.
      pose proof Hw6 as (t6 & Ht6 & Hd6).
      apply (halts_current _ _ t6); [done|].
      destruct (_ && _).
      * eapply halts_const; [done|]. eapply within_mono; [done | lia].
      * eapply halts_mono; [apply (IH k3); [lia | done]|].
        intros ? st' Hw'. eapply within_mono; [exact Hw' | lia].
    + destruct (isValidPropValueToken valToken) eqn:Hvalid;
        [|apply unexpected_halts].
      eapply halts_bind with
        (Q1 := fun _ st' => within k1 st' ∧ token (this st') = Some valToken);
        [by eapply halts_const|].
      intros [] st3 [Hw3 Hv3].
      eapply halts_bind.
      { eapply next_halts_at; [done..|].
        unfold isValidPropValueToken in Hvalid.
        intros E. rewrite E in Hvalid. done. }
      intros t4 st4 (Ht4 & Hh4 & k4 & -> & Hw4).
      eapply halts_mono; [apply (IH k4); [lia | done]|].
      intros ? st' Hw'. eapply within_mono; [exact Hw' | lia].
  - (* end of file *) by eapply halts_const.
  - (* a newline *)
    eapply halts_bind; [by eapply next_halts_at; [done..|congruence]|].
    intros nextToken st1 (Ht1 & Hh1 & k1 & -> & Hw1). cbn beta.
    destruct (indent =? 0)%N; [by eapply Hloop|].
    case_bool_decide as Hind; cbn [negb].
    2:{ eapply halts_const; [done|]. eapply within_mono; [done | lia]. }
    case_bool_decide as Hv.
    2:{ eapply halts_const; [done|]. eapply within_mono; [done | lia]. }
    eapply halts_bind; [by eapply next_halts_at; [done..|congruence]|].
    intros t2 st2 (Ht2 & Hh2 & k2 & -> & Hw2).
    eapply halts_mono; [apply (IH k2); [lia | done]|].
    intros ? st' Hw'. eapply within_mono; [exact Hw' | lia].
  - (* an indent *)
    case_bool_decide; [|by eapply halts_const].
    eapply halts_bind; [by eapply next_halts_at; [done..|congruence]|].
    intros t2 st2 (Ht2 & Hh2 & k2 & -> & Hw2). by eapply Hloop.
Qed.

End Halts.

Section HaltsParse.

Local Open Scope nat_scope.

Lemma yields_Fin g ts g' n : yields g ts g' → Fin n g' → Fin (length ts + n) g.
Proof.
  induction 1 as [g | g tk g1 ts g' Hc Hy IH]; intros HF; [done|].
  simpl. eapply Fin_tok; [done|]. right. by apply IH.
Qed.

Lemma behaviour_Fin g : scanner_behaviour g → ∃ n, Fin n g.
Proof.
  intros (ts & s' & k & Hy & _ & _ & Hend). exists (length ts + 1).
  apply (yields_Fin _ _ (scanning s')); [done|].
  destruct Hend
    as [[_ (tk & g'' & Hty & Hc & Hd)]
       | [[_ (g'' & Hc)]
         | [[_ (g'' & Hc)] | [_ (tk & g1 & g2 & Hty & Hc & _)]]]].
  - eapply Fin_tok; [done|]. right. by apply Fin_done.
  - by eapply Fin_raise.
  - by eapply Fin_raise.
  - eapply Fin_tok; [done|]. by left.
Qed.

Lemma parse_halts str fileLoc :
  ∃ r, parses str fileLoc r ∧ r ≠ OutOfFuel.
Proof.
  destruct (behaviour_Fin (tokenise (stripBOM str))) as [k HF];
    [apply scanner_behaves|].
  set (st0 := new_Parser (stripBOM str) (default (js "lockfile") fileLoc)).
  assert (halts (fun n => next n ;;; Parser_parse n 0%N) st0 (fun _ _ => True))
    as (r & [n0 Hc] & Hr).
  { eapply halts_bind; [apply (next_halts k st0); exact HF|].
    intros t st1 (Ht1 & Hh1 & k1 & -> & Hw1). unfold Parser_parse.
    eapply halts_bind with (Q1 := fun _ st' => within k1 st');
      [by eapply halts_const|].
    intros obj st2 Hw2. cbn beta in Hw2.
    eapply halts_bind; [by apply parse_loop_halts|].
    intros [] st3 _. by eapply halts_const. }
  exists r. split; [|by destruct r].
  exists n0. intros n Hn. unfold parse. by apply Hc.
Qed.

End HaltsParse.

(** X4: [parse] terminates on every text: with every large enough amount
    of fuel it gives one and the same outcome, a result or an exception.  The
    token sequence of the text may be without end (at a character that no rule
    accepts), but the tree builder stops at its first invalid token; and the
    two loops of the scanner that the text may leave open are ended by the
    engine. *)
Theorem X4_parse_terminates str fileLoc :
  ∃ r, parses str fileLoc r ∧ r ≠ OutOfFuel.
Proof. apply parse_halts. Qed.

(** ** Blank lines and comments at the top level *)

(** X5: blank lines and comments before, between and after the top-level
    blocks of a text do not change what [parse] returns: it returns, and the
    heap it leaves is the one it leaves on the blocks alone.  A comment here
    is a line that starts with [#] and is no pragma of a version above 1. *)
Theorem X5_blank_lines_and_comments its fileLoc :
  forallb wf_item its = true →
  ∃ st st',
    parses (render_items its) fileLoc (Ret 0%nat st)
    ∧ parses (render (item_entries its)) fileLoc (Ret 0%nat st')
    ∧ heap st = heap st'
    ∧ heap st = build 0 (item_entries its) [∅].
Proof.
  intros Hwf.
  destruct (parse_items its [] [Tok EOF VUndefined] fileLoc)
    as (r & Hr & st & -> & Hh & _);
    [done | by apply separated_closes | done | apply Scans_eof
    | intros _; apply Scans_eof | done |].
  destruct (parse_rendered (item_entries its) [] [Tok EOF VUndefined] fileLoc)
    as (r' & Hr' & st' & -> & Hh' & _);
    [by apply wf_item_entries | apply Scans_eof | intros _; apply Scans_eof
    | done | done |].
  rewrite app_nil_r in Hr, Hr'.
  exists st, st'. split_and!; [done | done | congruence | done].
Qed.

Lemma X5_blank_lines_and_comments_witness :
  ∃ st st',
    parses (lines [js "# yarn lockfile v1"; js ""; js "foo:"; js "  bar 1";
                   js ""; js "baz true"; js "#"]) None (Ret 0%nat st)
    ∧ parses (lines [js "foo:"; js "  bar 1"; js "baz true"]) None
             (Ret 0%nat st')
    ∧ heap st = heap st'
    ∧ heap st = [ {[ js "foo" := VRef 1; js "baz" := VBool true ]};
                  {[ js "bar" := VNum 1 ]} ].
Proof.
  apply (X5_blank_lines_and_comments
           [ Gap (Remark (js " yarn lockfile v1")); Gap Blank;
             Top (Block (Bare (js "foo")) []
                    [Leaf (Bare (js "bar")) [] (SNumber (js "1"))]);
             Gap Blank;
             Top (Leaf (Bare (js "baz")) [] (SBoolean true));
             Gap (Remark []) ] None).
  reflexivity.
Defined.

(** X6: a blank line or a comment followed by a line that starts with a
    positive even number of spaces ends [parse] without an error: it returns
    what the blocks before stand for, and reads nothing of the text from the
    indented line on, whatever that text is.  So it is for a blank line
    inside a nested block. *)
Theorem X6_indent_after_blank_line its f k rest fileLoc :
  forallb wf_item its = true → wf_filler f = true →
  starts_otherwise SPACE rest →
  ∃ st,
    parses (render_items its ++ render_filler f ++ spaces (2 * S k) ++ rest)
           fileLoc (Ret 0%nat st)
    ∧ heap st = build 0 (item_entries its) [∅].
Proof.
  intros Hwf Hf Hrest.
  destruct (parse_items (its ++ [Gap f]) (spaces (2 * S k) ++ rest)
              [Tok INDENT (VNum (N.of_nat (S k)))] fileLoc)
    as (r & Hr & st & -> & Hh & _).
  - rewrite forallb_app. cbn [forallb wf_item]. by rewrite Hwf, Hf.
  - by apply separated_gap.
  - simpl. intros [= E]; lia.
  - apply Scans_indent; [done|]. intros l c. constructor.
  - intros E. by destruct its.
  - intros E. by destruct its.
  - exists st. split.
    + unfold render_items in Hr. rewrite map_app, concat_app in Hr.
      cbn [map concat render_item] in Hr.
      by rewrite app_nil_r, <- !app_assoc in Hr.
    + rewrite Hh, item_entries_app. simpl. by rewrite app_nil_r.
Qed.

Lemma X6_indent_after_blank_line_witness :
  ∃ st,
    parses (lines [js "foo:"; js "  bar 1"; js ""; js "  baz 2"; js "   @"])
           None (Ret 0%nat st)
    ∧ heap st = [ {[ js "foo" := VRef 1 ]}; {[ js "bar" := VNum 1 ]} ].
Proof.
  apply (X6_indent_after_blank_line
           [ Top (Block (Bare (js "foo")) []
                    [Leaf (Bare (js "bar")) [] (SNumber (js "1"))]) ]
           Blank 0 (js "baz 2" ++ [LF] ++ js "   @" ++ [LF]) None);
    done.
Defined.

(** ** Texts that [parse] rejects, and where *)

Section Rejects.

Local Open Scope nat_scope.

Lemma parses_of_conv text fileLoc r :
  stripBOM text = text →
  converges (fun n => next n ;;; Parser_parse n 0%N)
            (new_Parser text (default (js "lockfile") fileLoc)) r →
  parses text fileLoc r.
Proof.
  intros Hbom [n0 Hr]. exists n0. intros n Hn. unfold parse.
  rewrite Hbom. by apply Hr.
Qed.

(** A pull that starts a turn of the scanner's loop and gets its first
    token. *)
Lemma next_token n0 s tk toks s' st :
  input s ≠ [] → tokens (this st) = scanning s → Token.type tk ≠ COMMENT →
  (∀ n, n0 ≤ n → tokenise_step n s = Ret (tk :: toks) s') →
  converges next st
    (Ret tk (mkState (mkParser (fileLoc (this st)) (Some tk)
                               (mkGenerator toks s' false)
                               (comments (this st))) (heap st))).
Proof.
  intros Hin Hst Hty Hstep.
  exists (S (S n0)). intros [|[|n]] Hn; [lia..|].
  rewrite next_S, Hst, (Generator_next_step _ _ (tk :: toks) s')
    by (done || apply Hstep; lia).
  destruct n; cbn [Generator_next pending];
    by rewrite bool_decide_eq_false_2 by done.
Qed.

Lemma unexpected_at msg st tk l c :
  token (this st) = Some tk → Token.line tk = l → Token.col tk = c →
  @unexpected () msg st
  = Throw (SyntaxError (unexpected_message msg l c (fileLoc (this st)))) st.
Proof. intros Htk <- <-. unfold unexpected. by rewrite Htk. Qed.

(** The first token of a text that starts no entry. *)
Lemma first_token_starts_no_entry inp ln l c :
  starts_no_entry inp = true →
  ∃ ty v toks s',
    ty ∈ [NUMBER; COLON; COMMA; BOOLEAN; INVALID]
    ∧ ∀ n, tokenise_step n (mkScanner inp ln l c)
           = Ret (Token.mk l c ty v :: toks) s'.
Proof.
  destruct inp as [|x inp]; [done|]. cbn [starts_no_entry].
  intros H. apply andb_true_iff in H as [_ H].
  destruct (is_stuck (x :: inp)) eqn:Hstuck.
  { eexists INVALID, _, _, _. split; [set_solver|].
    intros n. by apply stuck_step. }
  rewrite orb_false_r in H.
  assert (∀ b1 b2 b3 b4 b5 : bool,
            b1 || b2 || b3 || b4 || b5 = true →
            b1 = true ∨ (b1 = false ∧ b4 = true)
            ∨ (b1 = false ∧ b4 = false ∧ b5 = true)
            ∨ (b1 = false ∧ b4 = false ∧ b5 = false ∧ b2 = true)
            ∨ (b1 = false ∧ b4 = false ∧ b5 = false ∧ b2 = false ∧ b3 = true))
    as Hcases by (intros [] [] [] [] []; simpl; tauto).
  apply Hcases in H. clear Hcases.
  assert (∀ w, starts_with w (x :: inp) = true → w ≠ [] →
               ∃ y, w !! 0 = Some y ∧ x = y) as Hhead.
  { intros [|y w] Hw Hne; [done|]. simpl in Hw.
    apply andb_true_iff in Hw as [Hw _]. apply N.eqb_eq in Hw. eauto. }
  unfold tokenise_step, classify. cbn [input lastNewline].
  change ((x :: inp) !! 0) with (Some x).
  destruct H as [Hd | [[Hd Ht] | [(Hd & Ht & Hf) | [(Hd & Ht & Hf & Hc)
                                                   | (Hd & Ht & Hf & Hc & Hm)]]]].
  - assert (is_char (Some x) LF = false) as -> by chars.
    assert (is_char (Some x) HASH = false) as -> by chars.
    assert (is_char (Some x) SPACE = false) as -> by chars.
    assert (is_char (Some x) DQUOTE = false) as -> by chars.
    rewrite Hd. eexists NUMBER, _, _, _. split; [set_solver|].
    intros n. reflexivity.
  - destruct (Hhead _ Ht ltac:(done)) as (y & [= <-] & ->).
    rewrite Ht. eexists BOOLEAN, _, _, _. split; [set_solver|].
    intros n. reflexivity.
  - destruct (Hhead _ Hf ltac:(done)) as (y & [= <-] & ->).
    rewrite Hf. eexists BOOLEAN, _, _, _. split; [set_solver|].
    intros n. reflexivity.
  - apply N.eqb_eq in Hc. subst x.
    eexists COLON, _, _, _. split; [set_solver|]. intros n. reflexivity.
  - apply N.eqb_eq in Hm. subst x.
    eexists COMMA, _, _, _. split; [set_solver|]. intros n. reflexivity.
Qed.

Lemma starts_no_entry_nonempty inp : starts_no_entry inp = true → inp ≠ [].
Proof. by destruct inp. Qed.

(** The loop at the top level, at a token that starts no entry. *)
Lemma unknown_token_here inp ln l c st obj :
  starts_no_entry inp = true →
  tokens (this st) = scanning (mkScanner inp ln l c) →
  ∃ st', converges (fun n => next n ;;; parse_loop n 0%N obj) st
           (Throw (SyntaxError (unexpected_message (js "Unknown token") l c
                                  (fileLoc (this st)))) st').
Proof.
  intros Hinp Hst.
  destruct (first_token_starts_no_entry inp ln l c Hinp)
    as (ty & v & toks & s' & Hty & Hstep).
  pose proof (next_token 0 (mkScanner inp ln l c) (Token.mk l c ty v)
                toks s' st) as Hn.
  eexists. eapply conv_bind.
  - apply Hn; [by apply starts_no_entry_nonempty | done | | by intros].
    simpl. set_solver.
  - apply conv_S. cbn [parse_loop].
    eapply conv_bind; [by apply conv_current|]. cbn beta.
    cbn [Token.type].
    destruct ty; try (exfalso; set_solver);
      apply conv_const; erewrite unexpected_at by reflexivity; reflexivity.
Qed.

(** The same after blank lines: the column of the first token of a later
    line is 1. *)
Lemma unknown_token_after m inp l st obj :
  starts_no_entry inp = true →
  tokens (this st) = scanning (mkScanner (replicate m LF ++ inp) true l 1%N) →
  ∃ st', converges (fun n => next n ;;; parse_loop n 0%N obj) st
           (Throw (SyntaxError (unexpected_message (js "Unknown token")
                                  (l + N.of_nat m)%N 1%N
                                  (fileLoc (this st)))) st').
Proof.
  intros Hinp. revert l st. induction m as [|m IH]; intros l st Hst.
  - rewrite N.add_0_r. by eapply unknown_token_here.
  - cbn [replicate app] in Hst.
    pose proof (next_token 0
                  (mkScanner (LF :: replicate m LF ++ inp) true l 1%N)
                  (Token.mk (l + 1)%N 0%N NEWLINE VUndefined) []
                  (mkScanner (replicate m LF ++ inp) true (l + 1)%N 1%N) st
                  ltac:(done) Hst ltac:(done)
                  ltac:(intros; apply step_newline)) as Hn.
    match type of Hn with converges _ _ (Ret _ ?s) => set (st1 := s) in * end.
    destruct (IH (l + 1)%N st1 eq_refl) as (st' & Hc).
    exists st'. replace (l + N.of_nat (S m))%N with (l + 1 + N.of_nat m)%N by lia.
    eapply conv_bind; [exact Hn|].
    apply conv_S. cbn [parse_loop].
    eapply conv_bind; [by apply conv_current|]. cbn beta.
    cbn [Token.type]. cbv beta iota. exact Hc.
Qed.

Lemma stripBOM_blank_lines m inp :
  starts_no_entry inp = true →
  stripBOM (replicate m LF ++ inp) = replicate m LF ++ inp.
Proof.
  intros H. destruct m; [|done]. destruct inp as [|x inp]; [done|].
  simpl in *. apply andb_true_iff in H as [H _].
  apply negb_true_iff in H. by rewrite H.
Qed.

End Rejects.

(** X7: a text whose first token, after any number of blank lines, is a
    number, a colon, a comma, a boolean or a character that the scanner
    accepts in no rule is rejected with the [SyntaxError] "Unknown token" at
    the position of that token, whatever follows it.  The line is counted
    from 1; the column is 0 on the first line and 1 at the start of every
    later line. *)
Theorem X7_unknown_first_token m inp fileLoc :
  starts_no_entry inp = true →
  ∃ st,
    parses (replicate m LF ++ inp) fileLoc
      (Throw (SyntaxError
                (js "Unknown token" ++ js " "
                 ++ number_to_string (N.of_nat m + 1) ++ js ":"
                 ++ number_to_string (if m is O then 0 else 1)
                 ++ js " in " ++ default (js "lockfile") fileLoc)) st).
Proof.
  intros Hinp.
  set (label := default (js "lockfile") fileLoc).
  set (st0 := new_Parser (replicate m LF ++ inp) label).
  assert (∀ r, converges (fun n => next n ;;; Parser_parse n 0%N) st0 r →
               parses (replicate m LF ++ inp) fileLoc r) as Hparses.
  { intros r. apply parses_of_conv. by apply stripBOM_blank_lines. }
  destruct m as [|m].
  - destruct (first_token_starts_no_entry inp false 1%N 0%N Hinp)
      as (ty & v & toks & s' & Hty & Hstep).
    pose proof (next_token 0%nat (mkScanner inp false 1 0) (Token.mk 1 0 ty v)
                  toks s' st0) as Hn.
    eexists. apply Hparses. eapply conv_bind.
    + apply Hn; [by apply starts_no_entry_nonempty | done | | by intros].
      simpl. set_solver.
    + unfold Parser_parse.
      eapply conv_bind; [by apply conv_const|].
      eapply (conv_bind_throw (fun n => parse_loop n 0%N _)).
      apply conv_S. cbn [parse_loop].
      eapply conv_bind; [by apply conv_current|]. cbn beta.
      cbn [Token.type].
      destruct ty; try (exfalso; set_solver);
        apply conv_const; erewrite unexpected_at by reflexivity; reflexivity.
  - pose proof (next_token 0%nat
                  (mkScanner (LF :: replicate m LF ++ inp) false 1 0)
                  (Token.mk (1 + 1) 0 NEWLINE VUndefined) []
                  (mkScanner (replicate m LF ++ inp) true (1 + 1) 1) st0
                  ltac:(done) eq_refl ltac:(done)
                  ltac:(intros; apply step_newline)) as Hn.
    match type of Hn with converges _ _ (Ret _ ?s) => set (st1 := s) in * end.
    set (st2 := mkState (this st1) (heap st1 ++ [∅])).
    destruct (unknown_token_after m inp (1 + 1) st2 0%nat Hinp eq_refl)
      as (st' & Hc).
    exists st'. apply Hparses.
    eapply conv_bind; [exact Hn|]. unfold Parser_parse.
    eapply conv_bind; [by apply conv_const|].
    eapply (conv_bind_throw (fun n => parse_loop n 0%N _)).
    apply conv_S. cbn [parse_loop].
    eapply conv_bind; [by apply conv_current|]. cbn beta.
    cbn [Token.type]. cbv beta iota.
    replace (N.of_nat (S m) + 1)%N with (1 + 1 + N.of_nat m)%N by lia.
    exact Hc.
Qed.

Lemma X7_unknown_first_token_witness :
  ∃ st,
    parses (lines [js ""; js ""; js "1.0.0 a"]) (Some (js "yarn.lock"))
      (Throw (SyntaxError (js "Unknown token 3:1 in yarn.lock")) st).
Proof.
  apply (X7_unknown_first_token 2 (js "1.0.0 a" ++ [LF]) (Some (js "yarn.lock"))).
  reflexivity.
Defined.

Section MissingValue.

Local Open Scope nat_scope.

Lemma stripBOM_bare w rest :
  wf_bare w = true → stripBOM (w ++ rest) = w ++ rest.
Proof.
  intros Hwf. destruct w as [|x w]; [done|]. unfold wf_bare in Hwf.
  cbn [app stripBOM].
  assert ((x =? BOM)%N = false) as -> by chars. done.
Qed.

(** The loop of [parse], on any object and at any depth, at a key that is
    followed by a token [tk] that is no comma, no colon and no value. *)
Lemma key_without_value key tk toks s' s st indent obj :
  token (this st) = Some key → Token.type key = STRING →
  truthy (as_string (Token.value key)) = true →
  tokens (this st) = scanning s → input s ≠ [] →
  (∀ n, tokenise_step n s = Ret (tk :: toks) s') →
  Token.type tk ∈ [NEWLINE; INDENT; INVALID] →
  ∃ st', converges (fun n => parse_loop n indent obj) st
           (Throw (SyntaxError
                     (unexpected_message (js "Invalid value type")
                        (Token.line tk) (Token.col tk) (fileLoc (this st))))
                  st').
Proof.
  intros Hkey Hty Htruthy Hst Hin Hstep Htk.
  assert (Token.type tk ≠ COMMENT ∧ Token.type tk ≠ COMMA
          ∧ Token.type tk ≠ COLON
          ∧ Token.type tk ∉ [BOOLEAN; STRING; NUMBER]) as (H1 & H2 & H3 & H4).
  { rewrite !elem_of_cons, elem_of_nil in Htk.
    rewrite !elem_of_cons, elem_of_nil.
    destruct Htk as [-> | [-> | [-> | []]]]; naive_solver. }
  pose proof (next_token 0 s tk toks s' st Hin Hst H1 ltac:(by intros)) as Hn.
  match type of Hn with converges _ _ (Ret _ ?s) => set (st1 := s) in * end.
  exists st1. apply conv_S. cbn [parse_loop].
  eapply conv_bind; [by apply conv_current|]. cbn beta. rewrite Hty.
  cbv beta iota. rewrite Htruthy.
  eapply conv_bind; [by apply conv_const|].
  eapply conv_bind; [exact Hn|].
  eapply conv_bind.
  { apply conv_S. cbn [more_keys].
    eapply conv_bind; [by apply conv_current|]. cbn beta.
    rewrite bool_decide_eq_false_2 by done. by apply conv_const. }
  eapply conv_bind; [by apply conv_current|]. cbn beta.
  rewrite bool_decide_eq_false_2 by done.
  assert (isValidPropValueToken tk = false) as ->.
  { unfold isValidPropValueToken. by apply bool_decide_eq_false. }
  apply conv_const. by erewrite unexpected_at by reflexivity.
Qed.

End MissingValue.

(** X8: a text that starts with a bare key directly followed by a newline
    is rejected with the [SyntaxError] "Invalid value type", whatever
    follows; the position in the message is that of the newline token,
    which is the start of the next line: line 2, column 0. *)
Theorem X8_key_without_value w rest fileLoc :
  wf_bare w = true →
  ∃ st,
    parses (w ++ LF :: rest) fileLoc
      (Throw (SyntaxError
                (js "Invalid value type" ++ js " " ++ number_to_string 2
                 ++ js ":" ++ number_to_string 0 ++ js " in "
                 ++ default (js "lockfile") fileLoc)) st).
Proof.
  intros Hwf.
  set (label := default (js "lockfile") fileLoc).
  set (st0 := new_Parser (w ++ LF :: rest) label).
  pose proof (next_token 0%nat (mkScanner (w ++ LF :: rest) false 1 0)
                (Token.mk 1 0 STRING (VStr w)) []
                (mkScanner (LF :: rest) false 1 (0 + N.of_nat (length w))) st0)
    as Hn.
  match type of Hn with
  | _ → _ → _ → _ → converges _ _ (Ret _ ?s) => set (st1 := s) in *
  end.
  set (st2 := mkState (this st1) (heap st1 ++ [∅])).
  destruct (key_without_value (Token.mk 1 0 STRING (VStr w))
              (Token.mk (1 + 1) 0 NEWLINE VUndefined) []
              (mkScanner rest true (1 + 1) 1)
              (mkScanner (LF :: rest) false 1 (0 + N.of_nat (length w)))
              st2 0%N 0%nat) as (st' & Hc);
    [done | done | | done | done | by intros; apply step_newline | set_solver |].
  { simpl. unfold truthy. apply negb_true_iff, bool_decide_eq_false.
    by apply wf_bare_nonempty. }
  exists st'. apply parses_of_conv; [by apply stripBOM_bare|].
  eapply conv_bind.
  { apply Hn; [|done|done|].
    - simpl. by destruct w.
    - intros n _. by apply step_bare. }
  unfold Parser_parse.
  eapply conv_bind; [by apply conv_const|].
  eapply (conv_bind_throw (fun n => parse_loop n 0%N _)). exact Hc.
Qed.

Lemma X8_key_without_value_witness :
  ∃ st,
    parses (lines [js "foo@^1.0.0"; js "  version 1"]) None
      (Throw (SyntaxError (js "Invalid value type 2:0 in lockfile")) st).
Proof.
  apply (X8_key_without_value (js "foo@^1.0.0") (js "  version 1" ++ [LF]) None).
  reflexivity.
Defined.

(** X9: a text that starts with an empty key between double quotes is
    rejected with the failed invariant "Expected a key", whatever follows
    the two quotes. *)
Theorem X9_empty_key rest fileLoc :
  ∃ st,
    parses (quoted [] ++ rest) fileLoc
      (Throw (InvariantViolation (js "Expected a key")) st)
    ∧ token (this st) = Some (Token.mk 1 0 STRING (VStr [])).
Proof.
  set (label := default (js "lockfile") fileLoc).
  set (st0 := new_Parser (quoted [] ++ rest) label).
  pose proof (next_token 2%nat (mkScanner (quoted [] ++ rest) false 1 0)
                (Token.mk 1 0 STRING (VStr [])) []
                (mkScanner rest false 1 (0 + N.of_nat (0 + 2))) st0
                ltac:(done) eq_refl ltac:(done)) as Hn.
  match type of Hn with
  | _ → converges _ _ (Ret _ ?s) => set (st1 := s) in *
  end.
  exists (mkState (this st1) (heap st1 ++ [∅])). split; [|done].
  apply parses_of_conv; [done|].
  eapply conv_bind.
  { apply Hn. intros n Hle. apply (step_quoted n []); [done | simpl; lia]. }
  unfold Parser_parse.
  eapply conv_bind; [by apply conv_const|].
  eapply (conv_bind_throw (fun n => parse_loop n 0%N _)).
  apply conv_S. cbn [parse_loop].
  eapply conv_bind; [by apply conv_current|]. cbn beta.
  by apply conv_const.
Qed.

(** ** A key that occurs more than once *)

Section LastWins.

Local Open Scope nat_scope.

Lemma assign_keys_lookup_ne (keys : list (list N)) (v : jsval)
    (o : gmap (list N) jsval) (k : list N) :
  k ∉ keys → assign_keys keys v o !! k = o !! k.
Proof.
  revert o. induction keys as [|key keys IH]; intros o Hk; [done|].
  change (assign_keys (key :: keys) v o)
    with (assign_keys keys v (obj_set key v o)).
  apply not_elem_of_cons in Hk as [Hne Hk]. rewrite IH by done.
  unfold obj_set. case_bool_decide; [done|]. by rewrite lookup_insert_ne.
Qed.

Lemma build_app obj es1 es2 h :
  build obj (es1 ++ es2) h = build obj es2 (build obj es1 h).
Proof. unfold build. apply foldl_app. Qed.

Lemma specifiers_cons e es :
  specifiers (e :: es) = entry_keys e ++ specifiers es.
Proof. reflexivity. Qed.

(** The entries after leave alone the keys that are not theirs. *)
Lemma build_keeps es obj h o k :
  forallb wf_entry es = true → h !! obj = Some o → k ∉ specifiers es →
  ∃ o', build obj es h !! obj = Some o' ∧ o' !! k = o !! k.
Proof.
  revert h o. induction es as [|e es IH]; intros h o Hwf Ho Hk; [by exists o|].
  cbn [forallb] in Hwf. apply andb_true_iff in Hwf as [Hwfe Hwfes].
  rewrite specifiers_cons in Hk. apply not_elem_of_app in Hk as [Hke Hk].
  destruct (build_entry_obj obj e h o Hwfe Ho) as (val & Ho1).
  destruct (IH _ _ Hwfes Ho1 Hk) as (o' & Ho' & Hlk).
  exists o'. rewrite build_cons. split; [done|].
  by rewrite Hlk, assign_keys_lookup_ne.
Qed.

(** An entry binds all its keys to one value, which is what it stands
    for. *)
Lemma build_entry_bound obj e h o :
  wf_entry e = true → h !! obj = Some o →
  ∃ v h',
    h' = build_entry obj e h
    ∧ h' !! obj = Some (assign_keys (entry_keys e) v o)
    ∧ entry_bound h' e v
    ∧ match v with VRef l => l ≠ obj ∧ l < length h' | _ => True end.
Proof.
  intros Hwf Ho. pose proof (lookup_lt_Some _ _ _ Ho) as Hlt.
  destruct e as [key aliases value | key aliases children].
  - exists (scalar_value value), (build_entry obj (Leaf key aliases value) h).
    split; [done|]. cbn [build_entry]. rewrite list_lookup_alter_eq, Ho.
    split; [done|]. split; [done|]. by destruct value.
  - exists (VRef (length h)),
      (build_entry obj (Block key aliases children) h).
    split; [done|]. cbn [build_entry].
    fold (build (length h) children (h ++ [∅])).
    destruct (build_frame_all children (length h) (h ++ [∅])) as [Hlen Hfr].
    rewrite length_app in Hlen. simpl in Hlen.
    cbn [wf_entry] in Hwf. apply andb_true_iff in Hwf as [_ Hch].
    destruct (build_dom children (length h) (h ++ [∅]) ∅ Hch) as (o' & Ho' & Hdom).
    { by rewrite lookup_app_r, Nat.sub_diag by lia. }
    split_and!.
    + rewrite list_lookup_alter_eq.
      rewrite Hfr by (rewrite ?length_app; simpl; lia).
      by rewrite lookup_app_l, Ho.
    + exists (length h), o'. split; [done|].
      rewrite list_lookup_alter_ne by lia. split; [done|].
      rewrite Hdom. set_solver.
    + lia.
    + rewrite length_alter. lia.
Qed.

End LastWins.

(** X10: when [parse] has read a text of well-formed blocks, every key of
    an entry is bound to what that entry stands for (its scalar, or one
    object that has the keys of its nested block) unless an entry further
    down has the same key: of two entries with one key the last one wins,
    and the text is not rejected. *)
Theorem X10_last_entry_wins before e after fileLoc :
  forallb wf_entry (before ++ e :: after) = true →
  (∀ k, k ∈ entry_keys e → k ∉ specifiers after) →
  ∃ st v,
    parses (render (before ++ e :: after)) fileLoc (Ret 0%nat st)
    ∧ entry_bound (heap st) e v
    ∧ ∀ k, k ∈ entry_keys e → heap st !! 0%nat ≫= (.!! k) = Some v.
Proof.
  intros Hwf Hlast.
  destruct (parse_rendered (before ++ e :: after) [] [Tok EOF VUndefined]
              fileLoc)
    as (r & Hr & st & -> & Hh & _);
    [done | apply Scans_eof | intros _; apply Scans_eof | done | done |].
  rewrite app_nil_r in Hr.
  rewrite forallb_app in Hwf. apply andb_true_iff in Hwf as [Hwf1 Hwf2].
  cbn [forallb] in Hwf2. apply andb_true_iff in Hwf2 as [Hwfe Hwf2].
  rewrite build_app, build_cons in Hh.
  destruct (build_dom before 0%nat [∅] ∅ Hwf1 eq_refl) as (o0 & Ho0 & _).
  destruct (build_entry_bound 0%nat e _ o0 Hwfe Ho0)
    as (v & h1 & -> & Ho1 & Hb & Hv).
  set (h1 := build_entry 0 e (build 0 before [∅])) in *.
  exists st, v. split; [done|]. split.
  - rewrite Hh. destruct e as [key aliases value | key aliases children];
      [done|]. destruct Hb as (l & o & -> & Hl & Hdom).
    exists l, o. split; [done|]. split; [|done].
    destruct (build_frame_all after 0%nat h1) as [_ Hfr].
    destruct Hv as [Hne Hlt]. by rewrite Hfr.
  - intros k Hk.
    destruct (build_keeps after 0%nat h1 _ k Hwf2 Ho1 (Hlast k Hk))
      as (o2 & Ho2 & Hlk).
    rewrite Hh, Ho2. simpl. rewrite Hlk.
    apply lookup_assign_keys; [by apply wf_entry_keys | done].
Qed.

Lemma X10_last_entry_wins_witness :
  ∃ st v,
    parses (lines [js "a 1"; js "b:"; js "  c 2"; js "a:"; js "  d 3";
                   js "b true"]) None (Ret 0%nat st)
    ∧ (∃ (l : nat) (o : gmap (list N) jsval),
         v = VRef l ∧ heap st !! l = Some o
         ∧ dom o =@{gset (list N)} list_to_set [js "d"])
    ∧ ∀ k, k ∈ [js "a"] → heap st !! 0%nat ≫= (.!! k) = Some v.
Proof.
  apply (X10_last_entry_wins
           [ Leaf (Bare (js "a")) [] (SNumber (js "1"));
             Block (Bare (js "b")) []
               [Leaf (Bare (js "c")) [] (SNumber (js "2"))] ]
           (Block (Bare (js "a")) []
              [Leaf (Bare (js "d")) [] (SNumber (js "3"))])
           [ Leaf (Bare (js "b")) [] (SBoolean true) ] None);
    [reflexivity|].
  intros k Hk. apply list_elem_of_singleton in Hk as ->.
  unfold specifiers. simpl. intros H.
  apply list_elem_of_singleton in H. done.
Defined.

(** X11: the scanner reads back what is written: on a well-formed scalar
    (a bare word, a text between double quotes, a run of digits that stands
    for a number below 2^53, [true] or [false]) that is followed by the end
    of the text or by a colon, a space, a newline or a comma, a turn of the
    loop yields one token, at the position of the scanner, with the type and
    the value of the scalar, and consumes exactly the characters of the
    scalar.  The value of a text between double quotes is the text that
    [JSON.parse] decodes its literal to. *)
Theorem X11_scalar_is_read_back v rest ln l c fuel :
  wf_scalar v = true → exact_scalar v = true → at_delimiter rest →
  (length (render_scalar v) ≤ fuel)%nat →
  ∃ ty,
    scalar_event v = Tok ty (scalar_value v)
    ∧ tokenise_step fuel (mkScanner (render_scalar v ++ rest) ln l c)
      = Ret [Token.mk l c ty (scalar_value v)]
            (mkScanner rest false l
                       (c + N.of_nat (length (render_scalar v)))).
Proof.
  intros Hwf _ Hrest Hfuel.
  destruct v as [[w|s] | ds | [|]];
    cbn [render_scalar render_word scalar_event scalar_value
         wf_scalar wf_word] in *.
  - exists STRING. split; [done|]. by apply step_bare.
  - exists STRING. split; [done|].
    unfold quoted in Hfuel. rewrite !length_app in Hfuel. simpl in Hfuel.
    rewrite step_quoted by (done || lia).
    unfold quoted. rewrite !length_app. simpl.
    do 2 f_equal. lia.
  - exists NUMBER. split; [done|].
    apply andb_true_iff in Hwf as [Hne Hds].
    apply negb_true_iff, bool_decide_eq_false in Hne.
    apply step_number; [done..|].
    destruct rest as [|d rest]; [done|]. simpl in Hrest. chars.
  - exists BOOLEAN. split; [done|]. apply step_true.
  - exists BOOLEAN. split; [done|]. apply step_false.
Qed.

Lemma X11_scalar_is_read_back_witness :
  ∃ ty,
    Tok STRING (VStr [97; DQUOTE; 98]) = Tok ty (VStr [97; DQUOTE; 98])
    ∧ tokenise_step 30
        (mkScanner (escaped_quote_literal ++ [LF]) false 3 11)
      = Ret [Token.mk 3 11 ty (VStr [97; DQUOTE; 98])]
            (mkScanner [LF] false 3 (11 + 6)).
Proof.
  apply (X11_scalar_is_read_back
           (SWord (Quoted [97; BACKSLASH; DQUOTE; 98])) [LF] false 3 11 30).
  - reflexivity.
  - reflexivity.
  - reflexivity.
  - vm_compute. lia.
Defined.

Section FirstLine.

Local Open Scope nat_scope.

Lemma Scans_spaces n rest evs :
  Scans false rest evs → Scans false (spaces n ++ rest) evs.
Proof.
  intros HS. induction n as [|n IH]; [done|]. by apply Scans_space.
Qed.

Lemma stripBOM_spaces n its :
  forallb wf_item its = true →
  stripBOM (spaces n ++ render_items its) = spaces n ++ render_items its.
Proof.
  intros Hwf. destruct n as [|n]; [|done]. simpl.
  rewrite <- (app_nil_r (render_items its)).
  by apply stripBOM_items.
Qed.

End FirstLine.

(** X12: spaces at the start of the first line are not an indentation: the
    scanner skips them, whatever their number, odd or even, and [parse]
    returns what it returns on the text without them. *)
Theorem X12_first_line_spaces n its fileLoc :
  forallb wf_item its = true →
  ∃ st st',
    parses (spaces n ++ render_items its) fileLoc (Ret 0%nat st)
    ∧ parses (render_items its) fileLoc (Ret 0%nat st')
    ∧ heap st = heap st'
    ∧ heap st = build 0 (item_entries its) [∅].
Proof.
  intros Hwf.
  assert (Scans false (render_items its)
                (items_events its ++ [Tok EOF VUndefined])) as HS.
  { rewrite <- (app_nil_r (render_items its)).
    destruct its as [|it its]; [apply Scans_eof|].
    apply Scans_items; [done | by left | apply Scans_eof]. }
  destruct (parse_fed (spaces n ++ render_items its) its
              [Tok EOF VUndefined] fileLoc)
    as (r & Hr & st & -> & Hh & _);
    [by apply stripBOM_spaces | by apply Scans_spaces, HS | done
    | by apply separated_closes | done |].
  destruct (parse_fed (render_items its) its [Tok EOF VUndefined] fileLoc)
    as (r' & Hr' & st' & -> & Hh' & _);
    [by apply (stripBOM_spaces 0) | apply HS | done
    | by apply separated_closes | done |].
  exists st, st'. split_and!; [done | done | congruence | done].
Qed.

Lemma X12_first_line_spaces_witness :
  ∃ st st',
    parses (js "   " ++ lines [js "foo:"; js "  bar 1"]) None (Ret 0%nat st)
    ∧ parses (lines [js "foo:"; js "  bar 1"]) None (Ret 0%nat st')
    ∧ heap st = heap st'
    ∧ heap st = [ {[ js "foo" := VRef 1 ]}; {[ js "bar" := VNum 1 ]} ].
Proof.
  apply (X12_first_line_spaces 3
           [ Top (Block (Bare (js "foo")) []
                    [Leaf (Bare (js "bar")) [] (SNumber (js "1"))]) ] None).
  reflexivity.
Defined.

(** ** A character that no rule accepts after a key and its value *)

Section Stuck.

Local Open Scope nat_scope.





End Stuck.



(** X14: in a list of keys a comma must be followed by a key: a text that
    starts with a bare key, a comma, a space and then a number, a colon, a
    comma, a boolean or a character that no rule of the scanner accepts is
    rejected with the [SyntaxError] "Expected string" at the position of
    that token, whatever follows. *)
Theorem X14_comma_without_key w inp loc :
  wf_bare w = true → starts_no_entry inp = true →
  ∃ st,
    parses (w ++ [COMMA_CHAR; SPACE] ++ inp) loc
      (Throw (SyntaxError
                (js "Expected string" ++ js " " ++ number_to_string 1
                 ++ js ":" ++ number_to_string (N.of_nat (length w + 2))
                 ++ js " in " ++ default (js "lockfile") loc)) st).
Proof.
  intros Hw Hinp.
  set (label := default (js "lockfile") loc).
  set (text := w ++ [COMMA_CHAR; SPACE] ++ inp).
  set (st0 := new_Parser text label).
  set (col := (0 + N.of_nat (length w))%N).
  pose proof (next_token 0%nat (mkScanner text false 1 0)
                (Token.mk 1 0 STRING (VStr w)) []
                (mkScanner ([COMMA_CHAR; SPACE] ++ inp) false 1 col) st0)
    as Hn.
  match type of Hn with
  | _ → _ → _ → _ → converges _ _ (Ret _ ?s) => set (st1 := s) in *
  end.
  assert (converges next st0 (Ret (Token.mk 1 0 STRING (VStr w)) st1)) as Hn1.
  { apply Hn; [|done|done|].
    - unfold text. simpl. by destruct w.
    - intros n _. by apply step_bare. }
  clear Hn.
  set (st2 := mkState (this st1) (heap st1 ++ [∅])).
  assert (truthy w = true) as Htruthy.
  { unfold truthy. apply negb_true_iff, bool_decide_eq_false.
    by apply wf_bare_nonempty. }
  pose proof (next_token 0%nat
                (mkScanner ([COMMA_CHAR; SPACE] ++ inp) false 1 col)
                (Token.mk 1 col COMMA VUndefined) []
                (mkScanner ([SPACE] ++ inp) false 1 (col + 1)) st2
                ltac:(done) eq_refl ltac:(done)
                ltac:(intros; apply step_comma)) as Hn2.
  match type of Hn2 with
  | converges _ _ (Ret _ ?s) => set (st3 := s) in *
  end.
  destruct (first_token_starts_no_entry inp false 1 (col + 1 + 1) Hinp)
    as (ty & v & toks & s' & Hty & Hstep).
  set (s1 := mkScanner inp false 1 (col + 1 + 1)).
  pose proof (next_token 0%nat s1 (Token.mk 1 (col + 1 + 1) ty v) toks s'
                (set_tokens (scanning s1) st3)
                ltac:(by apply starts_no_entry_nonempty) eq_refl) as Hn3'.
  match type of Hn3' with
  | _ → _ → converges _ _ (Ret _ ?s) => set (st4 := s) in *
  end.
  assert (ty ≠ COMMENT ∧ ty ≠ STRING) as [Hc1 Hc2].
  { rewrite !elem_of_cons, elem_of_nil in Hty. naive_solver. }
  assert (converges next st3 (Ret (Token.mk 1 (col + 1 + 1) ty v) st4)) as Hn3.
  { eapply (next_skip 0%nat (mkScanner ([SPACE] ++ inp) false 1 (col + 1)) s1);
      [done | done | by intros; apply step_space | | done].
    apply Hn3'; [done | by intros]. }
  exists st4. apply parses_of_conv; [by apply stripBOM_bare|].
  eapply conv_bind; [exact Hn1|]. unfold Parser_parse.
  eapply conv_bind; [by apply conv_const|].
  eapply (conv_bind_throw (fun n => parse_loop n 0%N _)).
  apply conv_S. cbn [parse_loop].
  eapply conv_bind; [by apply conv_current|]. cbn beta.
  cbn [Token.type Token.value as_string]. rewrite Htruthy.
  eapply conv_bind; [by apply conv_const|].
  eapply conv_bind; [exact Hn2|].
  eapply (conv_bind_throw (fun n => more_keys n _)).
  apply conv_S. cbn [more_keys].
  eapply conv_bind; [by apply conv_current|]. cbn beta.
  cbn [Token.type]. rewrite bool_decide_eq_true_2 by done.
  eapply conv_bind; [exact Hn3|].
  eapply conv_bind; [by apply conv_current|]. cbn beta.
  cbn [Token.type]. rewrite bool_decide_eq_false_2 by done.
  eapply (conv_bind_throw (fun _ => unexpected _)).
  apply conv_const.
  rewrite (unexpected_at _ st4 (Token.mk 1 (col + 1 + 1) ty v) _ _
             eq_refl eq_refl eq_refl).
  unfold unexpected_message. do 3 f_equal.
  replace (col + 1 + 1)%N with (N.of_nat (length w + 2)) by (unfold col; lia).
  reflexivity.
Qed.

Lemma X14_comma_without_key_witness :
  ∃ st,
    parses (js "foo@^1.0.0, 1.1.0:") (Some (js "yarn.lock"))
      (Throw (SyntaxError (js "Expected string 1:12 in yarn.lock")) st).
Proof.
  apply (X14_comma_without_key (js "foo@^1.0.0") (js "1.1.0:")
           (Some (js "yarn.lock")));
    reflexivity.
Defined.

(** ** A comment or a quoted literal that the text does not end *)

Section Open.

Local Open Scope nat_scope.

Lemma Scans_unterminated ln tail evs :
  unterminated tail = true → Scans ln tail (Raise string_too_long :: evs).
Proof.
  intros H l c. constructor.
  eapply (brings_raise (S (length tail))); [by destruct tail|].
  intros n Hn. apply unterminated_step; [done | cbn [input]; lia].
Qed.

Lemma unterminated_no_BOM tail :
  unterminated tail = true → starts_otherwise BOM tail.
Proof.
  destruct tail as [|x tail]; [done|]. cbn [unterminated starts_otherwise].
  intros H ->. done.
Qed.

End Open.

(** X15: a line at the top level that starts a comment which no newline
    ends, or a quoted literal which no double quote closes, makes [parse] fail
    with [RangeError: Invalid string length], after any well-formed blocks,
    blank lines and comments.  So it is for a last line that is a comment
    and has no newline at its end. *)
Theorem X15_open_comment_or_literal its tail fileLoc :
  forallb wf_item its = true → unterminated tail = true →
  ∃ st,
    parses (render_items its ++ tail) fileLoc
           (Throw (RangeError (js "Invalid string length")) st).
Proof.
  intros Hwf Hopen.
  destruct (parse_items its tail [Raise string_too_long] fileLoc Hwf)
    as (r & Hr & st & ->);
    [by apply separated_closes | done | by apply Scans_unterminated
    | intros _; by apply Scans_unterminated
    | intros _; by apply unterminated_no_BOM |].
  by exists st.
Qed.

Lemma X15_open_comment_or_literal_witness :
  ∃ st,
    parses (lines [js "# yarn lockfile v1"; js "foo:"; js "  bar 1"]
            ++ js "# end of file") None
           (Throw (RangeError (js "Invalid string length")) st).
Proof.
  apply (X15_open_comment_or_literal
           [ Gap (Remark (js " yarn lockfile v1"));
             Top (Block (Bare (js "foo")) []
                    [Leaf (Bare (js "bar")) [] (SNumber (js "1"))]) ]
           (js "# end of file") None);
    reflexivity.
Defined.

(** ** The digits of a number, read back *)

Section Digits.

Local Open Scope N_scope.

Lemma fold_digits d acc :
  fold_left (fun n c => 10 * n + digit_value c)
            (js (NilEmpty.string_of_uint d)) acc
  = uint_value d acc.
Proof.
  revert acc. induction d; intros acc; [reflexivity|..]; apply IHd.
Qed.

Lemma uint_value_pos d acc :
  uint_value d (N.pos acc) = N.pos (Pos.of_uint_acc d acc).
Proof.
  revert acc. induction d; intros acc; cbn [uint_value Pos.of_uint_acc];
    [reflexivity|..];
    match goal with
    | |- uint_value _ ?a = N.pos (Pos.of_uint_acc _ ?b) =>
        replace a with (N.pos b) by lia
    end; apply IHd.
Qed.

Lemma uint_value_of_uint d : uint_value d 0 = N.of_uint d.
Proof.
  unfold N.of_uint.
  induction d; cbn [uint_value Pos.of_uint]; [reflexivity | exact IHd |..];
    apply (uint_value_pos d).
Qed.

Lemma to_number_digits n : to_number (number_to_string n) = n.
Proof.
  unfold to_number, number_to_string.
  rewrite <- (DecimalN.Unsigned.of_to n) at 2.
  rewrite <- uint_value_of_uint.
  destruct (N.to_uint n) eqn:E; try apply fold_digits.
  by destruct n; [|pose proof (DecimalPos.Unsigned.to_uint_nonnil p)].
Qed.

Lemma digits_of_uint d :
  forallb is_digit (js (NilEmpty.string_of_uint d)) = true.
Proof. induction d; [reflexivity|..]; exact IHd. Qed.

Lemma number_to_string_digits n :
  number_to_string n ≠ [] ∧ forallb is_digit (number_to_string n) = true.
Proof.
  unfold number_to_string.
  destruct (N.to_uint n) eqn:E; cbn [NilZero.string_of_uint];
    (split; [done | try apply digits_of_uint]). reflexivity.
Qed.

End Digits.

(** X16: a number is read back from its decimal digits: on the digits of a
    natural number [n] below 2^53, followed by the end of the text or by a
    character that is no digit, a turn of the loop yields one Number token
    of the value [n], at the position of the scanner, and consumes exactly
    the digits. *)
Theorem X16_number_is_read_back (n : N) rest ln l c fuel :
  (n < 2 ^ 53)%N →
  match rest with d :: _ => is_digit d = false | [] => True end →
  tokenise_step fuel (mkScanner (number_to_string n ++ rest) ln l c)
  = Ret [Token.mk l c NUMBER (VNum n)]
        (mkScanner rest false l
                   (c + N.of_nat (length (number_to_string n)))%N).
Proof.
  intros _ Hrest.
  destruct (number_to_string_digits n) as [Hne Hds].
  rewrite step_number by done. by rewrite to_number_digits.
Qed.

Lemma X16_number_is_read_back_witness :
  tokenise_step 0 (mkScanner (js "9007199254740991" ++ [LF]) false 7 3)
  = Ret [Token.mk 7 3 NUMBER (VNum 9007199254740991)]
        (mkScanner [LF] false 7 (3 + 16)).
Proof.
  apply (X16_number_is_read_back 9007199254740991 [LF] false 7 3 0);
    reflexivity.
Defined.
